(** * Control panel for the gravity-reduce rig: command handshake, codec,
      connection and settings persistence

    A shallow embedding of the renderer-side managers
    (controls/power-switches.js, connection/connection-manager.js,
    settings/settings-manager.js, the logger and the theme manager) and of
    the wire format described in the README, with the properties the
    specification states about them and further ones read off the code. *)

From Stdlib Require Import ZArith Lia Bool Ascii.
From Stdlib Require Import Strings.Byte.
From stdpp Require Import base option list strings pretty gmap.

(* ===================================================================== *)
(** ** Frame codec *)
(* ===================================================================== *)

Module Codec.

Local Open Scope Z_scope.

(** README, "Int2Byte Conversion":
<<
    bytes[0] = (0xff00 & i) >> 8;  // High byte
    bytes[1] = 0xff & i;            // Low byte
>>
    JavaScript's [&] and [>>] work on the 32-bit two's complement image of
    their operands; both masks are non-negative and below 2^16, so on an
    integer [i] the results are those of [Z.land] and [Z.shiftr]. *)
Definition Int2Byte (i : Z) : list Z :=
  [Z.shiftr (Z.land 0xff00 i) 8; Z.land 0xff i].

(** Modelled from the spec: the frame encoder lives in main.js, which is
    not among the sources.  Per the spec (4.1) the outbound frame is the
    [Int2Byte] image of each value, in slot order, with no padding, no
    length prefix and no checksum. *)
Definition encode (params : list Z) : list Z :=
  flat_map Int2Byte params.

(** Modelled from the spec: the "reverse codec" of the round-trip property
    (8), reading consecutive byte pairs as big-endian unsigned 16-bit
    values.  A trailing odd byte is not a value. *)
Fixpoint decode_be16 (bytes : list Z) : list Z :=
  match bytes with
  | hi :: lo :: rest => (hi * 256 + lo) :: decode_be16 rest
  | _ => []
  end.

Definition u16 (v : Z) : Prop := 0 <= v <= 65535.
Definition u8 (b : Z) : Prop := 0 <= b <= 255.

(** *** Inbound frame *)

Inductive DecodeError := MalformedFrame.

Record StatusSnapshot := {
  flags : list bool;   (* 40 boolean flags *)
  ints : list Z        (* 10 unsigned 16-bit integers *)
}.

Definition byte_val (b : byte) : Z := Z.of_N (Byte.to_N b).

(** Flags of one byte, least-significant bit first (bit value 1 = true). *)
Definition byte_flags (b : byte) : list bool :=
  map (fun k => Z.testbit (byte_val b) k) [0; 1; 2; 3; 4; 5; 6; 7].

Fixpoint be16_words (bytes : list byte) : list Z :=
  match bytes with
  | hi :: lo :: rest => (byte_val hi * 256 + byte_val lo) :: be16_words rest
  | _ => []
  end.

(** Modelled from the spec: the inbound decoder (parseReceivedData in
    main.js) is not among the sources.  Per the spec (4.1): the length is
    checked first and anything but 26 bytes is a [MalformedFrame] with no
    partial decoding; bytes 0-4 give 40 flags, 8 per byte, least-significant
    bit first; byte 5 is filler; bytes 6-25 give 10 big-endian unsigned
    16-bit integers. *)
Definition decode (buf : list byte) : DecodeError + StatusSnapshot :=
  if (length buf =? 26)%nat then
    inr {| flags := flat_map byte_flags (take 5 buf);
           ints := be16_words (drop 6 buf) |}
  else inl MalformedFrame.

(** **** Int2Byte on 16-bit values *)

Lemma Int2Byte_high (v : Z) :
  u16 v -> Z.shiftr (Z.land 0xff00 v) 8 = Z.shiftr v 8.
Proof.
  intros [Hlo Hhi].
  rewrite Z.shiftr_land.
  change (Z.shiftr 0xff00 8) with (Z.ones 8).
  rewrite Z.land_comm, Z.land_ones by lia.
  rewrite Z.shiftr_div_pow2 by lia.
  apply Z.mod_small.
  change (2 ^ 8) with 256.
  split; [apply Z.div_pos; lia | apply Z.div_lt_upper_bound; lia].
Qed.

Lemma Int2Byte_low (v : Z) : Z.land 0xff v = v mod 256.
Proof.
  change 0xff with (Z.ones 8).
  rewrite Z.land_comm, Z.land_ones by lia. reflexivity.
Qed.

Lemma Int2Byte_u16 (v : Z) :
  u16 v -> Int2Byte v = [v / 256; v mod 256].
Proof.
  intros Hv. unfold Int2Byte.
  rewrite Int2Byte_high, Int2Byte_low by exact Hv.
  rewrite Z.shiftr_div_pow2 by lia. reflexivity.
Qed.

Lemma Int2Byte_bytes (v : Z) : u16 v -> Forall u8 (Int2Byte v).
Proof.
  intros Hv. rewrite Int2Byte_u16 by exact Hv. destruct Hv as [Hlo Hhi].
  assert (0 <= v / 256 < 256)
    by (split; [apply Z.div_pos; lia | apply Z.div_lt_upper_bound; lia]).
  assert (0 <= v mod 256 < 256) by (apply Z.mod_pos_bound; lia).
  repeat constructor; unfold u8; lia.
Qed.

Lemma encode_length (vs : list Z) :
  length (encode vs) = (2 * length vs)%nat.
Proof.
  unfold encode. induction vs as [|v vs IH]; simpl; [reflexivity | lia].
Qed.

Lemma encode_bytes (vs : list Z) : Forall u16 vs -> Forall u8 (encode vs).
Proof.
  unfold encode. induction 1 as [|v vs Hv _ IH]; simpl.
  - constructor.
  - pose proof (Int2Byte_bytes v Hv) as Hb. unfold Int2Byte in Hb.
    inversion Hb as [|? ? H1 Hb']; subst. inversion Hb' as [|? ? H2 _]; subst.
    constructor; [exact H1 | constructor; [exact H2 | exact IH]].
Qed.

Lemma decode_encode (vs : list Z) :
  Forall u16 vs -> decode_be16 (encode vs) = vs.
Proof.
  unfold encode. induction 1 as [|v vs Hv _ IH]; [reflexivity |].
  cbn [flat_map]. rewrite Int2Byte_u16 by exact Hv.
  cbn [app decode_be16]. rewrite IH. f_equal.
  pose proof (Z.div_mod v 256). lia.
Qed.

(** C2: a vector of 16 values in [0,65535] is encoded as exactly two bytes
    per value, [value >> 8] then [value & 0xff], in slot order and without
    padding -- 32 bytes in all, each a byte -- and reading the frame back
    as big-endian 16-bit words returns the 16 original values. *)
Theorem encode_roundtrip (params : list Z) :
  length params = 16%nat ->
  Forall u16 params ->
  encode params
    = flat_map (fun v => [Z.shiftr v 8; Z.land v 0xff]) params
  /\ length (encode params) = 32%nat
  /\ Forall u8 (encode params)
  /\ decode_be16 (encode params) = params.
Proof.
  intros Hlen Hrange. repeat split.
  - clear Hlen. unfold encode.
    induction Hrange as [|v vs Hv _ IH]; [reflexivity |].
    cbn [flat_map]. rewrite IH. f_equal. unfold Int2Byte.
    rewrite Int2Byte_high by exact Hv. now rewrite (Z.land_comm v).
  - rewrite encode_length, Hlen. reflexivity.
  - apply encode_bytes, Hrange.
  - apply decode_encode, Hrange.
Qed.

Definition sample_params : list Z :=
  [0; 1; 255; 256; 257; 4660; 32767; 32768; 43981; 65535;
   5; 12; 1000; 2000; 3000; 65280].

Lemma encode_roundtrip_witness :
  encode sample_params
    = flat_map (fun v => [Z.shiftr v 8; Z.land v 0xff]) sample_params
  /\ length (encode sample_params) = 32%nat
  /\ Forall u8 (encode sample_params)
  /\ decode_be16 (encode sample_params) = sample_params.
Proof.
  apply (encode_roundtrip sample_params).
  - reflexivity.
  - unfold sample_params, u16. repeat constructor; lia.
Defined.

(** **** The inbound decoder *)

Lemma byte_val_range (b : byte) : 0 <= byte_val b <= 255.
Proof.
  unfold byte_val. pose proof (Byte.to_N_bounded b). lia.
Qed.

Lemma byte_flags_length (bs : list byte) :
  length (flat_map byte_flags bs) = (8 * length bs)%nat.
Proof.
  induction bs as [|b bs IH]; [reflexivity |].
  cbn [flat_map]. rewrite length_app, IH. simpl. lia.
Qed.

(** Induction two elements at a time, the way the word readers recurse. *)
Lemma list_pair_ind {A} (P : list A -> Prop) :
  P [] -> (forall a, P [a]) -> (forall a b l, P l -> P (a :: b :: l)) ->
  forall l, P l.
Proof.
  intros H0 H1 H2 l.
  cut (P l /\ forall a, P (a :: l)); [tauto |].
  induction l as [|x l [IHl IHxl]]; split; auto.
Qed.

Lemma be16_words_length (bs : list byte) :
  length (be16_words bs) = Nat.div2 (length bs).
Proof.
  induction bs as [|hi|hi lo rest IH] using list_pair_ind; try reflexivity.
  cbn [be16_words length Nat.div2]. f_equal. exact IH.
Qed.

Lemma be16_words_range (bs : list byte) : Forall u16 (be16_words bs).
Proof.
  induction bs as [|hi|hi lo rest IH] using list_pair_ind;
    cbn [be16_words]; constructor; [| exact IH].
  pose proof (byte_val_range hi). pose proof (byte_val_range lo).
  unfold u16. lia.
Qed.

(** C6: decoding succeeds -- with a complete snapshot of 40 flags and 10
    unsigned 16-bit integers -- exactly when the buffer is 26 bytes long;
    any other length is a [MalformedFrame] and no snapshot is produced. *)
Theorem decode_iff_length_26 (buf : list byte) :
  ((exists snap, decode buf = inr snap
                 /\ length (flags snap) = 40%nat
                 /\ length (ints snap) = 10%nat
                 /\ Forall u16 (ints snap))
   <-> length buf = 26%nat)
  /\ (length buf <> 26%nat -> decode buf = inl MalformedFrame)
  /\ (forall snap, decode buf = inr snap -> length buf = 26%nat).
Proof.
  unfold decode.
  destruct (Nat.eqb_spec (length buf) 26) as [Hlen | Hlen].
  - split; [split; [intros _; exact Hlen | intros _] | split; [tauto | auto]].
    eexists. split; [reflexivity |]. cbn [flags ints].
    rewrite byte_flags_length, be16_words_length, length_take, length_drop, Hlen.
    repeat split; try reflexivity. apply be16_words_range.
  - split; [split | split]; try tauto.
    + intros (snap & Hdec & _). discriminate Hdec.
    + intros snap Hdec. discriminate Hdec.
Qed.

(** *** Int2Byte outside the 16-bit range *)

(** The 32-bit two's complement image JavaScript's bit operators take of an
    integer operand. *)
Definition ToInt32 (i : Z) : Z := (i + 2 ^ 31) mod 2 ^ 32 - 2 ^ 31.

Lemma Int2Byte_mod (i : Z) :
  Int2Byte i = [(i / 256) mod 256; i mod 256].
Proof.
  unfold Int2Byte. rewrite Int2Byte_low. f_equal.
  rewrite Z.shiftr_land. change (Z.shiftr 0xff00 8) with (Z.ones 8).
  rewrite Z.land_comm, Z.land_ones, Z.shiftr_div_pow2 by lia. reflexivity.
Qed.

Lemma ToInt32_low16 (i : Z) : ToInt32 i mod 65536 = i mod 65536.
Proof.
  unfold ToInt32.
  pose proof (Z.div_mod (i + 2 ^ 31) (2 ^ 32) ltac:(lia)) as Hdm.
  replace ((i + 2 ^ 31) mod 2 ^ 32 - 2 ^ 31)
    with (i + (- ((i + 2 ^ 31) / 2 ^ 32) * 65536) * 65536) by lia.
  apply Z.mod_add. lia.
Qed.

Lemma low16_split (i : Z) :
  (i / 256) mod 256 * 256 + i mod 256 = i mod 65536.
Proof.
  change 65536 with (256 * 256). rewrite Z.rem_mul_r by lia. lia.
Qed.

Lemma Int2Byte_low16 (i j : Z) :
  i mod 65536 = j mod 65536 -> Int2Byte i = Int2Byte j.
Proof.
  intros H. rewrite !Int2Byte_mod.
  assert (Hlo : i mod 256 = j mod 256).
  { pose proof (low16_split i). pose proof (low16_split j).
    pose proof (Z.mod_pos_bound i 256). pose proof (Z.mod_pos_bound j 256).
    pose proof (Z.mod_pos_bound (i / 256) 256).
    pose proof (Z.mod_pos_bound (j / 256) 256). lia. }
  pose proof (low16_split i). pose proof (low16_split j).
  f_equal; [| f_equal]; lia.
Qed.

(** X1: On any integer the two bytes are in range and hold the integer modulo
    65536, high byte first: a value outside 0..65535 is neither rejected
    nor clamped, it wraps.  Taking the 32-bit image first, as JavaScript
    does, changes nothing. *)
Theorem Int2Byte_wraps (i : Z) :
  Forall u8 (Int2Byte i)
  /\ (exists hi lo, Int2Byte i = [hi; lo] /\ hi * 256 + lo = i mod 65536)
  /\ Int2Byte i = Int2Byte (i mod 65536)
  /\ Int2Byte (ToInt32 i) = Int2Byte i.
Proof.
  split; [| split; [| split]].
  - rewrite Int2Byte_mod.
    pose proof (Z.mod_pos_bound i 256). pose proof (Z.mod_pos_bound (i / 256) 256).
    repeat constructor; unfold u8; lia.
  - rewrite Int2Byte_mod. eexists _, _. split; [reflexivity |]. apply low16_split.
  - apply Int2Byte_low16. by rewrite Z.mod_mod.
  - apply Int2Byte_low16, ToInt32_low16.
Qed.

End Codec.

(* ===================================================================== *)
(** ** Power switches and command buttons (controls/power-switches.js) *)
(* ===================================================================== *)

Module Controls.

(** Reverse application, to read a method body top to bottom. *)
Local Notation "s |> f" := (f s) (at level 45, left associativity, only parsing).

(** *** State *)

(** The [stateManager] keys the two managers read and write. *)
Record StateManager := {
  isConnected : bool;
  currentCommand : Z;
  waitingForAcknowledgment : bool
}.

(** A [.btn-command] element.  [btn_cmd] is [parseInt(btn.dataset.cmd)]. *)
Record Button := {
  btn_cmd : Z;
  btn_dataset_name : option string;
  btn_textContent : string;
  btn_disabled : bool;
  btn_active : bool           (* 'active-command' in classList *)
}.

(** A toggle switch (checkbox).  [sw_cmdOn] and [sw_cmdOff] are
    [parseInt] of [dataset.cmdOn] and [dataset.cmdOff]. *)
Record Switch := {
  sw_checked : bool;
  sw_disabled : bool;
  sw_cmdOn : Z;
  sw_cmdOff : Z;
  sw_dataset_name : option string
}.

(** The classes a switch group carries. *)
Record Group := {
  grp_disabled : bool;        (* 'disabled' in classList *)
  grp_waiting_ack : bool      (* 'waiting-ack' in classList *)
}.

(** The elements the managers look up in [init]; [None] is the [null] of
    [getElementById] on a page without the element.  Both managers fetch
    the same '.btn-command', 'cmd-loading-icon', 'int-9' and
    'current-cmd-display' nodes, so they share them here. *)
Record Dom := {
  commandButtons : list Button;
  driverSwitch : option Switch;
  servoSwitch : option Switch;
  driverGroup : option Group;
  servoGroup : option Group;
  loadingIcon : option string;      (* style.display *)
  commandInput : option string;     (* value of #int-9 *)
  cmdDisplay : option string        (* textContent *)
}.

Inductive SwitchId := Driver | Servo.

Inductive Event :=
| PowerSwitchesEnable                       (* 'power-switches:enable' *)
| PowerSwitchesDisable                      (* 'power-switches:disable' *)
| COMMAND_SET (commandId : Z) (commandName : string) (source : option string).

Record LogEntry := { log_type : string; log_message : string }.

Record State := {
  sm : StateManager;
  dom : Dom;
  log : list LogEntry;        (* logger calls, oldest first *)
  events : list Event         (* eventBus.emit calls, oldest first *)
}.

(** *** Field updates *)

Definition set_isConnected (v : bool) (m : StateManager) : StateManager :=
  {| isConnected := v; currentCommand := currentCommand m;
     waitingForAcknowledgment := waitingForAcknowledgment m |}.
Definition set_currentCommand (v : Z) (m : StateManager) : StateManager :=
  {| isConnected := isConnected m; currentCommand := v;
     waitingForAcknowledgment := waitingForAcknowledgment m |}.
Definition set_waiting (v : bool) (m : StateManager) : StateManager :=
  {| isConnected := isConnected m; currentCommand := currentCommand m;
     waitingForAcknowledgment := v |}.

Definition set_btn_disabled (v : bool) (b : Button) : Button :=
  {| btn_cmd := btn_cmd b; btn_dataset_name := btn_dataset_name b;
     btn_textContent := btn_textContent b; btn_disabled := v;
     btn_active := btn_active b |}.
Definition set_btn_active (v : bool) (b : Button) : Button :=
  {| btn_cmd := btn_cmd b; btn_dataset_name := btn_dataset_name b;
     btn_textContent := btn_textContent b; btn_disabled := btn_disabled b;
     btn_active := v |}.

Definition set_sw_checked (v : bool) (w : Switch) : Switch :=
  {| sw_checked := v; sw_disabled := sw_disabled w; sw_cmdOn := sw_cmdOn w;
     sw_cmdOff := sw_cmdOff w; sw_dataset_name := sw_dataset_name w |}.
Definition set_sw_disabled (v : bool) (w : Switch) : Switch :=
  {| sw_checked := sw_checked w; sw_disabled := v; sw_cmdOn := sw_cmdOn w;
     sw_cmdOff := sw_cmdOff w; sw_dataset_name := sw_dataset_name w |}.

Definition set_grp_disabled (v : bool) (g : Group) : Group :=
  {| grp_disabled := v; grp_waiting_ack := grp_waiting_ack g |}.
Definition set_grp_waiting_ack (v : bool) (g : Group) : Group :=
  {| grp_disabled := grp_disabled g; grp_waiting_ack := v |}.

Definition with_buttons (f : list Button -> list Button) (d : Dom) : Dom :=
  {| commandButtons := f (commandButtons d);
     driverSwitch := driverSwitch d; servoSwitch := servoSwitch d;
     driverGroup := driverGroup d; servoGroup := servoGroup d;
     loadingIcon := loadingIcon d; commandInput := commandInput d;
     cmdDisplay := cmdDisplay d |}.

Definition switch_of (w : SwitchId) (d : Dom) : option Switch :=
  match w with Driver => driverSwitch d | Servo => servoSwitch d end.
Definition group_of (w : SwitchId) (d : Dom) : option Group :=
  match w with Driver => driverGroup d | Servo => servoGroup d end.
Definition other (w : SwitchId) : SwitchId :=
  match w with Driver => Servo | Servo => Driver end.

Definition with_switch (w : SwitchId) (f : Switch -> Switch) (d : Dom) : Dom :=
  {| commandButtons := commandButtons d;
     driverSwitch :=
       match w with Driver => f <$> driverSwitch d | Servo => driverSwitch d end;
     servoSwitch :=
       match w with Driver => servoSwitch d | Servo => f <$> servoSwitch d end;
     driverGroup := driverGroup d; servoGroup := servoGroup d;
     loadingIcon := loadingIcon d; commandInput := commandInput d;
     cmdDisplay := cmdDisplay d |}.

Definition with_group (w : SwitchId) (f : Group -> Group) (d : Dom) : Dom :=
  {| commandButtons := commandButtons d;
     driverSwitch := driverSwitch d; servoSwitch := servoSwitch d;
     driverGroup :=
       match w with Driver => f <$> driverGroup d | Servo => driverGroup d end;
     servoGroup :=
       match w with Driver => servoGroup d | Servo => f <$> servoGroup d end;
     loadingIcon := loadingIcon d; commandInput := commandInput d;
     cmdDisplay := cmdDisplay d |}.

Definition set_loadingIcon (display : string) (d : Dom) : Dom :=
  {| commandButtons := commandButtons d;
     driverSwitch := driverSwitch d; servoSwitch := servoSwitch d;
     driverGroup := driverGroup d; servoGroup := servoGroup d;
     loadingIcon := (fun _ => display) <$> loadingIcon d;
     commandInput := commandInput d; cmdDisplay := cmdDisplay d |}.

Definition set_commandInput (value : string) (d : Dom) : Dom :=
  {| commandButtons := commandButtons d;
     driverSwitch := driverSwitch d; servoSwitch := servoSwitch d;
     driverGroup := driverGroup d; servoGroup := servoGroup d;
     loadingIcon := loadingIcon d;
     commandInput := (fun _ => value) <$> commandInput d;
     cmdDisplay := cmdDisplay d |}.

Definition set_cmdDisplay (text : string) (d : Dom) : Dom :=
  {| commandButtons := commandButtons d;
     driverSwitch := driverSwitch d; servoSwitch := servoSwitch d;
     driverGroup := driverGroup d; servoGroup := servoGroup d;
     loadingIcon := loadingIcon d; commandInput := commandInput d;
     cmdDisplay := (fun _ => text) <$> cmdDisplay d |}.

Definition with_sm (f : StateManager -> StateManager) (s : State) : State :=
  {| sm := f (sm s); dom := dom s; log := log s; events := events s |}.
Definition with_dom (f : Dom -> Dom) (s : State) : State :=
  {| sm := sm s; dom := f (dom s); log := log s; events := events s |}.

(** [logger.error], [logger.success]: one more entry in the log (the
    LOG_MESSAGE event the logger emits has no listener in these modules). *)
Definition logger (type message : string) (s : State) : State :=
  {| sm := sm s; dom := dom s;
     log := log s ++ [{| log_type := type; log_message := message |}];
     events := events s |}.

Definition record_event (ev : Event) (s : State) : State :=
  {| sm := sm s; dom := dom s; log := log s; events := events s ++ [ev] |}.

(** Truthiness of an element reference: [null] is falsy. *)
Definition present {A} (o : option A) : bool :=
  match o with Some _ => true | None => false end.

(** The string a template literal renders for a value that may be
    [undefined]. *)
Definition template (o : option string) : string :=
  default "undefined" o.

(** *** PowerSwitchesManager *)

(** [disableCommandButtons]: every '.btn-command' on the page. *)
Definition disableCommandButtons (s : State) : State :=
  s |> with_dom (with_buttons (fmap (set_btn_disabled true))).

(** [setWaitingForAcknowledgment(waiting)]; the same method body is in both
    classes. *)
Definition setWaitingForAcknowledgment (waiting : bool) (s : State) : State :=
  s |> with_sm (set_waiting waiting)
    |> with_dom (set_loadingIcon (if waiting then "inline-block" else "none")).

(** [setCommand(commandId, commandName)]; the same method body is in both
    classes. *)
Definition setCommand (commandId : Z) (commandName : string) (s : State) : State :=
  s |> with_sm (set_currentCommand commandId)
    |> with_dom (set_commandInput (pretty commandId))
    |> with_dom (set_cmdDisplay (pretty commandId +:+ " - " +:+ commandName)).

(** One switch inside [disableAll]:
    [if (sw) { sw.disabled = true; if (group) group.classList.add('disabled') }]. *)
Definition disableSwitch (w : SwitchId) (s : State) : State :=
  if present (switch_of w (dom s)) then
    s |> with_dom (with_switch w (set_sw_disabled true))
      |> with_dom (with_group w (set_grp_disabled true))
  else s.

Definition disableAll (s : State) : State :=
  s |> disableSwitch Driver |> disableSwitch Servo.

(** One switch inside [enableAll]:
    [if (sw && isConnected) { sw.disabled = false; if (group) {...} }]. *)
Definition enableSwitch (w : SwitchId) (s : State) : State :=
  if present (switch_of w (dom s)) && isConnected (sm s) then
    s |> with_dom (with_switch w (set_sw_disabled false))
      |> with_dom (with_group w (set_grp_disabled false))
      |> with_dom (with_group w (set_grp_waiting_ack false))
  else s.

Definition enableAll (s : State) : State :=
  s |> enableSwitch Driver |> enableSwitch Servo.

Definition handleConnectionStatus (connected : bool) (s : State) : State :=
  if connected then enableAll s else disableAll s.

(** [PowerSwitchesManager.init] returns before attaching anything when
    either switch is missing from the page. *)
Definition listeners_registered (d : Dom) : bool :=
  present (driverSwitch d) && present (servoSwitch d).

(** Modelled from the spec: core/event-bus.js is not among the sources.
    [emit] is taken to run, synchronously, the listeners registered with
    [eventBus.on]; the ones in the sources are the two that
    [PowerSwitchesManager.init] registers, which is how the engine of spec
    4.5 disables and re-enables the power/servo switches. *)
Definition emit (ev : Event) (s : State) : State :=
  let s := record_event ev s in
  match ev with
  | PowerSwitchesEnable =>
      if listeners_registered (dom s) then enableAll s else s
  | PowerSwitchesDisable =>
      if listeners_registered (dom s) then disableAll s else s
  | COMMAND_SET _ _ _ => s
  end.

Definition switchName (w : SwitchId) : string :=
  match w with Driver => "driver" | Servo => "servo" end.

(** [handleSwitchChange(e, switchName, thisSwitch, otherSwitch, thisGroup,
    otherGroup)], called with [e.target = thisSwitch] and the other
    switch and the two groups as [attachEventListeners] passes them. *)
Definition handleSwitchChange (w : SwitchId) (s : State) : State :=
  match switch_of w (dom s) with
  | None => s
  | Some target =>
      if negb (isConnected (sm s)) then
        s |> logger "error" "Not connected to server"
          |> with_dom (with_switch w (set_sw_checked (negb (sw_checked target))))
      else
        let isOn := sw_checked target in
        let commandId := if isOn then sw_cmdOn target else sw_cmdOff target in
        let commandName :=
          template (sw_dataset_name target) +:+ " " +:+
          (if isOn then "ON" else "OFF") in
        s |> disableCommandButtons
          |> disableSwitch (other w)
          |> with_dom (with_group w (set_grp_waiting_ack true))
          |> setWaitingForAcknowledgment true
          |> setCommand commandId commandName
          |> logger "success"
               ("Command set: " +:+ commandName +:+ " (ID: " +:+
                pretty commandId +:+ ") - waiting for acknowledgment...")
          |> emit (COMMAND_SET commandId commandName
                     (Some (switchName w +:+ "-switch")))
  end.

Definition flip_checked (sw : Switch) : Switch :=
  set_sw_checked (negb (sw_checked sw)) sw.

(** The operator flips a switch: the browser inverts [checked] and then
    fires 'change'.  [init] attaches the handler above only on a page that
    has both switches; on any other page nothing listens and the flip is
    all that happens. *)
Definition toggleSwitch (w : SwitchId) (s : State) : State :=
  let s := s |> with_dom (with_switch w flip_checked) in
  if listeners_registered (dom s) then handleSwitchChange w s else s.

(** *** CommandButtonsManager *)

(** Buttons are identified by their position in the NodeList. *)
Definition setActiveButton (i : nat) (s : State) : State :=
  s |> with_dom (with_buttons (fmap (set_btn_active false)))
    |> with_dom (with_buttons (alter (set_btn_active true) i)).

Definition disableAllButtonsExcept (i : nat) (s : State) : State :=
  s |> with_dom (with_buttons
         (imap (fun j btn => if decide (j <> i)
                             then set_btn_disabled true btn else btn))).

Definition enableAllButtons (s : State) : State :=
  s |> with_dom (with_buttons (fmap (set_btn_disabled false))).

Definition disableAllButtons (s : State) : State :=
  s |> with_dom (with_buttons (fmap (set_btn_disabled true))).

Definition clearActiveButtons (s : State) : State :=
  s |> with_dom (with_buttons (fmap (set_btn_active false))).

Definition clearCommand (s : State) : State :=
  setCommand 0 "None" s.

(** [btn.dataset.name || btn.textContent] *)
Definition button_name (btn : Button) : string :=
  match btn_dataset_name btn with
  | Some n => if String.eqb n "" then btn_textContent btn else n
  | None => btn_textContent btn
  end.

(** [handleCommandClick(btn)] for the button at position [i]; a position
    past the end of the list has no button and no listener. *)
Definition handleCommandClick (i : nat) (s : State) : State :=
  match commandButtons (dom s) !! i with
  | None => s
  | Some btn =>
      if negb (isConnected (sm s)) then
        s |> logger "error" "Not connected to server"
      else
        let commandId := btn_cmd btn in
        let commandName := button_name btn in
        s |> setActiveButton i
          |> disableAllButtonsExcept i
          |> emit PowerSwitchesDisable
          |> setWaitingForAcknowledgment true
          |> setCommand commandId commandName
          |> logger "success"
               ("Command set: " +:+ commandName +:+ " (ID: " +:+
                pretty commandId +:+ ") - waiting for acknowledgment...")
          |> emit (COMMAND_SET commandId commandName None)
  end.

Definition handleAcknowledgment (s : State) : State :=
  s |> clearActiveButtons
    |> enableAllButtons
    |> emit PowerSwitchesEnable
    |> setWaitingForAcknowledgment false
    |> clearCommand
    |> logger "success" "Command acknowledged and completed by PLC".


(** *** Operator requests *)

Inductive Request :=
| Click (i : nat)          (* click on the i-th command button *)
| Toggle (w : SwitchId).   (* flip of a power switch *)

Definition issue (r : Request) (s : State) : State :=
  match r with
  | Click i => handleCommandClick i s
  | Toggle w => toggleSwitch w s
  end.

(** The command id request [r] carries when made in state [s]: none for a
    button the page does not have, and none for a switch whose flips
    nothing listens to. *)
Definition request_id (r : Request) (s : State) : option Z :=
  match r with
  | Click i => btn_cmd <$> commandButtons (dom s) !! i
  | Toggle w =>
      if listeners_registered (dom s) then
        (fun sw => if sw_checked sw then sw_cmdOff sw else sw_cmdOn sw)
          <$> switch_of w (dom s)
      else None
  end.

Definition run (rs : list Request) (s : State) : State :=
  foldl (fun s r => issue r s) s rs.

(** Engine states of spec 4.5, read off the [stateManager]. *)
Definition Pending (id : Z) (s : State) : Prop :=
  waitingForAcknowledgment (sm s) = true /\ currentCommand (sm s) = id.

(** *** Operations on the power switches alone *)

Inductive PsOp :=
| OpEnableAll
| OpDisableAll
| OpConnectionStatus (connected : bool)
| OpStatusUpdate (connected : bool).

(** Modelled from the spec: [ConnectionManager.handleConnectionStatusUpdate]
    stores [isConnected] and emits [Events.CONNECTION_STATUS]; the listener
    that forwards the event to [handleConnectionStatus] is registered in
    the renderer entry point, which is not among the sources (the spec's
    [connectionStatusChanged(connected)] notification). *)
Definition connectionStatusUpdate (connected : bool) (s : State) : State :=
  s |> with_sm (set_isConnected connected)
    |> handleConnectionStatus connected.

Definition ps_step (op : PsOp) (s : State) : State :=
  match op with
  | OpEnableAll => enableAll s
  | OpDisableAll => disableAll s
  | OpConnectionStatus c => handleConnectionStatus c s
  | OpStatusUpdate c => connectionStatusUpdate c s
  end.

Definition ps_run (ops : list PsOp) (s : State) : State :=
  foldl (fun s op => ps_step op s) s ops.

(** While disconnected, every switch on the page is disabled. *)
Definition disconnected_disabled (s : State) : Prop :=
  isConnected (sm s) = false ->
  forall w sw, switch_of w (dom s) = Some sw -> sw_disabled sw = true.

(** The button list after [setActiveButton i] and
    [disableAllButtonsExcept i], position by position. *)
Definition clicked (i j : nat) (b : Button) : Button :=
  if decide (j = i) then set_btn_active true (set_btn_active false b)
  else set_btn_disabled true (set_btn_active false b).

(** *** Everything the two managers are called with *)

(** The calls the two managers take: an operator request, an
    acknowledgment, or one of the public methods of the power switches. *)
Inductive CtlOp :=
| DoIssue (r : Request)
| DoAck
| DoEnableAll
| DoDisableAll
| DoConnectionStatus (connected : bool).

Definition ctl_step (op : CtlOp) (s : State) : State :=
  match op with
  | DoIssue r => issue r s
  | DoAck => handleAcknowledgment s
  | DoEnableAll => enableAll s
  | DoDisableAll => disableAll s
  | DoConnectionStatus c => handleConnectionStatus c s
  end.

Definition ctl_run (ops : list CtlOp) (s : State) : State :=
  foldl (fun s op => ctl_step op s) s ops.

(** The int-9 input shows the command register and the loading icon shows
    the waiting flag. *)
Definition ui_mirrors (s : State) : Prop :=
  (forall v, commandInput (dom s) = Some v -> v = pretty (currentCommand (sm s)))
  /\ (forall d, loadingIcon (dom s) = Some d ->
        d = if waitingForAcknowledgment (sm s) then "inline-block" else "none").

(** A page on which nothing is pending: no button highlighted or
    disabled, no switch disabled or marked, the command shown as 0. *)
Definition at_rest (d : Dom) : Prop :=
  Forall (fun b => btn_active b = false /\ btn_disabled b = false) (commandButtons d)
  /\ (forall w sw, switch_of w d = Some sw -> sw_disabled sw = false)
  /\ (forall w g, group_of w d = Some g ->
        grp_disabled g = false /\ grp_waiting_ack g = false)
  /\ (forall v, loadingIcon d = Some v -> v = "none")
  /\ (forall v, commandInput d = Some v -> v = "0")
  /\ (forall v, cmdDisplay d = Some v -> v = "0 - None").

(** An acknowledgment, and the calls that can enable a power switch. *)
Definition is_ack (op : CtlOp) : bool :=
  match op with DoAck => true | _ => false end.

Definition may_enable (op : CtlOp) : bool :=
  match op with
  | DoAck | DoEnableAll | DoConnectionStatus true => true
  | _ => false
  end.

(** A call after which "disconnected implies disabled" holds whatever the
    page was like before. *)
Definition settles (op : PsOp) : bool :=
  match op with
  | OpDisableAll | OpConnectionStatus false | OpStatusUpdate _ => true
  | OpEnableAll | OpConnectionStatus true => false
  end.

(** What [enableAll] makes of a switch and of its group when it acts. *)
Definition enabled_if (b : bool) (sw : Switch) : Switch :=
  if b then set_sw_disabled false sw else sw.
Definition unmarked_if (b : bool) (g : Group) : Group :=
  if b then set_grp_waiting_ack false (set_grp_disabled false g) else g.

Definition same_switch (w w0 : SwitchId) : bool :=
  match w, w0 with
  | Driver, Driver | Servo, Servo => true
  | _, _ => false
  end.

(** *** Controls kept disabled by a pending request *)

(** In state [s], button [j] (switch [w]) of the page [d] is still on the
    page, and disabled. *)
Definition button_kept_disabled (d : Dom) (j : nat) (s : State) : Prop :=
  btn_disabled <$> commandButtons (dom s) !! j
  = (fun _ => true) <$> commandButtons d !! j.

Definition switch_kept_disabled (d : Dom) (w : SwitchId) (s : State) : Prop :=
  sw_disabled <$> switch_of w (dom s) = (fun _ => true) <$> switch_of w d.

(** The controls that conflict with request [r] made on page [d]: for a
    click every other button and, where the 'power-switches:disable'
    listener is registered, both switches; for a flip every button and the
    other switch. *)
Definition conflicting_button (r : Request) (j : nat) : bool :=
  match r with
  | Click i => bool_decide (j <> i)
  | Toggle _ => true
  end.

Definition conflicting_switch (r : Request) (d : Dom) (w : SwitchId) : bool :=
  match r with
  | Click _ => listeners_registered d
  | Toggle w0 => negb (same_switch w w0)
  end.

(** *** Sticky requests *)

Section Sticky.

(** The controls that are safe to use while a sticky command is active
    (spec 4.5); the spec does not say which they are, so they are taken as
    given: the buttons by position, and the switches. *)
Variable safe_button : nat -> bool.
Variable safe_switch : SwitchId -> bool.





End Sticky.

(** *** A main window with three buttons and both switches *)

Definition demo_buttons : list Button :=
  [ {| btn_cmd := 5; btn_dataset_name := Some "Start Experiment";
       btn_textContent := "Start"; btn_disabled := false; btn_active := false |};
    {| btn_cmd := 12; btn_dataset_name := Some "X+";
       btn_textContent := "X+"; btn_disabled := false; btn_active := false |};
    {| btn_cmd := 7; btn_dataset_name := None;
       btn_textContent := "Stop"; btn_disabled := false; btn_active := false |} ].

Definition demo_dom : Dom :=
  {| commandButtons := demo_buttons;
     driverSwitch := Some {| sw_checked := false; sw_disabled := false;
                             sw_cmdOn := 20; sw_cmdOff := 21;
                             sw_dataset_name := Some "Driver Power" |};
     servoSwitch := Some {| sw_checked := false; sw_disabled := false;
                            sw_cmdOn := 22; sw_cmdOff := 23;
                            sw_dataset_name := Some "Servo Module" |};
     driverGroup := Some {| grp_disabled := false; grp_waiting_ack := false |};
     servoGroup := Some {| grp_disabled := false; grp_waiting_ack := false |};
     loadingIcon := Some "none";
     commandInput := Some "0";
     cmdDisplay := Some "0 - None" |}.

Definition demo_state (connected : bool) : State :=
  {| sm := {| isConnected := connected; currentCommand := 0;
              waitingForAcknowledgment := false |};
     dom := demo_dom; log := []; events := [] |}.

(** The same window without the servo switch. *)
Definition lone_switch_state (connected : bool) : State :=
  {| sm := {| isConnected := connected; currentCommand := 0;
              waitingForAcknowledgment := false |};
     dom := {| commandButtons := demo_buttons;
               driverSwitch := driverSwitch demo_dom; servoSwitch := None;
               driverGroup := driverGroup demo_dom; servoGroup := None;
               loadingIcon := Some "none"; commandInput := Some "0";
               cmdDisplay := Some "0 - None" |};
     log := []; events := [] |}.

(** *** Proof automation for the state record *)

(** Case analysis on everything the handlers branch on -- the connection
    flag and the presence of each switch -- before any unfolding, so that
    every conditional reduces. *)
Ltac break_state s :=
  let conn := fresh "conn" in
  let ds := fresh "ds" in
  let ss := fresh "ss" in
  destruct s as [[conn ? ?] [? ds ss ? ? ? ? ?] ? ?];
  cbn [sm dom isConnected] in *; subst;
  try destruct conn; destruct ds as [[? ? ? ? ?]|], ss as [[? ? ? ? ?]|].

Ltac crush s :=
  break_state s; cbn -[pretty String.append] in *; try done.

(** The same, for a statement about one switch [w]. *)
Ltac crush_switch s w :=
  destruct w; crush s; intros; simplify_eq/=; try done.

(** **** Frame properties of [handleAcknowledgment] *)

Lemma ack_sm s :
  sm (handleAcknowledgment s)
  = set_currentCommand 0 (set_waiting false (sm s)).
Proof. crush s. Qed.

Lemma ack_buttons s :
  commandButtons (dom (handleAcknowledgment s))
  = set_btn_disabled false <$> (set_btn_active false <$> commandButtons (dom s)).
Proof. crush s. Qed.

Lemma ack_commandInput s :
  commandInput (dom (handleAcknowledgment s))
  = (fun _ => "0") <$> commandInput (dom s).
Proof. crush s. Qed.

Lemma ack_listeners s :
  listeners_registered (dom (handleAcknowledgment s))
  = listeners_registered (dom s).
Proof. crush s. Qed.

Lemma ack_switch_of s w :
  switch_of w (dom (handleAcknowledgment s))
  = enabled_if (listeners_registered (dom s) && isConnected (sm s))
      <$> switch_of w (dom s).
Proof. crush_switch s w. Qed.

Lemma ack_group_of s w :
  group_of w (dom (handleAcknowledgment s))
  = unmarked_if (listeners_registered (dom s) && isConnected (sm s))
      <$> group_of w (dom s).
Proof.
  destruct w; crush s.
  all: match goal with |- context [group_of _ ?d] => idtac | _ => idtac end.
  all: repeat match goal with
              | |- context [_ <$> ?o] => is_var o; destruct o as [[]|]; cbn
              end; done.
Qed.

Lemma ack_loadingIcon s :
  loadingIcon (dom (handleAcknowledgment s))
  = (fun _ => "none") <$> loadingIcon (dom s).
Proof. crush s. Qed.

Lemma ack_cmdDisplay s :
  cmdDisplay (dom (handleAcknowledgment s))
  = (fun _ => "0 - None") <$> cmdDisplay (dom s).
Proof. crush s. Qed.

(** **** Frame properties of issuing a request *)

Lemma issue_isConnected r s :
  isConnected (sm (issue r s)) = isConnected (sm s).
Proof.
  destruct r as [i | w]; cbn.
  - unfold handleCommandClick. destruct (_ !! i); [| done]. crush s.
  - crush_switch s w.
Qed.

Lemma issue_listeners r s :
  listeners_registered (dom (issue r s)) = listeners_registered (dom s).
Proof.
  destruct r as [i | w]; cbn.
  - unfold handleCommandClick. destruct (_ !! i); [| done]. crush s.
  - crush_switch s w.
Qed.

Lemma issue_sm r s id :
  isConnected (sm s) = true ->
  request_id r s = Some id ->
  sm (issue r s) = set_currentCommand id (set_waiting true (sm s)).
Proof.
  intros Hc Hid. destruct r as [i | w]; cbn in *.
  - unfold handleCommandClick. destruct (_ !! i); [| done]. crush s.
    all: by simplify_eq/=.
  - crush_switch s w. all: by repeat case_match.
Qed.

Lemma issue_commandInput r s id :
  isConnected (sm s) = true ->
  request_id r s = Some id ->
  commandInput (dom (issue r s)) = (fun _ => pretty id) <$> commandInput (dom s).
Proof.
  intros Hc Hid. destruct r as [i | w]; cbn in *.
  - unfold handleCommandClick. destruct (_ !! i); [| done]. crush s.
    all: by simplify_eq/=.
  - crush_switch s w. all: by repeat case_match.
Qed.

Lemma issue_pending r s id :
  isConnected (sm s) = true ->
  request_id r s = Some id ->
  Pending id (issue r s).
Proof.
  intros Hc Hid. unfold Pending. rewrite (issue_sm r s id Hc Hid). done.
Qed.

Lemma click_buttons_lookup (bs : list Button) (i j : nat) :
  imap (fun j btn => if decide (j <> i) then set_btn_disabled true btn else btn)
       (alter (set_btn_active true) i (set_btn_active false <$> bs)) !! j
  = clicked i j <$> bs !! j.
Proof.
  rewrite list_lookup_imap, list_lookup_alter, list_lookup_fmap.
  unfold clicked. destruct (decide (i = j)) as [-> | Hne].
  - destruct (bs !! j); cbn; [| done]. by repeat case_decide.
  - rewrite list_lookup_fmap. destruct (bs !! j); cbn; [| done].
    repeat case_decide; congruence.
Qed.

Lemma click_buttons i s btn j :
  isConnected (sm s) = true ->
  commandButtons (dom s) !! i = Some btn ->
  commandButtons (dom (handleCommandClick i s)) !! j
  = clicked i j <$> commandButtons (dom s) !! j.
Proof.
  intros Hc Hbtn. unfold handleCommandClick. rewrite Hbtn.
  crush s; apply click_buttons_lookup.
Qed.

Lemma click_switch_of i s btn w :
  isConnected (sm s) = true ->
  listeners_registered (dom s) = true ->
  commandButtons (dom s) !! i = Some btn ->
  switch_of w (dom (handleCommandClick i s))
  = set_sw_disabled true <$> switch_of w (dom s).
Proof.
  intros Hc Hl Hbtn. unfold handleCommandClick. rewrite Hbtn. crush_switch s w.
Qed.

Lemma click_group_of i s btn w :
  isConnected (sm s) = true ->
  listeners_registered (dom s) = true ->
  commandButtons (dom s) !! i = Some btn ->
  group_of w (dom (handleCommandClick i s))
  = set_grp_disabled true <$> group_of w (dom s).
Proof.
  intros Hc Hl Hbtn. unfold handleCommandClick. rewrite Hbtn. crush_switch s w.
Qed.



(** **** Sticky commands *)

Section StickyFacts.

Variable safe_button : nat -> bool.
Variable safe_switch : SwitchId -> bool.









End StickyFacts.



(** **** Superseding *)





(** **** Disconnected *)

Lemma dom_ext (d1 d2 : Dom) :
  commandButtons d1 = commandButtons d2 ->
  driverSwitch d1 = driverSwitch d2 -> servoSwitch d1 = servoSwitch d2 ->
  driverGroup d1 = driverGroup d2 -> servoGroup d1 = servoGroup d2 ->
  loadingIcon d1 = loadingIcon d2 -> commandInput d1 = commandInput d2 ->
  cmdDisplay d1 = cmdDisplay d2 ->
  d1 = d2.
Proof. destruct d1, d2; cbn; intros; by subst. Qed.

Lemma toggle_buttons w0 s :
  isConnected (sm s) = true ->
  listeners_registered (dom s) = true ->
  commandButtons (dom (toggleSwitch w0 s))
  = set_btn_disabled true <$> commandButtons (dom s).
Proof. intros Hc Hl. crush_switch s w0. Qed.

Lemma toggle_switch_of w0 s w :
  isConnected (sm s) = true ->
  listeners_registered (dom s) = true ->
  switch_of w (dom (toggleSwitch w0 s))
  = (if same_switch w w0 then flip_checked else set_sw_disabled true)
      <$> switch_of w (dom s).
Proof. intros Hc Hl. destruct w0; crush_switch s w. Qed.

Lemma toggle_group_of w0 s w :
  isConnected (sm s) = true ->
  listeners_registered (dom s) = true ->
  group_of w (dom (toggleSwitch w0 s))
  = (if same_switch w w0 then set_grp_waiting_ack true else set_grp_disabled true)
      <$> group_of w (dom s).
Proof.
  intros Hc Hl. destruct w0; crush_switch s w.
  all: repeat match goal with
              | |- context [_ <$> ?o] => is_var o; destruct o as [[]|]; cbn
              end; done.
Qed.

Lemma switch_of_with_switch w w0 f d :
  switch_of w (with_switch w0 f d)
  = if same_switch w w0 then f <$> switch_of w d else switch_of w d.
Proof. by destruct w, w0. Qed.

Lemma group_of_with_switch w w0 f d :
  group_of w (with_switch w0 f d) = group_of w d.
Proof. by destruct w, w0. Qed.

(** C9, counterexample: a page with the driver switch only, disconnected.
    [init] found one switch missing and attached no 'change' handler, so a
    flip of the driver switch is not reverted. *)
Lemma lone_switch_flip_counterexample :
  let s := lone_switch_state false in
  let s' := issue (Toggle Driver) s in
  isConnected (sm s) = false
  /\ sw_checked <$> switch_of Driver (dom s) = Some false
  /\ sw_checked <$> switch_of Driver (dom s') = Some true
  /\ dom s' <> dom s.
Proof.
  cbv zeta. repeat split; try reflexivity. intros Heq.
  apply (f_equal (fun d => sw_checked <$> driverSwitch d)) in Heq.
  vm_compute in Heq. discriminate Heq.
Qed.

(** C9, as the code has it: while disconnected a click or a switch flip
    leaves the [stateManager] (so [currentCommand] and
    [waitingForAcknowledgment]) and the emitted events as they were, and
    changes the [disabled] flag of no button and no switch.  A click
    leaves the whole page as it was.  So does a flip on a page with both
    switches, where the handler inverts [checked] once more; on a page
    with one switch only nothing listens, and the page is as before but
    for the flipped switch, which stays in its new position. *)
Theorem disconnected_request_is_noop (s : State) (r : Request) :
  isConnected (sm s) = false ->
  sm (issue r s) = sm s
  /\ events (issue r s) = events s
  /\ commandButtons (dom (issue r s)) = commandButtons (dom s)
  /\ (forall w, sw_disabled <$> switch_of w (dom (issue r s))
                = sw_disabled <$> switch_of w (dom s))
  /\ dom (issue r s)
     = match r with
       | Click _ => dom s
       | Toggle w =>
           if listeners_registered (dom s) then dom s
           else with_switch w flip_checked (dom s)
       end.
Proof.
  intros Hc. destruct r as [i | w]; cbn [issue].
  - unfold handleCommandClick.
    destruct (_ !! i); [crush s; by repeat split | by repeat split].
  - split; [crush_switch s w |]. split; [crush_switch s w |].
    split; [crush_switch s w |].
    split; [intros w'; destruct w'; crush_switch s w |].
    destruct w; crush s; apply dom_ext; cbn; by rewrite ?negb_involutive.
Qed.

Lemma disconnected_request_is_noop_witness :
  let s := demo_state false in
  let r := Toggle Driver in
  sm (issue r s) = sm s
  /\ events (issue r s) = events s
  /\ commandButtons (dom (issue r s)) = commandButtons (dom s)
  /\ (forall w, sw_disabled <$> switch_of w (dom (issue r s))
                = sw_disabled <$> switch_of w (dom s))
  /\ dom (issue r s)
     = match r with
       | Click _ => dom s
       | Toggle w =>
           if listeners_registered (dom s) then dom s
           else with_switch w flip_checked (dom s)
       end.
Proof.
  apply (disconnected_request_is_noop (demo_state false) (Toggle Driver)).
  reflexivity.
Defined.

(** **** Controls disabled while a request is pending *)

Lemma issue_switch_mono r s w sw' :
  switch_of w (dom (issue r s)) = Some sw' ->
  exists sw, switch_of w (dom s) = Some sw
             /\ (sw_disabled sw = true -> sw_disabled sw' = true).
Proof.
  destruct r as [i | w0]; cbn.
  - unfold handleCommandClick. destruct (_ !! i); [| by eauto].
    destruct w; crush s; intros; simplify_eq/=; eauto.
  - destruct w0, w; crush s; intros; simplify_eq/=; eauto.
Qed.

(** A call that is no acknowledgment keeps a disabled button on the page
    and disabled. *)
Lemma ctl_step_button op s j :
  is_ack op = false ->
  btn_disabled <$> commandButtons (dom s) !! j <> Some false ->
  btn_disabled <$> commandButtons (dom (ctl_step op s)) !! j
  = btn_disabled <$> commandButtons (dom s) !! j.
Proof.
  intros Hop Hdis. destruct op as [[i | w] | | | | c]; cbn in *; try done.
  - destruct (commandButtons (dom s) !! i) as [btn|] eqn:Hi;
      [| by unfold handleCommandClick; rewrite Hi].
    destruct (isConnected (sm s)) eqn:Hc.
    + rewrite (click_buttons i s btn j Hc Hi).
      destruct (commandButtons (dom s) !! j) as [[? ? ? [|] ?]|]; try done.
      cbn. unfold clicked. by case_decide.
    + unfold handleCommandClick. rewrite Hi. by crush s.
  - revert Hdis. destruct w; crush s.
    all: rewrite ?list_lookup_fmap.
    all: by destruct (_ !! j) as [[? ? ? [|] ?]|].
  - by crush s.
  - by crush s.
  - destruct c; by crush s.
Qed.

(** A call that cannot enable a switch keeps a disabled switch on the page
    and disabled. *)
Lemma ctl_step_switch op s w :
  may_enable op = false ->
  sw_disabled <$> switch_of w (dom s) <> Some false ->
  sw_disabled <$> switch_of w (dom (ctl_step op s))
  = sw_disabled <$> switch_of w (dom s).
Proof.
  intros Hop. destruct op as [[i | w0] | | | | [|]]; cbn in *; try done.
  - unfold handleCommandClick. destruct (_ !! i); [| done].
    destruct w; crush s.
    all: match goal with
         | |- Some ?d <> _ -> _ => by destruct d
         | |- _ => idtac
         end.
  - destruct w0, w; crush s.
    all: match goal with
         | |- Some ?d <> _ -> _ => by destruct d
         | |- _ => idtac
         end.
  - destruct w; crush s.
    all: match goal with
         | |- Some ?d <> _ -> _ => by destruct d
         | |- _ => idtac
         end.
  - destruct w; crush s.
    all: match goal with
         | |- Some ?d <> _ -> _ => by destruct d
         | |- _ => idtac
         end.
Qed.

Lemma kept_disabled_not_enabled {A} (o : option A) (x : option bool) :
  x = (fun _ => true) <$> o -> x <> Some false.
Proof. intros ->. by destruct o. Qed.

Lemma buttons_stay_disabled d j ops : forall s,
  forallb (fun op => negb (is_ack op)) ops = true ->
  button_kept_disabled d j s -> button_kept_disabled d j (ctl_run ops s).
Proof.
  unfold button_kept_disabled.
  induction ops as [|op ops IH]; intros s Hops Hkept; [exact Hkept |].
  cbn in Hops. apply andb_true_iff in Hops as [Hop Hops].
  apply negb_true_iff in Hop.
  apply IH; [exact Hops |]. rewrite <- Hkept.
  apply ctl_step_button; [exact Hop |]. by eapply kept_disabled_not_enabled.
Qed.

Lemma switches_stay_disabled d w ops : forall s,
  forallb (fun op => negb (may_enable op)) ops = true ->
  switch_kept_disabled d w s -> switch_kept_disabled d w (ctl_run ops s).
Proof.
  unfold switch_kept_disabled.
  induction ops as [|op ops IH]; intros s Hops Hkept; [exact Hkept |].
  cbn in Hops. apply andb_true_iff in Hops as [Hop Hops].
  apply negb_true_iff in Hop.
  apply IH; [exact Hops |]. rewrite <- Hkept.
  apply ctl_step_switch; [exact Hop |]. by eapply kept_disabled_not_enabled.
Qed.

Lemma issue_disables_buttons r s id j :
  isConnected (sm s) = true ->
  request_id r s = Some id ->
  conflicting_button r j = true ->
  button_kept_disabled (dom s) j (issue r s).
Proof.
  intros Hc Hid Hj. unfold button_kept_disabled.
  destruct r as [i | w]; cbn in *.
  - destruct (commandButtons (dom s) !! i) as [btn|] eqn:Hi; [| done].
    rewrite (click_buttons i s btn j Hc Hi).
    destruct (commandButtons (dom s) !! j) as [b|]; [| done]. cbn.
    unfold clicked. apply bool_decide_eq_true in Hj. by rewrite decide_False.
  - destruct (listeners_registered (dom s)) eqn:Hl; [| done].
    rewrite toggle_buttons, list_lookup_fmap by done.
    by destruct (commandButtons (dom s) !! j).
Qed.

Lemma issue_disables_switches r s id w :
  isConnected (sm s) = true ->
  request_id r s = Some id ->
  conflicting_switch r (dom s) w = true ->
  switch_kept_disabled (dom s) w (issue r s).
Proof.
  intros Hc Hid Hw. unfold switch_kept_disabled.
  destruct r as [i | w0]; cbn in *.
  - destruct (commandButtons (dom s) !! i) as [btn|] eqn:Hi; [| done].
    rewrite (click_switch_of i s btn w Hc Hw Hi).
    by destruct (switch_of w (dom s)).
  - destruct (listeners_registered (dom s)) eqn:Hl; [| done].
    rewrite toggle_switch_of by done. apply negb_true_iff in Hw. rewrite Hw.
    by destruct (switch_of w (dom s)).
Qed.

(** C5, counterexample, in three parts.  Flipping the driver switch while
    connected makes its ON command Pending, yet the driver switch itself
    is not disabled.  After a click has made command 5 Pending and
    disabled both switches, [handleConnectionStatus(true)] enables both
    again while the request is still Pending.  On a page with the driver
    switch only, a click makes command 5 Pending and leaves that switch
    enabled. *)
Lemma conflicting_controls_counterexample :
  let s1 := issue (Toggle Driver) (demo_state true) in
  let s2 := handleCommandClick 0 (demo_state true) in
  let s3 := handleConnectionStatus true s2 in
  let s4 := issue (Click 0) (lone_switch_state true) in
  (Pending 20 s1 /\ sw_disabled <$> switch_of Driver (dom s1) = Some false)
  /\ (Pending 5 s2
      /\ sw_disabled <$> switch_of Driver (dom s2) = Some true
      /\ sw_disabled <$> switch_of Servo (dom s2) = Some true
      /\ Pending 5 s3
      /\ sw_disabled <$> switch_of Driver (dom s3) = Some false
      /\ sw_disabled <$> switch_of Servo (dom s3) = Some false)
  /\ (Pending 5 s4 /\ sw_disabled <$> switch_of Driver (dom s4) = Some false).
Proof. cbv zeta. repeat split; reflexivity. Qed.

(** C5, as the code has it: a request made while connected is Pending on
    its id, which the int-9 input shows.  A button click disables every
    other command button and, on a page with both power switches, both
    switches; a switch flip disables every command button and the other
    switch, and leaves the [disabled] flag of the flipped switch as it
    was.  Each of those buttons is still on the page and disabled after
    any calls that follow, as long as none is an acknowledgment; each of
    those switches is still on the page and disabled after any calls that
    follow, as long as none is an acknowledgment, [enableAll] or
    [handleConnectionStatus(true)]. *)
Theorem issue_disables_conflicting_controls (s : State) (r : Request) (id : Z) :
  isConnected (sm s) = true ->
  request_id r s = Some id ->
  let s1 := issue r s in
  Pending id s1
  /\ commandInput (dom s1) = (fun _ => pretty id) <$> commandInput (dom s)
  /\ (forall ops j,
        forallb (fun op => negb (is_ack op)) ops = true ->
        conflicting_button r j = true ->
        button_kept_disabled (dom s) j (ctl_run ops s1))
  /\ (forall ops w,
        forallb (fun op => negb (may_enable op)) ops = true ->
        conflicting_switch r (dom s) w = true ->
        switch_kept_disabled (dom s) w (ctl_run ops s1))
  /\ (forall w, r = Toggle w ->
        sw_disabled <$> switch_of w (dom s1) = sw_disabled <$> switch_of w (dom s)).
Proof.
  intros Hc Hid s1. subst s1.
  split; [by apply issue_pending |].
  split; [by apply issue_commandInput |].
  split; [| split].
  - intros ops j Hops Hj. apply buttons_stay_disabled; [exact Hops |].
    by eapply issue_disables_buttons.
  - intros ops w Hops Hw. apply switches_stay_disabled; [exact Hops |].
    by eapply issue_disables_switches.
  - intros w ->. cbn [issue]. crush_switch s w.
Qed.

Lemma issue_disables_conflicting_controls_witness :
  let s := demo_state true in
  let r := Toggle Servo in
  let s1 := issue r s in
  Pending 22 s1
  /\ commandInput (dom s1) = (fun _ => pretty 22%Z) <$> commandInput (dom s)
  /\ (forall ops j,
        forallb (fun op => negb (is_ack op)) ops = true ->
        conflicting_button r j = true ->
        button_kept_disabled (dom s) j (ctl_run ops s1))
  /\ (forall ops w,
        forallb (fun op => negb (may_enable op)) ops = true ->
        conflicting_switch r (dom s) w = true ->
        switch_kept_disabled (dom s) w (ctl_run ops s1))
  /\ (forall w, r = Toggle w ->
        sw_disabled <$> switch_of w (dom s1) = sw_disabled <$> switch_of w (dom s)).
Proof.
  apply (issue_disables_conflicting_controls (demo_state true) (Toggle Servo) 22);
    reflexivity.
Defined.

(** **** Power switches and the connection *)

Lemma enableAll_sm s : sm (enableAll s) = sm s.
Proof. crush s. Qed.

Lemma disableAll_sm s : sm (disableAll s) = sm s.
Proof. crush s. Qed.

Lemma enableAll_disconnected s :
  isConnected (sm s) = false -> enableAll s = s.
Proof.
  intros Hc. crush s.
Qed.

Lemma disableAll_disables s w sw :
  switch_of w (dom (disableAll s)) = Some sw -> sw_disabled sw = true.
Proof.
  crush_switch s w.
Qed.

Lemma enableAll_switch_of s w :
  switch_of w (dom (enableAll s))
  = enabled_if (isConnected (sm s)) <$> switch_of w (dom s).
Proof. crush_switch s w. Qed.

Lemma disableAll_switch_of s w :
  switch_of w (dom (disableAll s)) = set_sw_disabled true <$> switch_of w (dom s).
Proof. crush_switch s w. Qed.

Lemma ps_step_invariant op s :
  disconnected_disabled s -> disconnected_disabled (ps_step op s).
Proof.
  intros Hinv. destruct op as [| |c|c]; cbn.
  - intros Hc. rewrite enableAll_sm in Hc.
    rewrite (enableAll_disconnected s Hc). by apply Hinv.
  - intros _ w sw. apply disableAll_disables.
  - destruct c; cbn.
    + intros Hc. rewrite enableAll_sm in Hc.
      rewrite (enableAll_disconnected s Hc). by apply Hinv.
    + intros _ w sw. apply disableAll_disables.
  - unfold connectionStatusUpdate. destruct c; cbn.
    + intros Hc. rewrite enableAll_sm in Hc. discriminate Hc.
    + intros _ w sw. apply disableAll_disables.
Qed.

Lemma ps_step_settles op s :
  settles op = true -> disconnected_disabled (ps_step op s).
Proof.
  destruct op as [| |[|]|[|]]; cbn; try done; intros _.
  - intros _ w sw. apply disableAll_disables.
  - intros _ w sw. apply disableAll_disables.
  - unfold connectionStatusUpdate. cbn.
    intros Hc. rewrite enableAll_sm in Hc. discriminate Hc.
  - unfold connectionStatusUpdate. cbn. intros _ w sw. apply disableAll_disables.
Qed.

(** The power-switch calls change nothing of a switch but its [disabled]
    flag. *)
Lemma ps_step_frame op s w :
  set_sw_disabled true <$> switch_of w (dom (ps_step op s))
  = set_sw_disabled true <$> switch_of w (dom s).
Proof.
  destruct op as [| |[|]|[|]]; cbn; unfold connectionStatusUpdate; cbn.
  all: rewrite ?enableAll_switch_of, ?disableAll_switch_of; cbn.
  all: destruct (switch_of w (dom s)) as [[]|]; try done.
  all: destruct (isConnected (sm s)); done.
Qed.

Lemma ps_run_frame ops : forall s w,
  set_sw_disabled true <$> switch_of w (dom (ps_run ops s))
  = set_sw_disabled true <$> switch_of w (dom s).
Proof.
  induction ops as [|op ops IH]; intros s w; [done |].
  change (ps_run (op :: ops) s) with (ps_run ops (ps_step op s)).
  by rewrite IH, ps_step_frame.
Qed.

Lemma ps_run_invariant ops : forall s,
  disconnected_disabled s \/ Exists (fun op => settles op = true) ops ->
  disconnected_disabled (ps_run ops s).
Proof.
  induction ops as [|op ops IH]; intros s [Hinv | Hex].
  - exact Hinv.
  - by apply Exists_nil in Hex.
  - apply IH. left. by apply ps_step_invariant.
  - apply IH. apply Exists_cons in Hex as [Hop | Hex]; [| by right].
    left. by apply ps_step_settles.
Qed.

(** C10, counterexample: a window that is disconnected and whose switches
    are enabled, as a page shows them unless something disables them.
    [enableAll] and [handleConnectionStatus(true)] lead to a state that
    is still disconnected with the driver switch still enabled. *)
Lemma enabled_while_disconnected_counterexample :
  let s := ps_run [OpEnableAll; OpConnectionStatus true] (demo_state false) in
  isConnected (sm s) = false
  /\ sw_disabled <$> switch_of Driver (dom s) = Some false
  /\ ~ disconnected_disabled s.
Proof.
  cbv zeta. split; [reflexivity |]. split; [reflexivity |].
  intros Hinv. specialize (Hinv eq_refl Driver _ eq_refl). discriminate Hinv.
Qed.

(** C10, as the code has it: in a state reached through [enableAll],
    [disableAll], [handleConnectionStatus] and connection updates, from a
    state where "disconnected implies disabled" held or by calls one of
    which was [disableAll], [handleConnectionStatus(false)] or a
    connection update: if [isConnected] is false then every switch the
    page started with is still there, disabled, and otherwise as it was.
    [enableAll] enables the switches exactly when [isConnected] is true
    and leaves them alone otherwise, and [handleConnectionStatus(false)]
    disables every switch. *)
Theorem disconnected_switches_disabled (s : State) (ops : list PsOp) :
  disconnected_disabled s \/ Exists (fun op => settles op = true) ops ->
  (isConnected (sm (ps_run ops s)) = false ->
   forall w, switch_of w (dom (ps_run ops s))
             = set_sw_disabled true <$> switch_of w (dom s))
  /\ (forall s' w,
        switch_of w (dom (enableAll s'))
        = enabled_if (isConnected (sm s')) <$> switch_of w (dom s'))
  /\ (forall s' w,
        switch_of w (dom (handleConnectionStatus false s'))
        = set_sw_disabled true <$> switch_of w (dom s')).
Proof.
  intros Hstart. split; [| split].
  - intros Hc w. pose proof (ps_run_invariant ops s Hstart Hc w) as Hdis.
    pose proof (ps_run_frame ops s w) as Hframe.
    destruct (switch_of w (dom (ps_run ops s))) as [[c d on off nm]|];
      destruct (switch_of w (dom s)) as [[c0 d0 on0 off0 nm0]|];
      cbn in *; try done.
    specialize (Hdis _ eq_refl). cbn in Hdis. subst d.
    by inversion Hframe.
  - intros s' w. apply enableAll_switch_of.
  - intros s' w. apply disableAll_switch_of.
Qed.

Lemma disconnected_switches_disabled_witness :
  let s := demo_state false in
  let ops := [OpEnableAll; OpConnectionStatus false; OpEnableAll;
              OpConnectionStatus true] in
  (isConnected (sm (ps_run ops s)) = false ->
   forall w, switch_of w (dom (ps_run ops s))
             = set_sw_disabled true <$> switch_of w (dom s))
  /\ (forall s' w,
        switch_of w (dom (enableAll s'))
        = enabled_if (isConnected (sm s')) <$> switch_of w (dom s'))
  /\ (forall s' w,
        switch_of w (dom (handleConnectionStatus false s'))
        = set_sw_disabled true <$> switch_of w (dom s')).
Proof.
  apply (disconnected_switches_disabled (demo_state false)
           [OpEnableAll; OpConnectionStatus false; OpEnableAll;
            OpConnectionStatus true]).
  right. vm_compute. apply Exists_cons_tl, Exists_cons_hd. reflexivity.
Defined.

(** *** Further properties of the two managers *)

Lemma ctl_run_preserves (P : State -> Prop) :
  (forall op s, P s -> P (ctl_step op s)) ->
  forall ops s, P s -> P (ctl_run ops s).
Proof.
  intros Hstep ops. induction ops as [|op ops IH]; intros s Hs; [exact Hs |].
  apply IH, Hstep, Hs.
Qed.

Lemma ack_isConnected s :
  isConnected (sm (handleAcknowledgment s)) = isConnected (sm s).
Proof. by rewrite ack_sm. Qed.

Lemma ack_switch_disconnected s w :
  isConnected (sm s) = false ->
  switch_of w (dom (handleAcknowledgment s)) = switch_of w (dom s).
Proof. intros Hc. crush_switch s w. Qed.

Lemma ctl_step_isConnected op s :
  isConnected (sm (ctl_step op s)) = isConnected (sm s).
Proof.
  destruct op as [r | | | | c]; cbn.
  - apply issue_isConnected.
  - apply ack_isConnected.
  - by rewrite enableAll_sm.
  - by rewrite disableAll_sm.
  - destruct c; cbn; by rewrite ?enableAll_sm, ?disableAll_sm.
Qed.

Lemma ctl_step_disconnected_disabled op s :
  disconnected_disabled s -> disconnected_disabled (ctl_step op s).
Proof.
  destruct op as [r | | | | c]; cbn.
  - intros Hinv Hc w sw' Hsw'. rewrite issue_isConnected in Hc.
    destruct (issue_switch_mono r s w sw' Hsw') as (sw & Hsw & Hmono).
    eapply Hmono, Hinv; eauto.
  - intros Hinv Hc w sw. rewrite ack_isConnected in Hc.
    rewrite ack_switch_disconnected by done. by apply Hinv.
  - apply (ps_step_invariant OpEnableAll).
  - apply (ps_step_invariant OpDisableAll).
  - apply (ps_step_invariant (OpConnectionStatus c)).
Qed.

(** X2: While the [stateManager] says disconnected, no sequence of requests,
    acknowledgments, [enableAll], [disableAll] and [handleConnectionStatus]
    calls enables a power switch: none of them changes [isConnected], and
    switches that were all disabled stay so. *)
Theorem switches_disabled_while_disconnected (ops : list CtlOp) (s : State) :
  isConnected (sm s) = false ->
  (forall w sw, switch_of w (dom s) = Some sw -> sw_disabled sw = true) ->
  isConnected (sm (ctl_run ops s)) = false
  /\ (forall w sw, switch_of w (dom (ctl_run ops s)) = Some sw ->
        sw_disabled sw = true).
Proof.
  intros Hc Hdis.
  assert (Hconn : isConnected (sm (ctl_run ops s)) = false).
  { apply (ctl_run_preserves (fun s => isConnected (sm s) = false)); [| done].
    intros op s' Hs'. by rewrite ctl_step_isConnected. }
  split; [exact Hconn |].
  apply (ctl_run_preserves disconnected_disabled ctl_step_disconnected_disabled ops s);
    [by intros _ | exact Hconn].
Qed.

Lemma switches_disabled_while_disconnected_witness :
  let s := disableAll (demo_state false) in
  let ops := [DoIssue (Toggle Driver); DoAck; DoConnectionStatus true;
              DoIssue (Click 0); DoEnableAll; DoAck] in
  isConnected (sm (ctl_run ops s)) = false
  /\ (forall w sw, switch_of w (dom (ctl_run ops s)) = Some sw ->
        sw_disabled sw = true).
Proof.
  apply (switches_disabled_while_disconnected _ (disableAll (demo_state false))).
  - reflexivity.
  - intros [|] sw Hsw; vm_compute in Hsw; inversion Hsw; reflexivity.
Defined.

Ltac mirror_tac Hcmd Hicon :=
  repeat match goal with
         | |- context [_ <$> ?o] => is_var o; destruct o; cbn -[pretty String.append]
         end;
  split; intros ? ?; simplify_eq/=; try done;
  try (by apply Hcmd); try (by apply Hicon).

Lemma ctl_step_ui_mirrors op s :
  ui_mirrors s -> ui_mirrors (ctl_step op s).
Proof.
  unfold ui_mirrors.
  destruct op as [[i | w] | | | | c]; cbn; intros [Hcmd Hicon].
  - unfold handleCommandClick. destruct (_ !! i); [| done].
    crush s; mirror_tac Hcmd Hicon.
  - destruct w; crush s; try case_match; mirror_tac Hcmd Hicon.
  - crush s; mirror_tac Hcmd Hicon.
  - crush s; mirror_tac Hcmd Hicon.
  - crush s; mirror_tac Hcmd Hicon.
  - destruct c; crush s; mirror_tac Hcmd Hicon.
Qed.

(** X3: Through any sequence of requests, acknowledgments and power-switch
    calls the int-9 input keeps showing [currentCommand] and the loading
    icon keeps showing [waitingForAcknowledgment]. *)
Theorem ui_keeps_mirroring (ops : list CtlOp) (s : State) :
  ui_mirrors s -> ui_mirrors (ctl_run ops s).
Proof.
  apply ctl_run_preserves. intros op s'. apply ctl_step_ui_mirrors.
Qed.

Lemma ui_keeps_mirroring_witness :
  ui_mirrors
    (ctl_run [DoIssue (Click 1); DoIssue (Toggle Driver); DoAck;
              DoConnectionStatus false; DoIssue (Click 0)]
       (demo_state true)).
Proof.
  apply ui_keeps_mirroring.
  split; intros v Hv; vm_compute in Hv; inversion Hv; reflexivity.
Defined.

(** X4: After a click made while connected the clicked button, and no other,
    carries 'active-command', whatever was highlighted before. *)
Theorem click_highlights_only_clicked (s : State) (i j : nat) (b : Button) :
  isConnected (sm s) = true ->
  is_Some (commandButtons (dom s) !! i) ->
  commandButtons (dom (handleCommandClick i s)) !! j = Some b ->
  (btn_active b = true <-> j = i).
Proof.
  intros Hc [btn Hbtn]. revert j b. unfold handleCommandClick. rewrite Hbtn.
  intros j b. crush s.
  all: rewrite click_buttons_lookup; unfold clicked.
  all: destruct (_ !! j); cbn; [| done].
  all: intros; case_decide; simplify_eq/=; done.
Qed.

Lemma click_highlights_only_clicked_witness :
  btn_active {| btn_cmd := 12; btn_dataset_name := Some "X+";
                btn_textContent := "X+"; btn_disabled := true;
                btn_active := false |} = true
  <-> 1 = 2.
Proof.
  apply (click_highlights_only_clicked
           (handleCommandClick 1 (demo_state true)) 2 1
           {| btn_cmd := 12; btn_dataset_name := Some "X+";
              btn_textContent := "X+"; btn_disabled := true;
              btn_active := false |}).
  - reflexivity.
  - vm_compute. eauto.
  - vm_compute. reflexivity.
Defined.

Lemma dom_ext_by_switch (d1 d2 : Dom) :
  commandButtons d1 = commandButtons d2 ->
  (forall w, switch_of w d1 = switch_of w d2) ->
  (forall w, group_of w d1 = group_of w d2) ->
  loadingIcon d1 = loadingIcon d2 -> commandInput d1 = commandInput d2 ->
  cmdDisplay d1 = cmdDisplay d2 ->
  d1 = d2.
Proof.
  intros Hb Hs Hg ? ? ?.
  apply dom_ext; try done;
    [apply (Hs Driver) | apply (Hs Servo) | apply (Hg Driver) | apply (Hg Servo)].
Qed.

(** X5: Handling an acknowledgment a second time changes neither the
    [stateManager] nor the page. *)
Theorem ack_idempotent (s : State) :
  sm (handleAcknowledgment (handleAcknowledgment s)) = sm (handleAcknowledgment s)
  /\ dom (handleAcknowledgment (handleAcknowledgment s))
     = dom (handleAcknowledgment s).
Proof.
  split; [by rewrite !ack_sm |].
  apply dom_ext_by_switch.
  - rewrite (ack_buttons (handleAcknowledgment s)), ack_buttons.
    rewrite <- !list_fmap_compose. apply list_fmap_ext. by intros ? [] ?.
  - intros w. rewrite (ack_switch_of (handleAcknowledgment s)), ack_listeners,
      ack_isConnected, ack_switch_of.
    destruct (switch_of w (dom s)) as [[]|]; [| done].
    by destruct (listeners_registered (dom s) && isConnected (sm s)).
  - intros w. rewrite (ack_group_of (handleAcknowledgment s)), ack_listeners,
      ack_isConnected, ack_group_of.
    destruct (group_of w (dom s)) as [[]|]; [| done].
    by destruct (listeners_registered (dom s) && isConnected (sm s)).
  - rewrite (ack_loadingIcon (handleAcknowledgment s)), ack_loadingIcon.
    by destruct (loadingIcon (dom s)).
  - rewrite (ack_commandInput (handleAcknowledgment s)), ack_commandInput.
    by destruct (commandInput (dom s)).
  - rewrite (ack_cmdDisplay (handleAcknowledgment s)), ack_cmdDisplay.
    by destruct (cmdDisplay (dom s)).
Qed.

(** **** A request and its acknowledgment, on a page at rest *)

Ltac case_options :=
  repeat match goal with
         | |- context [_ <$> ?o] => is_var o; destruct o; cbn -[pretty String.append]
         end.

Section AtRest.

Variable s : State.
Hypothesis Hrest : at_rest (dom s).

Lemma rest_button (f : Button -> Button) j :
  (forall b, set_btn_disabled false (set_btn_active false (f b))
             = set_btn_disabled false (set_btn_active false b)) ->
  set_btn_disabled false <$> (set_btn_active false <$>
    (f <$> commandButtons (dom s) !! j))
  = commandButtons (dom s) !! j.
Proof.
  intros Hf. destruct Hrest as (Hbs & _).
  destruct (commandButtons (dom s) !! j) as [b|] eqn:Hj; [| done].
  cbn. rewrite Hf. f_equal. rewrite Forall_forall in Hbs.
  destruct (Hbs b) as [Ha Hd]; [by eapply list_elem_of_lookup_2 |].
  destruct b. cbn in *. by subst.
Qed.

Lemma rest_switch (f g : Switch -> Switch) w :
  (forall c on off nm,
     let sw := {| sw_checked := c; sw_disabled := false; sw_cmdOn := on;
                  sw_cmdOff := off; sw_dataset_name := nm |} in
     set_sw_disabled false (f sw) = g sw) ->
  enabled_if true <$> (f <$> switch_of w (dom s))
  = g <$> switch_of w (dom s).
Proof.
  intros Hfg. destruct Hrest as (_ & Hsw & _).
  destruct (switch_of w (dom s)) as [[c d on off nm]|] eqn:Hw; [| done].
  specialize (Hsw _ _ Hw). cbn in Hsw. subst d. cbn. f_equal. apply Hfg.
Qed.

Lemma rest_group (f : Group -> Group) w :
  unmarked_if true <$> (f <$> group_of w (dom s)) = group_of w (dom s).
Proof.
  destruct Hrest as (_ & _ & Hgrp & _).
  destruct (group_of w (dom s)) as [g|] eqn:Hw; [| done].
  cbn. f_equal. destruct (Hgrp _ _ Hw) as [Hd Ha]. destruct g. cbn in *.
  by subst.
Qed.

Lemma rest_text (o : option string) (v : string) :
  (forall x, o = Some x -> x = v) -> (fun _ => v) <$> o = o.
Proof. intros H. destruct o as [x|]; [| done]. cbn. f_equal. symmetry. by apply H. Qed.

Lemma rest_button_id j :
  set_btn_disabled false <$> (set_btn_active false <$> commandButtons (dom s) !! j)
  = commandButtons (dom s) !! j.
Proof.
  pose proof (rest_button id j (fun _ => eq_refl)) as H.
  by rewrite option_fmap_id in H.
Qed.

Lemma rest_switch_id w :
  enabled_if true <$> switch_of w (dom s) = switch_of w (dom s).
Proof.
  pose proof (rest_switch id id w (fun _ _ _ _ => eq_refl)) as H.
  by rewrite !option_fmap_id in H.
Qed.

Lemma rest_switch_back (f : Switch -> Switch) w :
  (forall c on off nm,
     let sw := {| sw_checked := c; sw_disabled := false; sw_cmdOn := on;
                  sw_cmdOff := off; sw_dataset_name := nm |} in
     set_sw_disabled false (f sw) = sw) ->
  enabled_if true <$> (f <$> switch_of w (dom s)) = switch_of w (dom s).
Proof.
  intros Hf. rewrite (rest_switch f id w Hf). apply option_fmap_id.
Qed.

Lemma rest_group_id w :
  unmarked_if true <$> group_of w (dom s) = group_of w (dom s).
Proof.
  pose proof (rest_group id w) as H. by rewrite option_fmap_id in H.
Qed.

End AtRest.

Lemma issue_loadingIcon r s :
  (fun _ => "none") <$> loadingIcon (dom (issue r s))
  = (fun _ => "none") <$> loadingIcon (dom s).
Proof.
  destruct r as [i | w]; cbn.
  - unfold handleCommandClick. destruct (_ !! i); [| done].
    crush s; by case_options.
  - destruct w; crush s; by case_options.
Qed.

Lemma issue_commandInput_reset r s :
  (fun _ => "0") <$> commandInput (dom (issue r s))
  = (fun _ => "0") <$> commandInput (dom s).
Proof.
  destruct r as [i | w]; cbn.
  - unfold handleCommandClick. destruct (_ !! i); [| done].
    crush s; by case_options.
  - destruct w; crush s; try case_match; by case_options.
Qed.

Lemma issue_cmdDisplay_reset r s :
  (fun _ => "0 - None") <$> cmdDisplay (dom (issue r s))
  = (fun _ => "0 - None") <$> cmdDisplay (dom s).
Proof.
  destruct r as [i | w]; cbn.
  - unfold handleCommandClick. destruct (_ !! i); [| done].
    crush s; by case_options.
  - destruct w; crush s; try case_match; by case_options.
Qed.

(** X6: A click followed by its acknowledgment gives the page back as it was;
    a switch flip followed by its acknowledgment gives it back with that
    switch in its new position and nothing else changed. *)
Theorem request_then_ack_restores_page (s : State) (r : Request) :
  isConnected (sm s) = true ->
  listeners_registered (dom s) = true ->
  at_rest (dom s) ->
  dom (handleAcknowledgment (issue r s))
  = match r with
    | Click _ => dom s
    | Toggle w => with_switch w flip_checked (dom s)
    end.
Proof.
  intros Hc Hl Hrest.
  assert (Hc1 : isConnected (sm (issue r s)) = true) by (by rewrite issue_isConnected).
  assert (Hl1 : listeners_registered (dom (issue r s)) = true)
    by (by rewrite issue_listeners).
  assert (Htexts :
    loadingIcon (dom (handleAcknowledgment (issue r s))) = loadingIcon (dom s)
    /\ commandInput (dom (handleAcknowledgment (issue r s))) = commandInput (dom s)
    /\ cmdDisplay (dom (handleAcknowledgment (issue r s))) = cmdDisplay (dom s)).
  { destruct Hrest as (_ & _ & _ & Hicon & Hinput & Hdisplay).
    rewrite ack_loadingIcon, ack_commandInput, ack_cmdDisplay,
      issue_loadingIcon, issue_commandInput_reset, issue_cmdDisplay_reset.
    by rewrite !rest_text. }
  destruct Htexts as (Hi1 & Hi2 & Hi3).
  destruct r as [i | w0].
  - apply dom_ext_by_switch; try done.
    + rewrite ack_buttons. apply list_eq. intros j. rewrite !list_lookup_fmap.
      cbn [issue]. destruct (commandButtons (dom s) !! i) as [btn|] eqn:Hi.
      * rewrite (click_buttons i s btn j Hc Hi). apply rest_button; [done |].
        intros b. unfold clicked. by case_decide.
      * unfold handleCommandClick. rewrite Hi. by apply rest_button_id.
    + intros w. rewrite ack_switch_of, Hl1, Hc1. cbn [andb issue].
      destruct (commandButtons (dom s) !! i) as [btn|] eqn:Hi.
      * rewrite (click_switch_of i s btn w Hc Hl Hi). by apply rest_switch_back.
      * unfold handleCommandClick. rewrite Hi. by apply rest_switch_id.
    + intros w. rewrite ack_group_of, Hl1, Hc1. cbn [andb issue].
      destruct (commandButtons (dom s) !! i) as [btn|] eqn:Hi.
      * rewrite (click_group_of i s btn w Hc Hl Hi). by apply rest_group.
      * unfold handleCommandClick. rewrite Hi. by apply rest_group_id.
  - apply dom_ext_by_switch; try done.
    + rewrite ack_buttons. apply list_eq. intros j. rewrite !list_lookup_fmap.
      cbn [issue]. rewrite toggle_buttons, list_lookup_fmap by done.
      by apply rest_button.
    + intros w. rewrite ack_switch_of, Hl1, Hc1. cbn [andb issue].
      rewrite toggle_switch_of, switch_of_with_switch by done.
      destruct (same_switch w w0);
        [by apply (rest_switch s Hrest) | by apply (rest_switch_back s Hrest)].
    + intros w. rewrite ack_group_of, Hl1, Hc1. cbn [andb issue].
      rewrite toggle_group_of, group_of_with_switch by done. by apply rest_group.
Qed.

Lemma request_then_ack_restores_page_witness :
  dom (handleAcknowledgment (issue (Toggle Driver) (demo_state true)))
  = with_switch Driver flip_checked (dom (demo_state true)).
Proof.
  apply (request_then_ack_restores_page (demo_state true) (Toggle Driver));
    [reflexivity | reflexivity |].
  unfold at_rest. split; [repeat constructor | split; [| split]].
  - intros [|] sw Hsw; vm_compute in Hsw; inversion Hsw; reflexivity.
  - intros [|] g Hg; vm_compute in Hg; inversion Hg; split; reflexivity.
  - repeat split; intros v Hv; vm_compute in Hv; inversion Hv; reflexivity.
Defined.

End Controls.

(* ===================================================================== *)
(** ** Connection manager (connection/connection-manager.js) *)
(* ===================================================================== *)

Module Connection.

(** *** JavaScript values of the settings object *)

(** A numeric property: a number, [NaN] (what [parseInt] gives on a blank
    field) or missing. *)
Inductive jsnum := Num (n : Z) | NaN | NoNum.

(** A string property, [None] when missing. *)
Abbreviation jsstr := (option string).

Definition truthy_num (x : jsnum) : bool :=
  match x with Num n => negb (n =? 0)%Z | NaN | NoNum => false end.

Definition truthy_str (x : jsstr) : bool :=
  match x with Some s => negb (String.eqb s "") | None => false end.

(** [x > 0]; [NaN] and [undefined] compare false. *)
Definition gt_zero (x : jsnum) : bool :=
  match x with Num n => (0 <? n)%Z | NaN | NoNum => false end.

Definition show_num (x : jsnum) : string :=
  match x with Num n => pretty n | NaN => "NaN" | NoNum => "undefined" end.

Definition show_str (x : jsstr) : string := default "undefined" x.

Record Settings := {
  host : jsstr; port : jsnum; clientPort : jsnum;
  listeningPort : jsnum; targetHost : jsstr; targetPort : jsnum
}.

(** What the main process answers to a connect request. *)
Record Result := { success : bool; message : string }.

(** A thrown value, which is also what a rejected promise carries: [null],
    [undefined], or any other value, of which the handlers read the
    [message] property only ([None] when the value has none). *)
Inductive JsError :=
| JsNull
| JsUndefined
| ErrorValue (error_message : jsstr).

(** [new Error(msg)], and the errors the engine itself throws. *)
Definition new_Error (msg : string) : JsError := ErrorValue (Some msg).

Inductive Outcome (A : Type) :=
| Returned (a : A)
| Thrown (e : JsError).
Arguments Returned {A} a.
Arguments Thrown {A} e.

(** The two IPC calls [connect] makes on the bridge object: each promise
    either resolves with a result or rejects.  A method the bridge does not
    expose is [None]. *)
Record ElectronAPI := {
  tcpConnect : option (jsstr -> jsnum -> jsnum -> Outcome Result);
  udpConnect : option (jsnum -> jsstr -> jsnum -> Outcome Result)
}.

(** The bridge of preload.js exposes [connect], [disconnect], [send] and
    [sendCommand], but neither [tcpConnect] nor [udpConnect]. *)
Definition preload_bridge : ElectronAPI :=
  {| tcpConnect := None; udpConnect := None |}.

Inductive Event :=
| CONNECTION_STATUS (connected : bool)
| CONNECTION_ERROR (error : string).

Record LogEntry := { log_type : string; log_message : string }.

(** What a call leaves behind: log lines and emitted events, oldest first. *)
Record World := { log : list LogEntry; events : list Event }.

(** *** Computations that may throw *)

Definition M (A : Type) : Type := World -> Outcome A * World.

Definition ret {A} (a : A) : M A := fun w => (Returned a, w).

Definition throw {A} (msg : string) : M A :=
  fun w => (Thrown (new_Error msg), w).

Definition bind {A B} (m : M A) (k : A -> M B) : M B :=
  fun w => match m w with
           | (Returned a, w') => k a w'
           | (Thrown e, w') => (Thrown e, w')
           end.

(** [try { body } catch (error) { handler }] *)
Definition try_catch {A} (body : M A) (handler : JsError -> M A) : M A :=
  fun w => match body w with
           | (Returned a, w') => (Returned a, w')
           | (Thrown e, w') => handler e w'
           end.

(** [await promise]: the value it resolves with, or its rejection thrown. *)
Definition await {A} (promise : Outcome A) : M A :=
  fun w => (promise, w).

Local Notation "x <- m ;; k" := (bind m (fun x => k))
  (at level 100, m at next level, right associativity).
Local Notation "m ;; k" := (bind m (fun _ => k))
  (at level 100, right associativity).

Definition logger (type msg : string) : M unit :=
  fun w => (Returned tt,
            {| log := log w ++ [{| log_type := type; log_message := msg |}];
               events := events w |}).

Definition emit (ev : Event) : M unit :=
  fun w => (Returned tt, {| log := log w; events := events w ++ [ev] |}).

Definition when (b : bool) (m : M unit) : M unit := if b then m else ret tt.

(** Calling a method: [undefined(...)] is a TypeError. *)
Definition not_a_function : JsError := new_Error "is not a function".

(** [error.message]: reading a property of [null] or [undefined] is a
    TypeError. *)
Definition message_of (error : JsError) : Outcome jsstr :=
  match error with
  | JsNull =>
      Thrown (new_Error "Cannot read properties of null (reading 'message')")
  | JsUndefined =>
      Thrown (new_Error "Cannot read properties of undefined (reading 'message')")
  | ErrorValue m => Returned m
  end.

Definition read_message (error : JsError) : M jsstr :=
  fun w => (message_of error, w).

Definition invoke {A} (method : option A) (call : A -> Outcome Result)
  : Outcome Result :=
  match method with
  | Some f => call f
  | None => Thrown not_a_function
  end.

Section ConnectionManager.

(** [stateManager.get('currentProtocol')] and [this.electronAPI] ([None]
    before [init]). *)
Variable currentProtocol : string.
Variable electronAPI : option ElectronAPI.

(** Reading a method off [this.electronAPI]. *)
Definition api : M ElectronAPI :=
  match electronAPI with
  | Some a => ret a
  | None => throw "Cannot read properties of null"
  end.

(** Destructuring [settings]; [None] is a call without an object. *)
Definition destructure (settings : option Settings) : M Settings :=
  match settings with
  | Some st => ret st
  | None => throw "Cannot destructure 'settings' as it is undefined."
  end.

Definition connectTCP (settings : option Settings) : M Result :=
  st <- destructure settings ;;
  if negb (truthy_str (host st)) || negb (truthy_num (port st)) then
    throw "Invalid TCP host or port"
  else
    let clientPortMsg :=
      if gt_zero (clientPort st)
      then " (client port: " +:+ show_num (clientPort st) +:+ ")" else "" in
    logger "info" ("Connecting to TCP " +:+ show_str (host st) +:+ ":" +:+
                   show_num (port st) +:+ clientPortMsg +:+ "...") ;;
    a <- api ;;
    result <- await (invoke (tcpConnect a)
                       (fun f => f (host st) (port st) (clientPort st))) ;;
    when (success result)
      (logger "success" ("Connected to TCP " +:+ show_str (host st) +:+ ":" +:+
                         show_num (port st))) ;;
    ret result.

Definition connectUDP (settings : option Settings) : M Result :=
  st <- destructure settings ;;
  if negb (truthy_num (listeningPort st)) || negb (truthy_str (targetHost st))
     || negb (truthy_num (targetPort st)) then
    throw "Invalid UDP settings"
  else
    logger "info" ("Starting UDP: Listen on port " +:+ show_num (listeningPort st)
                   +:+ ", Target " +:+ show_str (targetHost st) +:+ ":" +:+
                   show_num (targetPort st) +:+ "...") ;;
    a <- api ;;
    result <- await (invoke (udpConnect a)
                       (fun f => f (listeningPort st) (targetHost st)
                                   (targetPort st))) ;;
    when (success result)
      (logger "success" ("UDP started: Listening on " +:+ show_num (listeningPort st)
                         +:+ ", Target " +:+ show_str (targetHost st) +:+ ":" +:+
                         show_num (targetPort st))) ;;
    ret result.

Definition connect (settings : option Settings) : M Result :=
  let protocol := currentProtocol in
  try_catch
    (result <- (if String.eqb protocol "tcp"
                then connectTCP settings else connectUDP settings) ;;
     (if success result then
        emit (CONNECTION_STATUS true)
      else
        logger "error" ("Connection failed: " +:+ message result) ;;
        emit (CONNECTION_ERROR (message result))) ;;
     ret result)
    (fun error =>
       m <- read_message error ;;
       let errorMsg := if truthy_str m then show_str m else "Unknown error" in
       logger "error" ("Connection error: " +:+ errorMsg) ;;
       emit (CONNECTION_ERROR errorMsg) ;;
       ret {| success := false; message := errorMsg |}).

(** The request [connect] hands to the main process for these settings. *)
Definition underlying (a : ElectronAPI) (st : Settings) : Outcome Result :=
  if String.eqb currentProtocol "tcp"
  then invoke (tcpConnect a) (fun f => f (host st) (port st) (clientPort st))
  else invoke (udpConnect a)
         (fun f => f (listeningPort st) (targetHost st) (targetPort st)).

(** Missing or zero, in the words of the settings check. *)
Definition blank_str (x : jsstr) : Prop := x = None \/ x = Some "".
Definition blank_num (x : jsnum) : Prop := x = NoNum \/ x = NaN \/ x = Num 0.

Definition invalid_settings (st : Settings) : Prop :=
  if String.eqb currentProtocol "tcp"
  then blank_str (host st) \/ blank_num (port st)
  else blank_num (listeningPort st) \/ blank_str (targetHost st)
       \/ blank_num (targetPort st).

(** The protocol-specific call inside the [try] block. *)
Definition attempt (settings : option Settings) : M Result :=
  if String.eqb currentProtocol "tcp"
  then connectTCP settings else connectUDP settings.

Definition invalid_message : string :=
  if String.eqb currentProtocol "tcp"
  then "Invalid TCP host or port" else "Invalid UDP settings".

(** What the [catch] block of [connect] returns for a caught value whose
    [message] reads [m], and what it makes of a caught value: a returned
    failure, or the TypeError of reading [message] off [null] or
    [undefined], thrown on to the caller. *)
Definition caught (m : jsstr) : Result :=
  {| success := false;
     message := if truthy_str m then show_str m else "Unknown error" |}.

Definition handled (e : JsError) : Outcome Result :=
  match message_of e with
  | Returned m => Returned (caught m)
  | Thrown t => Thrown t
  end.

Definition nullish (e : JsError) : Prop := e = JsNull \/ e = JsUndefined.

(** *** Truthiness against "missing or zero" *)

Lemma truthy_str_blank x : blank_str x <-> truthy_str x = false.
Proof.
  unfold blank_str. destruct x as [s|]; cbn; [| tauto].
  destruct (String.eqb_spec s "") as [-> | Hne]; cbn.
  - tauto.
  - split; [intros [H | H]; congruence | discriminate].
Qed.

Lemma truthy_num_blank x : blank_num x <-> truthy_num x = false.
Proof.
  unfold blank_num. destruct x as [n| |]; cbn; try tauto.
  destruct (Z.eqb_spec n 0) as [-> | Hne]; cbn.
  - tauto.
  - split; [intros [H | [H | H]]; congruence | discriminate].
Qed.

Ltac run :=
  unfold attempt, connectTCP, connectUDP, bind, destructure, api, throw, ret,
    await, when, logger, underlying, invalid_settings, invalid_message in *;
  cbn -[pretty String.append] in *.

(** Neither helper emits an event: only [connect] does. *)
Lemma attempt_events settings w :
  events (attempt settings w).2 = events w.
Proof.
  run. destruct (String.eqb currentProtocol "tcp"), settings as [st|]; cbn; try done.
  - destruct (negb _ || negb _); cbn; [done |].
    destruct electronAPI as [a|]; cbn; [| done].
    destruct (invoke (tcpConnect a) _) as [[[] ?]|]; done.
  - destruct (negb _ || negb _ || negb _); cbn; [done |].
    destruct electronAPI as [a|]; cbn; [| done].
    destruct (invoke (udpConnect a) _) as [[[] ?]|]; done.
Qed.

Lemma attempt_invalid st w :
  invalid_settings st ->
  (attempt (Some st) w).1 = Thrown (new_Error invalid_message).
Proof.
  run. destruct (String.eqb currentProtocol "tcp"); cbn.
  - rewrite truthy_str_blank, truthy_num_blank.
    destruct (truthy_str (host st)), (truthy_num (port st)); cbn;
      intros [? | ?]; try done.
  - rewrite truthy_str_blank, !truthy_num_blank.
    destruct (truthy_num (listeningPort st)), (truthy_str (targetHost st)),
      (truthy_num (targetPort st)); cbn; intros [? | [? | ?]]; try done.
Qed.

Lemma attempt_valid a st w :
  electronAPI = Some a ->
  ~ invalid_settings st ->
  (attempt (Some st) w).1 = underlying a st.
Proof.
  intros Ha Hvalid. run. destruct (String.eqb currentProtocol "tcp"); cbn.
  - rewrite truthy_str_blank, truthy_num_blank in Hvalid.
    destruct (truthy_str (host st)), (truthy_num (port st)); try tauto. cbn.
    rewrite Ha. destruct (invoke (tcpConnect a) _) as [[[] ?]|]; done.
  - rewrite truthy_str_blank, !truthy_num_blank in Hvalid.
    destruct (truthy_num (listeningPort st)), (truthy_str (targetHost st)),
      (truthy_num (targetPort st)); try tauto. cbn.
    rewrite Ha. destruct (invoke (udpConnect a) _) as [[[] ?]|]; done.
Qed.




Lemma connect_attempt settings w :
  exists w',
    connect settings w
    = (match (attempt settings w).1 with
       | Returned r => Returned r
       | Thrown e => handled e
       end, w')
    /\ events w'
       = events w ++
         match (attempt settings w).1 with
         | Returned r => [if success r then CONNECTION_STATUS true
                          else CONNECTION_ERROR (message r)]
         | Thrown e => match handled e with
                       | Returned r => [CONNECTION_ERROR (message r)]
                       | Thrown _ => []
                       end
         end.
Proof.
  pose proof (attempt_events settings w) as Hev.
  unfold connect, try_catch, bind. fold (attempt settings).
  destruct (attempt settings w) as [[r | e] w1]; cbn in *.
  - destruct (success r); cbn; eexists; (split; [reflexivity |]); cbn; by rewrite Hev.
  - unfold handled, read_message, caught. destruct (message_of e) as [m | t]; cbn.
    + eexists; (split; [reflexivity |]); cbn; by rewrite Hev.
    + eexists; (split; [reflexivity |]); cbn; by rewrite Hev, app_nil_r.
Qed.



End ConnectionManager.



(** *** Three runs *)

Definition tcp_settings (p : jsnum) : Settings :=
  {| host := Some "192.168.0.10"; port := p; clientPort := Num 0;
     listeningPort := NoNum; targetHost := None; targetPort := NoNum |}.

Definition plc_bridge : ElectronAPI :=
  {| tcpConnect :=
       Some (fun _ _ _ => Returned {| success := true; message := "Connected" |});
     udpConnect :=
       Some (fun _ _ _ => Thrown (new_Error "bind EADDRINUSE")) |}.

Definition fresh : World := {| log := []; events := [] |}.

Example connect_ok :
  let (outcome, w) := connect "tcp" (Some plc_bridge) (Some (tcp_settings (Num 8080))) fresh in
  outcome = Returned {| success := true; message := "Connected" |}
  /\ events w = [CONNECTION_STATUS true].
Proof. split; reflexivity. Qed.

Example connect_port_zero :
  let (outcome, w) := connect "tcp" (Some plc_bridge) (Some (tcp_settings (Num 0))) fresh in
  outcome = Returned {| success := false; message := "Invalid TCP host or port" |}
  /\ events w = [CONNECTION_ERROR "Invalid TCP host or port"].
Proof. split; reflexivity. Qed.

Example connect_through_preload :
  let (outcome, w) :=
    connect "tcp" (Some preload_bridge) (Some (tcp_settings (Num 8080))) fresh in
  outcome = Returned {| success := false; message := "is not a function" |}
  /\ events w = [CONNECTION_ERROR "is not a function"].
Proof. split; reflexivity. Qed.

(** *** disconnect *)

(** The two IPC calls [disconnect] makes on the bridge: each promise
    resolves or rejects; a method the bridge does not expose is [None]. *)
Record DisconnectAPI := {
  tcpDisconnect : option (Outcome unit);
  udpDisconnect : option (Outcome unit)
}.

Definition call (method : option (Outcome unit)) : Outcome unit :=
  match method with
  | Some promise => promise
  | None => Thrown not_a_function
  end.

(** [throw error] of a caught value. *)
Definition rethrow {A} (e : JsError) : M A := fun w => (Thrown e, w).

Section Disconnect.

Variable currentProtocol : string.
Variable electronAPI : option DisconnectAPI.

Definition disconnect_api : M DisconnectAPI :=
  match electronAPI with
  | Some a => ret a
  | None => throw "Cannot read properties of null"
  end.

(** [disconnect]; the template in the [catch] block reads [error.message]
    before anything is logged. *)
Definition disconnect : M unit :=
  let protocol := currentProtocol in
  try_catch
    (a <- disconnect_api ;;
     (if String.eqb protocol "tcp"
      then await (call (tcpDisconnect a))
      else await (call (udpDisconnect a))) ;;
     emit (CONNECTION_STATUS false) ;;
     logger "info" "Disconnected from server")
    (fun error =>
       m <- read_message error ;;
       logger "error" ("Disconnect error: " +:+ show_str m) ;;
       rethrow error).

(** The request [disconnect] hands to the main process. *)
Definition closing (a : DisconnectAPI) : Outcome unit :=
  if String.eqb currentProtocol "tcp"
  then call (tcpDisconnect a) else call (udpDisconnect a).

End Disconnect.

(** X7: Unlike [connect], [disconnect] passes a failure on to its caller.
    When the main process call resolves, [disconnect] returns and emits
    exactly CONNECTION_STATUS {connected: false}.  When the call rejects
    with a value other than [null] and [undefined], or the bridge lacks
    the method, [disconnect] logs 'Disconnect error: ' followed by the
    value's message ('undefined' when it has none), emits nothing and
    throws the very same value.  When the call rejects with [null] or
    [undefined], reading [error.message] throws first: nothing is logged,
    nothing is emitted, and the caller gets that TypeError instead. *)
Theorem disconnect_passes_failure_on
    (currentProtocol : string) (a : DisconnectAPI) (w : World) :
  match closing currentProtocol a with
  | Returned _ =>
      exists w', disconnect currentProtocol (Some a) w = (Returned tt, w')
                 /\ events w' = events w ++ [CONNECTION_STATUS false]
  | Thrown e =>
      match message_of e with
      | Returned m =>
          disconnect currentProtocol (Some a) w
          = (Thrown e,
             {| log := log w ++ [{| log_type := "error";
                                    log_message := "Disconnect error: " +:+
                                                   show_str m |}];
                events := events w |})
      | Thrown t =>
          nullish e /\ disconnect currentProtocol (Some a) w = (Thrown t, w)
      end
  end.
Proof.
  unfold closing, disconnect, try_catch, bind, disconnect_api, ret, await,
    rethrow, emit, logger, read_message.
  destruct w as [lg ev].
  destruct (String.eqb currentProtocol "tcp").
  - destruct (call (tcpDisconnect a)) as [[] | [| | m]]; cbn; eauto.
    + split; [by left | done].
    + split; [by right | done].
  - destruct (call (udpDisconnect a)) as [[] | [| | m]]; cbn; eauto.
    + split; [by left | done].
    + split; [by right | done].
Qed.

(** *** handleConnectionStatusUpdate *)

(** The message of the main process: [{connected, error}]. *)
Record StatusData := { connected : bool; error : jsstr }.

(** [stateManager.get('isConnected')] beside the log and the events. *)
Record Link := { isConnected : bool; world : World }.

Definition handleConnectionStatusUpdate (data : StatusData) (l : Link) : Link :=
  let run (m : M unit) (w : World) : World := (m w).2 in
  if connected data then
    {| isConnected := true;
       world := run (emit (CONNECTION_STATUS true)) (world l) |}
  else
    {| isConnected := false;
       world :=
         run (emit (CONNECTION_STATUS false) ;;
              if truthy_str (error data) then
                logger "error" ("Connection error: " +:+ show_str (error data)) ;;
                emit (CONNECTION_ERROR (show_str (error data)))
              else ret tt)
           (world l) |}.

(** X8: After a status update [isConnected] is the flag of the message and the
    first event is CONNECTION_STATUS with that flag; a CONNECTION_ERROR
    follows exactly when the message reports a disconnect with a non-empty
    error -- an error that comes with [connected: true] is dropped. *)
Theorem status_update_events (data : StatusData) (l : Link) :
  let l' := handleConnectionStatusUpdate data l in
  isConnected l' = connected data
  /\ exists rest,
       events (world l') = events (world l) ++ CONNECTION_STATUS (connected data) :: rest
       /\ (rest = [] \/ exists msg, rest = [CONNECTION_ERROR msg] /\ error data = Some msg)
       /\ (rest <> [] <-> connected data = false /\ truthy_str (error data) = true).
Proof.
  unfold handleConnectionStatusUpdate.
  destruct data as [[] err]; cbn.
  - split; [done |]. exists []. repeat split; auto; try tauto. intros [? _]. done.
  - split; [done |]. destruct err as [msg|]; cbn.
    + destruct (String.eqb msg ""); cbn.
      * exists []. repeat split; auto; try tauto. intros [_ ?]. done.
      * exists [CONNECTION_ERROR msg]. rewrite <- app_assoc. repeat split; eauto.
    + exists []. repeat split; auto; try tauto. intros [_ ?]. done.
Qed.

(** *** getConnectionSettings *)

(** The input elements handed to [getConnectionSettings], each with its
    [value]; [None] in a window that does not have the element. *)
Record SettingsInputs := {
  tcpHostInput : option string;
  tcpPortInput : option string;
  tcpClientPortInput : option string;
  udpListeningPortInput : option string;
  udpTargetHostInput : option string;
  udpTargetPortInput : option string
}.

(** [x || d] on a number and on a string. *)
Definition num_or (x : jsnum) (d : Z) : jsnum :=
  if truthy_num x then x else Num d.
Definition str_or (x : jsstr) (d : string) : jsstr :=
  if truthy_str x then x else Some d.

Section GetSettings.

(** The built-ins [parseInt] (its argument is [None] for the [null] that
    [getItem] returns on a missing key) and [String.prototype.trim], and
    the [localStorage]. *)
Variable parseInt : option string -> jsnum.
Variable trim : string -> string.
Variable localStorage : gmap string string.
Variable currentProtocol : string.

Definition getTCPSettings (elements : SettingsInputs) : Settings :=
  {| host :=
       match tcpHostInput elements with
       | Some value => Some (trim value)
       | None => str_or (localStorage !! "tcp-host") "localhost"
       end;
     port :=
       match tcpPortInput elements with
       | Some value => parseInt (Some value)
       | None => num_or (parseInt (localStorage !! "tcp-port")) 8080
       end;
     clientPort :=
       match tcpClientPortInput elements with
       | Some value => num_or (parseInt (Some value)) 0
       | None => num_or (parseInt (localStorage !! "tcp-client-port")) 0
       end;
     listeningPort := NoNum; targetHost := None; targetPort := NoNum |}.

Definition getUDPSettings (elements : SettingsInputs) : Settings :=
  {| host := None; port := NoNum; clientPort := NoNum;
     listeningPort :=
       match udpListeningPortInput elements with
       | Some value => parseInt (Some value)
       | None => num_or (parseInt (localStorage !! "udp-listening-port")) 8081
       end;
     targetHost :=
       match udpTargetHostInput elements with
       | Some value => Some (trim value)
       | None => str_or (localStorage !! "udp-target-host") "localhost"
       end;
     targetPort :=
       match udpTargetPortInput elements with
       | Some value => parseInt (Some value)
       | None => num_or (parseInt (localStorage !! "udp-target-port")) 8080
       end |}.

Definition getConnectionSettings (elements : SettingsInputs) : Settings :=
  let protocol := currentProtocol in
  if String.eqb protocol "tcp" then getTCPSettings elements
  else getUDPSettings elements.

(** A window without the connection inputs. *)
Definition no_inputs : SettingsInputs :=
  {| tcpHostInput := None; tcpPortInput := None; tcpClientPortInput := None;
     udpListeningPortInput := None; udpTargetHostInput := None;
     udpTargetPortInput := None |}.

Lemma num_or_truthy x d : d <> 0%Z -> truthy_num (num_or x d) = true.
Proof.
  intros Hd. unfold num_or. destruct (truthy_num x) eqn:Hx; [done |].
  cbn. by destruct (Z.eqb_spec d 0).
Qed.

Lemma num_or_is_num x d : exists n, num_or x d = Num n.
Proof.
  unfold num_or. destruct x as [n| |]; cbn; eauto.
  destruct (n =? 0)%Z; cbn; eauto.
Qed.

Lemma str_or_truthy x d : d <> "" -> truthy_str (str_or x d) = true.
Proof.
  intros Hd. unfold str_or. destruct (truthy_str x) eqn:Hx; [done |].
  cbn. by destruct (String.eqb_spec d "").
Qed.

Lemma not_invalid st :
  (if String.eqb currentProtocol "tcp"
   then truthy_str (host st) && truthy_num (port st)
   else truthy_num (listeningPort st) && truthy_str (targetHost st)
        && truthy_num (targetPort st)) = true ->
  ~ invalid_settings currentProtocol st.
Proof.
  unfold invalid_settings. destruct (String.eqb currentProtocol "tcp").
  - rewrite truthy_str_blank, truthy_num_blank.
    destruct (truthy_str _), (truthy_num _); cbn; intros ? [? | ?]; done.
  - rewrite truthy_str_blank, !truthy_num_blank.
    destruct (truthy_num (listeningPort st)), (truthy_str _), (truthy_num (targetPort st));
      cbn; intros ? [? | [? | ?]]; done.
Qed.

End GetSettings.

(** X9: Settings read from [localStorage] alone -- no input element on the
    page -- always pass the validation of [connectTCP] and [connectUDP],
    whatever is stored and whatever [parseInt] makes of it: missing, empty,
    zero or non-numeric entries fall back to localhost, 8080 and 8081.  So
    [connect] hands them to the main process and returns its answer, or,
    when that call rejects, what the [catch] block makes of the rejection. *)
Theorem stored_settings_always_valid
    (parseInt : option string -> jsnum) (trim : string -> string)
    (localStorage : gmap string string) (currentProtocol : string)
    (a : ElectronAPI) (w : World) :
  let st := getConnectionSettings parseInt trim localStorage currentProtocol no_inputs in
  ~ invalid_settings currentProtocol st
  /\ exists w',
       connect currentProtocol (Some a) (Some st) w
       = (match underlying currentProtocol a st with
          | Returned r => Returned r
          | Thrown e => handled e
          end, w').
Proof.
  intros st.
  assert (Hvalid : ~ invalid_settings currentProtocol st).
  { apply not_invalid. subst st. unfold getConnectionSettings.
    destruct (String.eqb currentProtocol "tcp"); cbn.
    - by rewrite str_or_truthy, num_or_truthy.
    - by rewrite str_or_truthy, !num_or_truthy. }
  split; [exact Hvalid |].
  destruct (connect_attempt currentProtocol (Some a) (Some st) w) as (w' & Hrun & _).
  exists w'. rewrite Hrun.
  by rewrite (attempt_valid currentProtocol (Some a) a st w eq_refl Hvalid).
Qed.

(** X10: With the input elements on the page there is no default for the port:
    when [parseInt] makes [NaN] of the TCP port field, [connect] returns
    the validation failure and emits CONNECTION_ERROR; the client port, by
    contrast, is always a number (0 when blank). *)
Theorem blank_port_field_is_rejected
    (parseInt : option string -> jsnum) (trim : string -> string)
    (localStorage : gmap string string)
    (elements : SettingsInputs) (value : string)
    (api : option ElectronAPI) (w : World) :
  tcpPortInput elements = Some value ->
  parseInt (Some value) = NaN ->
  let st := getTCPSettings parseInt trim localStorage elements in
  (exists n, clientPort st = Num n)
  /\ exists w',
       connect "tcp" api (Some st) w
       = (Returned {| success := false; message := "Invalid TCP host or port" |}, w')
       /\ events w' = events w ++ [CONNECTION_ERROR "Invalid TCP host or port"].
Proof.
  intros Hinput Hnan st. split.
  - subst st. cbn. destruct (tcpClientPortInput elements); apply num_or_is_num.
  - assert (Hinv : invalid_settings "tcp" st).
    { right. subst st. cbn. rewrite Hinput, Hnan. right. by left. }
    destruct (connect_attempt "tcp" api (Some st) w) as (w' & Hrun & Hev).
    exists w'. rewrite Hrun, Hev.
    by rewrite (attempt_invalid "tcp" api st w Hinv).
Qed.

Lemma blank_port_field_is_rejected_witness :
  let elements :=
    {| tcpHostInput := Some "192.168.0.1"; tcpPortInput := Some "";
       tcpClientPortInput := Some ""; udpListeningPortInput := None;
       udpTargetHostInput := None; udpTargetPortInput := None |} in
  let w := {| events := []; log := [] |} in
  let st := getTCPSettings (fun _ => NaN) (fun s => s) ∅ elements in
  (exists n, clientPort st = Num n)
  /\ exists w',
       connect "tcp" None (Some st) w
       = (Returned {| success := false; message := "Invalid TCP host or port" |}, w')
       /\ events w' = events w ++ [CONNECTION_ERROR "Invalid TCP host or port"].
Proof.
  apply (blank_port_field_is_rejected (fun _ => NaN) (fun s => s) ∅
           {| tcpHostInput := Some "192.168.0.1"; tcpPortInput := Some "";
              tcpClientPortInput := Some ""; udpListeningPortInput := None;
              udpTargetHostInput := None; udpTargetPortInput := None |}
           "" None {| events := []; log := [] |}).
  - reflexivity.
  - reflexivity.
Defined.

End Connection.

(* ===================================================================== *)
(** ** Protocol handler (connection/connection-manager.js, second class) *)
(* ===================================================================== *)

Module Protocol.

Import Connection.

Inductive Event := PROTOCOL_CHANGED (protocol : string).

(** [stateManager.get('currentProtocol')], what the handler emitted and
    logged, and the [setProtocol] requests sent to the main process. *)
Record State := {
  currentProtocol : string;
  events : list Event;
  log : list LogEntry;
  requests : list string
}.

(** [this.electronAPI] with its [setProtocol] method. *)
Record ProtocolAPI := {
  setProtocol : option (string -> Outcome Result)
}.

(** *** Computations that may throw *)

Definition PM (A : Type) : Type := State -> Outcome A * State.

Definition pret {A} (a : A) : PM A := fun s => (Returned a, s).
Definition pthrow {A} (msg : string) : PM A :=
  fun s => (Thrown (new_Error msg), s).

(** [error.message] *)
Definition pread_message (error : JsError) : PM jsstr :=
  fun s => (message_of error, s).
Definition pbind {A B} (m : PM A) (k : A -> PM B) : PM B :=
  fun s => match m s with
           | (Returned a, s') => k a s'
           | (Thrown e, s') => (Thrown e, s')
           end.
Definition ptry {A} (body : PM A) (handler : JsError -> PM A) : PM A :=
  fun s => match body s with
           | (Returned a, s') => (Returned a, s')
           | (Thrown e, s') => handler e s'
           end.

Local Notation "x <- m ;; k" := (pbind m (fun x => k))
  (at level 100, m at next level, right associativity).
Local Notation "m ;; k" := (pbind m (fun _ => k))
  (at level 100, right associativity).

Definition plog (type msg : string) : PM unit :=
  fun s => (Returned tt,
            {| currentProtocol := currentProtocol s; events := events s;
               log := log s ++ [{| log_type := type; log_message := msg |}];
               requests := requests s |}).

Definition pemit (ev : Event) : PM unit :=
  fun s => (Returned tt,
            {| currentProtocol := currentProtocol s; events := events s ++ [ev];
               log := log s; requests := requests s |}).

(** [stateManager.set('currentProtocol', protocol)] *)
Definition set_protocol (protocol : string) : PM unit :=
  fun s => (Returned tt,
            {| currentProtocol := protocol; events := events s; log := log s;
               requests := requests s |}).

(** [String.prototype.toUpperCase] on ASCII letters. *)
Definition upper_char (c : ascii) : ascii :=
  let n := nat_of_ascii c in
  if (97 <=? n)%nat && (n <=? 122)%nat then ascii_of_nat (n - 32) else c.

Fixpoint toUpperCase (s : string) : string :=
  match s with
  | EmptyString => EmptyString
  | String c rest => String (upper_char c) (toUpperCase rest)
  end.

Definition dquote : string := String (ascii_of_nat 34) EmptyString.

Definition invalid_protocol_message : string :=
  "Invalid protocol. Must be " +:+ dquote +:+ "tcp" +:+ dquote +:+ " or " +:+
  dquote +:+ "udp" +:+ dquote.

Section ProtocolHandler.

Variable electronAPI : option ProtocolAPI.

(** [await this.electronAPI.setProtocol(newProtocol)] *)
Definition request (newProtocol : string) : PM Result :=
  match electronAPI with
  | None => pthrow "Cannot read properties of null"
  | Some api =>
      match setProtocol api with
      | None => pthrow "is not a function"
      | Some send =>
          fun s =>
            (send newProtocol,
             {| currentProtocol := currentProtocol s; events := events s;
                log := log s; requests := requests s ++ [newProtocol] |})
      end
  end.

(** [switchProtocol]; the template in the [catch] block reads
    [error.message] first. *)
Definition switchProtocol (newProtocol : string) : PM Result :=
  fun s =>
    let currentProtocol := currentProtocol s in
    if String.eqb newProtocol currentProtocol then
      pret {| success := true; message := "Already using this protocol" |} s
    else if negb (String.eqb newProtocol "tcp") && negb (String.eqb newProtocol "udp") then
      pret {| success := false; message := invalid_protocol_message |} s
    else
      ptry
        (result <- request newProtocol ;;
         (if success result then
            set_protocol newProtocol ;;
            pemit (PROTOCOL_CHANGED newProtocol) ;;
            plog "success" ("Switched to " +:+ toUpperCase newProtocol +:+ " protocol")
          else
            plog "error" ("Failed to switch protocol: " +:+ message result)) ;;
         pret result)
        (fun error =>
           m <- pread_message error ;;
           let errorMsg := "Error switching protocol: " +:+ show_str m in
           plog "error" errorMsg ;;
           pret {| success := false; message := errorMsg |})
        s.

Definition setProtocolFromSettings (protocol : string) (s : State) : State :=
  if String.eqb protocol "tcp" || String.eqb protocol "udp"
  then (set_protocol protocol s).2 else s.

End ProtocolHandler.

(** *** updateProtocolUI *)

(** The elements [updateProtocolUI] is handed: the [style.display] of the
    two settings sections and the [checked] flag of the two radios. *)
Record ProtocolUI := {
  tcpSettingsSection : option string;
  udpSettingsSection : option string;
  protocolTcpRadio : option bool;
  protocolUdpRadio : option bool
}.

Definition updateProtocolUI (current : string) (elements : ProtocolUI) : ProtocolUI :=
  match tcpSettingsSection elements, udpSettingsSection elements with
  | Some _, Some _ =>
      if String.eqb current "tcp" then
        {| tcpSettingsSection := Some "block"; udpSettingsSection := Some "none";
           protocolTcpRadio := (fun _ => true) <$> protocolTcpRadio elements;
           protocolUdpRadio := protocolUdpRadio elements |}
      else
        {| tcpSettingsSection := Some "none"; udpSettingsSection := Some "block";
           protocolTcpRadio := protocolTcpRadio elements;
           protocolUdpRadio := (fun _ => true) <$> protocolUdpRadio elements |}
  | _, _ => elements
  end.

Definition valid_protocol (p : string) : Prop := p = "tcp" \/ p = "udp".

(** A call on the handler. *)
Inductive Op :=
| Switch (newProtocol : string)
| FromSettings (protocol : string).

Definition step (api : option ProtocolAPI) (op : Op) (s : State) : State :=
  match op with
  | Switch p => (switchProtocol api p s).2
  | FromSettings p => setProtocolFromSettings p s
  end.

Definition run (api : option ProtocolAPI) (ops : list Op) (s : State) : State :=
  foldl (fun s op => step api op s) s ops.

(** *** Properties *)

Ltac run_switch :=
  unfold switchProtocol, ptry, pbind, request, pret, pthrow, plog, pemit,
    set_protocol, pread_message; cbn -[String.append toUpperCase].

(** The [setProtocol] request rejects with [null] or [undefined]. *)
Definition rejects_nullish (api : option ProtocolAPI) (newProtocol : string)
    (t : JsError) : Prop :=
  exists a send e,
    api = Some a /\ setProtocol a = Some send
    /\ send newProtocol = Thrown e /\ nullish e /\ message_of e = Thrown t.

Lemma switchProtocol_cases
    (api : option ProtocolAPI) (newProtocol : string) (s : State) :
  exists outcome s',
    switchProtocol api newProtocol s = (outcome, s')
    /\ (newProtocol = currentProtocol s ->
        (exists result, outcome = Returned result /\ success result = true)
        /\ s' = s)
    /\ (newProtocol <> currentProtocol s -> ~ valid_protocol newProtocol ->
        (exists result, outcome = Returned result /\ success result = false)
        /\ s' = s)
    /\ match outcome with
       | Returned result =>
           currentProtocol s'
           = (if success result then newProtocol else currentProtocol s)
           /\ events s'
              = events s ++
                (if success result
                    && negb (String.eqb newProtocol (currentProtocol s))
                 then [PROTOCOL_CHANGED newProtocol] else [])
       | Thrown t =>
           rejects_nullish api newProtocol t
           /\ currentProtocol s' = currentProtocol s
           /\ events s' = events s /\ log s' = log s
       end.
Proof.
  unfold valid_protocol, rejects_nullish. run_switch.
  destruct (String.eqb_spec newProtocol (currentProtocol s)) as [Heq | Hne].
  { eexists _, _. split; [reflexivity |]. cbn.
    rewrite app_nil_r. repeat split; try done. by eexists. }
  destruct (String.eqb_spec newProtocol "tcp") as [Htcp | Htcp];
    destruct (String.eqb_spec newProtocol "udp") as [Hudp | Hudp]; cbn.
  4: { eexists _, _. split; [reflexivity |]. cbn.
       rewrite app_nil_r. repeat split; try done. by eexists. }
  all: destruct api as [[[send|]]|]; cbn;
    try destruct (send newProtocol) as [[[] msg] | [| | m]] eqn:Hsend; cbn;
    eexists _, _; (split; [reflexivity |]); cbn; rewrite ?app_nil_r;
    (split; [done |]); (split; [intros; exfalso; tauto |]);
    try (split; done).
  all: split; [| done].
  all: eexists _, send, _; rewrite Hsend; repeat split; try done;
    (by left) || (by right).
Qed.

(** X11: [switchProtocol] returns a result in every case but one: when the
    [setProtocol] request rejects with [null] or [undefined], reading
    [error.message] in the [catch] block throws and [switchProtocol] passes
    that TypeError to its caller, with the protocol, the events and the
    log as they were.  Asking for the protocol already in use succeeds,
    and asking for anything but tcp and udp fails, both without a request
    to the main process and without any change; otherwise the stored
    protocol becomes the new one exactly when the result says success, and
    PROTOCOL_CHANGED is emitted exactly then. *)
Theorem switchProtocol_outcome
    (api : option ProtocolAPI) (newProtocol : string) (s : State) :
  exists outcome s',
    switchProtocol api newProtocol s = (outcome, s')
    /\ (newProtocol = currentProtocol s ->
        (exists result, outcome = Returned result /\ success result = true)
        /\ s' = s)
    /\ (newProtocol <> currentProtocol s -> ~ valid_protocol newProtocol ->
        (exists result, outcome = Returned result /\ success result = false)
        /\ s' = s)
    /\ match outcome with
       | Returned result =>
           currentProtocol s'
           = (if success result then newProtocol else currentProtocol s)
           /\ events s'
              = events s ++
                (if success result
                    && negb (String.eqb newProtocol (currentProtocol s))
                 then [PROTOCOL_CHANGED newProtocol] else [])
       | Thrown t =>
           rejects_nullish api newProtocol t
           /\ currentProtocol s' = currentProtocol s
           /\ events s' = events s /\ log s' = log s
       end.
Proof. apply switchProtocol_cases. Qed.

Lemma switchProtocol_valid api p s :
  valid_protocol (currentProtocol s) ->
  valid_protocol (currentProtocol (switchProtocol api p s).2).
Proof.
  intros Hvalid.
  destruct (switchProtocol_cases api p s)
    as (outcome & s' & Hrun & Hsame & Hbad & Hout).
  rewrite Hrun. cbn. destruct outcome as [result | t].
  - destruct Hout as [Hcur _]. rewrite Hcur.
    destruct (success result) eqn:Hs; [| done].
    destruct (decide (p = currentProtocol s)) as [-> | Hne]; [done |].
    destruct (decide (p = "tcp")) as [-> | Htcp]; [by left |].
    destruct (decide (p = "udp")) as [-> | Hudp]; [by right |].
    destruct (Hbad Hne) as [(r & Hr & Hfalse) _]; [intros [? | ?]; done |].
    inversion Hr. congruence.
  - destruct Hout as (_ & Hcur & _). by rewrite Hcur.
Qed.

(** X12: Once the stored protocol is tcp or udp it stays tcp or udp through any
    sequence of [switchProtocol] and [setProtocolFromSettings] calls,
    whatever they are asked for and whatever the main process answers. *)
Theorem protocol_stays_valid
    (api : option ProtocolAPI) (ops : list Op) (s : State) :
  valid_protocol (currentProtocol s) ->
  valid_protocol (currentProtocol (run api ops s)).
Proof.
  revert s. induction ops as [|op ops IH]; intros s Hvalid; [exact Hvalid |].
  apply IH. destruct op as [p | p]; cbn.
  - by apply switchProtocol_valid.
  - unfold setProtocolFromSettings, valid_protocol.
    destruct (String.eqb_spec p "tcp"); [by left |].
    destruct (String.eqb_spec p "udp"); [by right | done].
Qed.

(** X13: On a page with both settings sections, redrawing after any
    [switchProtocol] call shows exactly one section -- the TCP one when the
    stored protocol is tcp, the UDP one when it is udp -- and a second
    redraw changes nothing. *)
Theorem redraw_shows_stored_protocol
    (api : option ProtocolAPI) (newProtocol : string) (s : State)
    (elements : ProtocolUI) :
  valid_protocol (currentProtocol s) ->
  is_Some (tcpSettingsSection elements) ->
  is_Some (udpSettingsSection elements) ->
  let s' := (switchProtocol api newProtocol s).2 in
  let ui := updateProtocolUI (currentProtocol s') elements in
  (tcpSettingsSection ui = Some "block" <-> currentProtocol s' = "tcp")
  /\ (udpSettingsSection ui = Some "block" <-> currentProtocol s' = "udp")
  /\ (tcpSettingsSection ui = Some "none" <-> udpSettingsSection ui = Some "block")
  /\ updateProtocolUI (currentProtocol s') ui = ui.
Proof.
  intros Hvalid [t Ht] [u Hu] s' ui.
  pose proof (switchProtocol_valid api newProtocol s Hvalid) as Hvalid'.
  fold s' in Hvalid'. subst ui. unfold updateProtocolUI. rewrite Ht, Hu.
  destruct Hvalid' as [-> | ->]; cbn.
  - repeat split; try done. by destruct (protocolTcpRadio elements).
  - repeat split; try done. by destruct (protocolUdpRadio elements).
Qed.

(** The main process accepts every switch. *)
Definition demo_api : ProtocolAPI :=
  {| setProtocol := Some (fun p => Returned {| success := true; message := p |}) |}.

Definition demo_state : State :=
  {| currentProtocol := "tcp"; events := []; log := []; requests := [] |}.

Definition demo_ui : ProtocolUI :=
  {| tcpSettingsSection := Some "block"; udpSettingsSection := Some "none";
     protocolTcpRadio := Some true; protocolUdpRadio := None |}.

Lemma protocol_stays_valid_witness :
  valid_protocol
    (currentProtocol
       (run (Some demo_api) [Switch "udp"; FromSettings "serial"; Switch "can"]
          demo_state)).
Proof.
  apply (protocol_stays_valid (Some demo_api)
           [Switch "udp"; FromSettings "serial"; Switch "can"] demo_state).
  left. reflexivity.
Defined.

Lemma redraw_shows_stored_protocol_witness :
  let s' := (switchProtocol (Some demo_api) "udp" demo_state).2 in
  let ui := updateProtocolUI (currentProtocol s') demo_ui in
  (tcpSettingsSection ui = Some "block" <-> currentProtocol s' = "tcp")
  /\ (udpSettingsSection ui = Some "block" <-> currentProtocol s' = "udp")
  /\ (tcpSettingsSection ui = Some "none" <-> udpSettingsSection ui = Some "block")
  /\ updateProtocolUI (currentProtocol s') ui = ui.
Proof.
  apply (redraw_shows_stored_protocol (Some demo_api) "udp" demo_state demo_ui).
  - left. reflexivity.
  - vm_compute. eauto.
  - vm_compute. eauto.
Defined.

End Protocol.

(* ===================================================================== *)
(** ** Settings persistence (settings/settings-manager.js) *)
(* ===================================================================== *)

Module Settings.

Import Connection.

Local Notation "s |> f" := (f s) (at level 45, left associativity, only parsing).

(** *** State *)

(** [this.currentProtocol] and [this.sendLatencyMs]. *)
Record SettingsManager := {
  currentProtocol : string;
  sendLatencyMs : jsnum
}.

(** A value stored in the [stateManager]. *)
Inductive smval := SStr (s : string) | SBool (b : bool) | SNum (n : jsnum).

Inductive Event := SETTINGS_LOADED | SETTINGS_SAVED.

(** [elements] is the object of form widgets handed to both methods: its
    text inputs and its radios and checkboxes, each under its property
    name, missing when the window does not have the widget.  [document]
    holds the parameter inputs 'int-0' .. 'int-15' that exist on the page,
    by element id, with their value; they are not among the widgets of
    [elements]. *)
Record Env := {
  this : SettingsManager;
  stateManager : gmap string smval;
  localStorage : gmap string string;
  inputs : gmap string string;
  toggles : gmap string bool;
  document : gmap string string;
  events : list Event;
  log : list string
}.

Definition with_this (f : SettingsManager -> SettingsManager) (e : Env) : Env :=
  {| this := f (this e); stateManager := stateManager e;
     localStorage := localStorage e; inputs := inputs e; toggles := toggles e;
     document := document e; events := events e; log := log e |}.
Definition stateManager_set (key : string) (v : smval) (e : Env) : Env :=
  {| this := this e; stateManager := <[key := v]> (stateManager e);
     localStorage := localStorage e; inputs := inputs e; toggles := toggles e;
     document := document e; events := events e; log := log e |}.
Definition with_localStorage
    (f : gmap string string -> gmap string string) (e : Env) : Env :=
  {| this := this e; stateManager := stateManager e;
     localStorage := f (localStorage e); inputs := inputs e;
     toggles := toggles e; document := document e; events := events e;
     log := log e |}.
Definition with_inputs
    (f : gmap string string -> gmap string string) (e : Env) : Env :=
  {| this := this e; stateManager := stateManager e;
     localStorage := localStorage e; inputs := f (inputs e);
     toggles := toggles e; document := document e; events := events e;
     log := log e |}.
Definition with_toggles
    (f : gmap string bool -> gmap string bool) (e : Env) : Env :=
  {| this := this e; stateManager := stateManager e;
     localStorage := localStorage e; inputs := inputs e;
     toggles := f (toggles e); document := document e; events := events e;
     log := log e |}.
Definition with_document
    (f : gmap string string -> gmap string string) (e : Env) : Env :=
  {| this := this e; stateManager := stateManager e;
     localStorage := localStorage e; inputs := inputs e; toggles := toggles e;
     document := f (document e); events := events e; log := log e |}.
Definition emit (ev : Event) (e : Env) : Env :=
  {| this := this e; stateManager := stateManager e;
     localStorage := localStorage e; inputs := inputs e; toggles := toggles e;
     document := document e; events := events e ++ [ev]; log := log e |}.
Definition logger_info (msg : string) (e : Env) : Env :=
  {| this := this e; stateManager := stateManager e;
     localStorage := localStorage e; inputs := inputs e; toggles := toggles e;
     document := document e; events := events e; log := log e ++ [msg] |}.

(** The id and storage key [`int-${i}`]. *)
Definition int_id (i : nat) : string := "int-" +:+ pretty i.

(** [checked.toString()] *)
Definition bool_toString (b : bool) : string := if b then "true" else "false".

Section SettingsManager.

(** The built-in [parseInt], and the [updateProtocolUI] callback of
    [elements] ([None] when the caller passes none), which redraws the
    protocol widgets. *)
Variable parseInt : string -> jsnum.
Variable updateProtocolUI : option (gmap string bool -> gmap string bool).

(** *** loadSettings *)

Definition load_protocol (e : Env) : Env :=
  match localStorage e !! "protocol" with
  | Some savedProtocol =>
      if String.eqb savedProtocol "tcp" || String.eqb savedProtocol "udp" then
        let e :=
          e |> with_this (fun t => {| currentProtocol := savedProtocol;
                                      sendLatencyMs := sendLatencyMs t |})
            |> stateManager_set "currentProtocol" (SStr savedProtocol) in
        match toggles e !! "protocolTcpRadio", toggles e !! "protocolUdpRadio" with
        | Some _, Some _ =>
            let e :=
              if String.eqb savedProtocol "tcp"
              then with_toggles (insert "protocolTcpRadio" true) e
              else with_toggles (insert "protocolUdpRadio" true) e in
            match updateProtocolUI with
            | Some callback => with_toggles callback e
            | None => e
            end
        | _, _ => e
        end
      else e
  | None => e
  end.

(** [if (input) { const saved = localStorage.getItem(key);
                  if (saved) input.value = saved; }] *)
Definition load_input (prop key : string) (e : Env) : Env :=
  match inputs e !! prop with
  | Some _ =>
      match localStorage e !! key with
      | Some saved =>
          if String.eqb saved "" then e
          else with_inputs (insert prop saved) e
      | None => e
      end
  | None => e
  end.

(** One turn of the loop over the integer parameters. *)
Definition load_int (i : nat) (e : Env) : Env :=
  match document e !! int_id i with
  | Some _ =>
      if decide (i <> 9) then
        match localStorage e !! int_id i with
        | Some savedValue => with_document (insert (int_id i) savedValue) e
        | None => e
        end
      else e
  | None => e
  end.

(** [for (let i = ...; ...; i++)] over the indices in [l]. *)
Definition load_loop (l : list nat) (e : Env) : Env :=
  foldl (fun e i => load_int i e) e l.

Definition load_ints (e : Env) : Env := load_loop (seq 0 16) e.

Definition load_autoSend (e : Env) : Env :=
  match toggles e !! "autoSendToggle" with
  | Some _ =>
      match localStorage e !! "auto-send-enabled" with
      | Some saved =>
          with_toggles (insert "autoSendToggle" (String.eqb saved "true")) e
      | None => e
      end
  | None => e
  end.

Definition load_debugMode (e : Env) : Env :=
  match toggles e !! "debugModeToggle" with
  | Some _ =>
      match localStorage e !! "debug-mode-enabled" with
      | Some saved =>
          e |> with_toggles (insert "debugModeToggle" (String.eqb saved "true"))
            |> stateManager_set "debugModeEnabled" (SBool (String.eqb saved "true"))
      | None => e
      end
  | None => e
  end.

Definition load_sendLatency (e : Env) : Env :=
  match inputs e !! "sendLatencyInput" with
  | Some _ =>
      match localStorage e !! "send-latency-ms" with
      | Some saved =>
          e |> with_inputs (insert "sendLatencyInput" saved)
            |> with_this (fun t => {| currentProtocol := currentProtocol t;
                                      sendLatencyMs := parseInt saved |})
            |> stateManager_set "sendLatencyMs" (SNum (parseInt saved))
      | None => e
      end
  | None => e
  end.

Definition loadSettings (e : Env) : Env :=
  e |> load_protocol
    |> load_input "tcpHostInput" "tcp-host"
    |> load_input "tcpPortInput" "tcp-port"
    |> load_input "tcpClientPortInput" "tcp-client-port"
    |> load_input "udpListeningPortInput" "udp-listening-port"
    |> load_input "udpTargetHostInput" "udp-target-host"
    |> load_input "udpTargetPortInput" "udp-target-port"
    |> load_ints
    |> load_autoSend
    |> load_debugMode
    |> load_sendLatency
    |> emit SETTINGS_LOADED
    |> logger_info "Settings loaded from localStorage".

(** *** saveSettings *)

(** [saveSettings] reads the widgets and only ever calls
    [localStorage.setItem]; these are its calls, in program order. *)
Definition save_input (prop key : string) (e : Env) : list (string * string) :=
  match inputs e !! prop with
  | Some value => [(key, value)]
  | None => []
  end.

Definition save_toggle (prop key : string) (e : Env) : list (string * string) :=
  match toggles e !! prop with
  | Some checked => [(key, bool_toString checked)]
  | None => []
  end.

Definition save_int (e : Env) (i : nat) : list (string * string) :=
  match document e !! int_id i with
  | Some value => if decide (i <> 9) then [(int_id i, value)] else []
  | None => []
  end.

Definition saveSettings_setItems (e : Env) : list (string * string) :=
  [("protocol", currentProtocol (this e))]
  ++ save_input "tcpHostInput" "tcp-host" e
  ++ save_input "tcpPortInput" "tcp-port" e
  ++ save_input "tcpClientPortInput" "tcp-client-port" e
  ++ save_input "udpListeningPortInput" "udp-listening-port" e
  ++ save_input "udpTargetHostInput" "udp-target-host" e
  ++ save_input "udpTargetPortInput" "udp-target-port" e
  ++ flat_map (save_int e) (seq 0 16)
  ++ save_toggle "autoSendToggle" "auto-send-enabled" e
  ++ save_toggle "debugModeToggle" "debug-mode-enabled" e
  ++ save_input "sendLatencyInput" "send-latency-ms" e.

Definition setItems (calls : list (string * string))
    (storage : gmap string string) : gmap string string :=
  foldl (fun m kv => <[kv.1 := kv.2]> m) storage calls.

Definition saveSettings (e : Env) : Env :=
  e |> with_localStorage (setItems (saveSettings_setItems e))
    |> emit SETTINGS_SAVED.

End SettingsManager.

(** A main window with three of the parameter inputs, the command input
    among them, and a value saved earlier for each. *)
Definition demo_env : Env :=
  {| this := {| currentProtocol := "tcp"; sendLatencyMs := Num 20 |};
     stateManager := ∅;
     localStorage := {[ "int-3" := "1500"; "int-9" := "7"; "tcp-host" := "plc" ]};
     inputs := {[ "tcpHostInput" := "localhost" ]};
     toggles := {[ "autoSendToggle" := true ]};
     document := {[ "int-3" := "100"; "int-9" := "12"; "int-15" := "1" ]};
     events := []; log := [] |}.

(** *** Keys *)

Lemma int_id_inj i j : int_id i = int_id j -> i = j.
Proof.
  unfold int_id. intros H.
  apply (inj (String.app "int-")) in H. by apply (inj pretty) in H.
Qed.

Lemma int_id_9 : int_id 9 = "int-9".
Proof. reflexivity. Qed.

Lemma int_id_head i : exists rest, int_id i = String "i"%char rest.
Proof. unfold int_id. eexists. reflexivity. Qed.

(** The fixed keys of [saveSettings] do not start with an "i". *)
Ltac not_int_key i :=
  let rest := fresh "rest" in
  let Hhead := fresh "Hhead" in
  destruct (int_id_head i) as [rest Hhead]; rewrite Hhead in *; discriminate.

(** *** A run of [setItem] calls *)

Lemma setItems_snoc calls k v storage :
  setItems (calls ++ [(k, v)]) storage = <[k := v]> (setItems calls storage).
Proof. unfold setItems. by rewrite foldl_app. Qed.

Lemma setItems_untouched calls storage k :
  k ∉ calls.*1 -> setItems calls storage !! k = storage !! k.
Proof.
  induction calls as [|[k' v'] calls IH] using rev_ind; [done |].
  rewrite fmap_app, not_elem_of_app. cbn. intros [Hcalls Hk'].
  rewrite setItems_snoc, lookup_insert_ne; [by apply IH |].
  intros ->. apply Hk'. by left.
Qed.

Lemma setItems_written calls storage k v :
  (k, v) ∈ calls ->
  (forall v', (k, v') ∈ calls -> v' = v) ->
  setItems calls storage !! k = Some v.
Proof.
  induction calls as [|[k' v'] calls IH] using rev_ind; [by intros ?%elem_of_nil |].
  intros Hin Hfun. rewrite setItems_snoc.
  destruct (decide (k' = k)) as [-> | Hne].
  - rewrite lookup_insert_eq. f_equal. apply Hfun.
    rewrite elem_of_app. right. by left.
  - rewrite lookup_insert_ne by done. apply IH.
    + apply elem_of_app in Hin as [Hin | Hin]; [done |].
      apply list_elem_of_singleton in Hin. congruence.
    + intros v'' Hv''. apply Hfun. rewrite elem_of_app. by left.
Qed.

(** *** What [saveSettings] writes *)

Lemma save_input_key prop key e k v :
  (k, v) ∈ save_input prop key e -> k = key.
Proof.
  unfold save_input. destruct (inputs e !! prop); [| by intros ?%elem_of_nil].
  intros Hin%list_elem_of_singleton. congruence.
Qed.

Lemma save_toggle_key prop key e k v :
  (k, v) ∈ save_toggle prop key e -> k = key.
Proof.
  unfold save_toggle. destruct (toggles e !! prop); [| by intros ?%elem_of_nil].
  intros Hin%list_elem_of_singleton. congruence.
Qed.

Lemma save_int_elem e i k v :
  (k, v) ∈ save_int e i <->
  k = int_id i /\ i <> 9 /\ document e !! int_id i = Some v.
Proof.
  unfold save_int. destruct (document e !! int_id i) as [value|].
  - destruct (decide (i <> 9)) as [Hne | Heq].
    + rewrite list_elem_of_singleton. split; [intros [= -> ->] | intros (-> & _ & [= ->])]; done.
    + rewrite elem_of_nil. tauto.
  - rewrite elem_of_nil. split; [done | intros (_ & _ & ?); done].
Qed.

(** Every [setItem] call under an [`int-${i}`] key comes from the loop, for
    an index other than 9, with the value of that input. *)
Lemma int_key_written e i v :
  (int_id i, v) ∈ saveSettings_setItems e ->
  i <> 9 /\ document e !! int_id i = Some v.
Proof.
  unfold saveSettings_setItems. rewrite !elem_of_app, list_elem_of_singleton.
  intros H.
  repeat match type of H with _ \/ _ => destruct H as [H | H] end.
  all: try (apply save_input_key in H; not_int_key i).
  all: try (apply save_toggle_key in H; not_int_key i).
  - injection H as H _. not_int_key i.
  - apply list_elem_of_In, in_flat_map in H as (j & _ & Hj).
    apply list_elem_of_In, save_int_elem in Hj as (Hid & Hne & Hdoc).
    apply int_id_inj in Hid as ->. done.
Qed.

Lemma int9_not_written e : "int-9" ∉ (saveSettings_setItems e).*1.
Proof.
  intros ([k v] & Hk & Hin)%list_elem_of_fmap. cbn in Hk. subst k.
  rewrite <- int_id_9 in Hin. by apply int_key_written in Hin as [? _].
Qed.

Lemma int_written e i v :
  i < 16 -> i <> 9 -> document e !! int_id i = Some v ->
  (int_id i, v) ∈ saveSettings_setItems e.
Proof.
  intros Hlt Hne Hdoc. unfold saveSettings_setItems.
  do 7 (apply elem_of_app; right). apply elem_of_app; left.
  apply list_elem_of_In, in_flat_map. exists i. split.
  - apply in_seq. lia.
  - apply list_elem_of_In, save_int_elem. done.
Qed.

(** *** What [loadSettings] assigns *)

Section Load.

Variable parseInt : string -> jsnum.
Variable updateProtocolUI : option (gmap string bool -> gmap string bool).

(** Every step but the loop leaves the stored settings and the parameter
    inputs alone. *)
Lemma load_protocol_storage e :
  localStorage (load_protocol updateProtocolUI e) = localStorage e.
Proof. unfold load_protocol. by repeat case_match. Qed.
Lemma load_protocol_document e :
  document (load_protocol updateProtocolUI e) = document e.
Proof. unfold load_protocol. by repeat case_match. Qed.

Lemma load_input_storage prop key e :
  localStorage (load_input prop key e) = localStorage e.
Proof. unfold load_input. by repeat case_match. Qed.
Lemma load_input_document prop key e :
  document (load_input prop key e) = document e.
Proof. unfold load_input. by repeat case_match. Qed.

Lemma load_autoSend_storage e : localStorage (load_autoSend e) = localStorage e.
Proof. unfold load_autoSend. by repeat case_match. Qed.
Lemma load_autoSend_document e : document (load_autoSend e) = document e.
Proof. unfold load_autoSend. by repeat case_match. Qed.

Lemma load_debugMode_storage e : localStorage (load_debugMode e) = localStorage e.
Proof. unfold load_debugMode. by repeat case_match. Qed.
Lemma load_debugMode_document e : document (load_debugMode e) = document e.
Proof. unfold load_debugMode. by repeat case_match. Qed.

Lemma load_sendLatency_storage e :
  localStorage (load_sendLatency parseInt e) = localStorage e.
Proof. unfold load_sendLatency. by repeat case_match. Qed.
Lemma load_sendLatency_document e :
  document (load_sendLatency parseInt e) = document e.
Proof. unfold load_sendLatency. by repeat case_match. Qed.

Lemma emit_storage ev e : localStorage (emit ev e) = localStorage e.
Proof. reflexivity. Qed.
Lemma emit_document ev e : document (emit ev e) = document e.
Proof. reflexivity. Qed.

Lemma logger_info_storage msg e : localStorage (logger_info msg e) = localStorage e.
Proof. reflexivity. Qed.
Lemma logger_info_document msg e : document (logger_info msg e) = document e.
Proof. reflexivity. Qed.

Lemma load_int_storage i e : localStorage (load_int i e) = localStorage e.
Proof. unfold load_int. repeat case_match; done. Qed.

Lemma load_int_other i e k :
  k <> int_id i \/ i = 9 ->
  document (load_int i e) !! k = document e !! k.
Proof.
  intros Hk. unfold load_int.
  destruct (document e !! int_id i); [| done].
  destruct (decide (i <> 9)) as [Hne | Heq]; [| done].
  destruct (localStorage e !! int_id i); [| done]. cbn.
  apply lookup_insert_ne. intros <-. destruct Hk; congruence.
Qed.

Lemma load_int_same i e v :
  i <> 9 -> is_Some (document e !! int_id i) ->
  localStorage e !! int_id i = Some v ->
  document (load_int i e) !! int_id i = Some v.
Proof.
  intros Hne [old Hold] Hls. unfold load_int. rewrite Hold, Hls.
  rewrite decide_True by done. cbn. apply lookup_insert_eq.
Qed.

Lemma load_int_present i e k :
  is_Some (document e !! k) -> is_Some (document (load_int i e) !! k).
Proof.
  intros Hk. unfold load_int.
  destruct (document e !! int_id i); [| done].
  destruct (decide (i <> 9)) as [Hne | Heq]; [| done].
  destruct (localStorage e !! int_id i); [| done]. cbn.
  rewrite lookup_insert. by case_decide.
Qed.

Lemma load_loop_cons i l e :
  load_loop (i :: l) e = load_loop l (load_int i e).
Proof. reflexivity. Qed.

Lemma load_loop_storage l e : localStorage (load_loop l e) = localStorage e.
Proof.
  revert e. induction l as [|i l IH]; intros e; [done |].
  rewrite load_loop_cons, IH. apply load_int_storage.
Qed.

Lemma load_loop_other l e k :
  (forall i, i ∈ l -> k <> int_id i \/ i = 9) ->
  document (load_loop l e) !! k = document e !! k.
Proof.
  revert e. induction l as [|i l IH]; intros e Hl; [done |].
  rewrite load_loop_cons, IH.
  - apply load_int_other, Hl. by left.
  - intros j Hj. apply Hl. by right.
Qed.

Lemma load_loop_restores l e i v :
  i ∈ l -> i <> 9 -> is_Some (document e !! int_id i) ->
  localStorage e !! int_id i = Some v ->
  document (load_loop l e) !! int_id i = Some v.
Proof.
  revert e. induction l as [|j l IH]; intros e Hin Hne Hdoc Hls;
    [by apply elem_of_nil in Hin |].
  rewrite load_loop_cons. destruct (decide (i ∈ l)) as [Hl | Hl].
  - apply IH; [done | done | by apply load_int_present |].
    by rewrite load_int_storage.
  - apply elem_of_cons in Hin as [-> | Hin]; [| done].
    rewrite load_loop_other.
    + by apply load_int_same.
    + intros i Hi. left. intros Heq%int_id_inj. congruence.
Qed.

Lemma loadSettings_storage e :
  localStorage (loadSettings parseInt updateProtocolUI e) = localStorage e.
Proof.
  unfold loadSettings, load_ints.
  rewrite logger_info_storage, emit_storage, load_sendLatency_storage, load_debugMode_storage,
    load_autoSend_storage.
  rewrite load_loop_storage.
  by rewrite !load_input_storage, load_protocol_storage.
Qed.

(** The parameter inputs after [loadSettings] are those the loop leaves,
    run on a page with the same stored settings and parameter inputs. *)
Lemma loadSettings_loop e :
  exists before,
    localStorage before = localStorage e
    /\ document before = document e
    /\ document (loadSettings parseInt updateProtocolUI e)
       = document (load_loop (seq 0 16) before).
Proof.
  unfold loadSettings, load_ints.
  rewrite logger_info_document, emit_document, load_sendLatency_document,
    load_debugMode_document, load_autoSend_document.
  eexists. split; [| split; [| reflexivity]].
  - by rewrite !load_input_storage, load_protocol_storage.
  - by rewrite !load_input_document, load_protocol_document.
Qed.

End Load.

(** C8: the generic persistence of the sixteen parameter inputs skips the
    command register.  [saveSettings] leaves the stored 'int-9' entry as it
    was and [loadSettings] leaves the int-9 input as it was, whatever the
    page and the storage hold; for every other index below 16 whose input
    exists, [saveSettings] stores the input's value under [`int-${i}`] and
    [loadSettings] puts a stored value back into the input. *)
Theorem int9_never_persisted
    (parseInt : string -> jsnum)
    (updateProtocolUI : option (gmap string bool -> gmap string bool))
    (e : Env) :
  int_id 9 = "int-9"
  /\ ("int-9" ∉ (saveSettings_setItems e).*1)
  /\ localStorage (saveSettings e) !! "int-9" = localStorage e !! "int-9"
  /\ document (loadSettings parseInt updateProtocolUI e) !! "int-9"
     = document e !! "int-9"
  /\ (forall i v, i < 16 -> i <> 9 ->
      document e !! int_id i = Some v ->
      (int_id i, v) ∈ saveSettings_setItems e
      /\ localStorage (saveSettings e) !! int_id i = Some v)
  /\ (forall i v, i < 16 -> i <> 9 ->
      is_Some (document e !! int_id i) ->
      localStorage e !! int_id i = Some v ->
      document (loadSettings parseInt updateProtocolUI e) !! int_id i = Some v).
Proof.
  destruct (loadSettings_loop parseInt updateProtocolUI e)
    as (before & Hls & Hdoc & Hload).
  split; [exact int_id_9 |]. split; [apply int9_not_written |].
  split; [| split; [| split]].
  - unfold saveSettings. rewrite emit_storage. cbn [localStorage with_localStorage].
    apply setItems_untouched, int9_not_written.
  - rewrite Hload, load_loop_other, Hdoc; [done |].
    intros i _. destruct (decide (i = 9)) as [-> | Hne]; [by right | left].
    rewrite <- int_id_9. intros Heq%int_id_inj. congruence.
  - intros i v Hlt Hne Hdoci.
    pose proof (int_written e i v Hlt Hne Hdoci) as Hin.
    split; [exact Hin |].
    unfold saveSettings. rewrite emit_storage. cbn [localStorage with_localStorage].
    apply setItems_written; [exact Hin |].
    intros v' Hv'. apply int_key_written in Hv' as [_ Hv']. congruence.
  - intros i v Hlt Hne Hpresent Hsaved. rewrite Hload.
    apply load_loop_restores; [| done | by rewrite Hdoc | by rewrite Hls].
    apply elem_of_seq. lia.
Qed.

(** The demo window: the stored 'int-9' survives a save, the int-9 input
    survives a load, and the other parameters go both ways. *)
Example demo_save :
  localStorage (saveSettings demo_env) !! "int-3" = Some "100"
  /\ localStorage (saveSettings demo_env) !! "int-15" = Some "1"
  /\ localStorage (saveSettings demo_env) !! "int-9" = Some "7".
Proof. repeat split; vm_compute; reflexivity. Qed.

Example demo_load :
  let e := loadSettings (fun _ => NaN) None demo_env in
  document e !! "int-3" = Some "1500"
  /\ document e !! "int-15" = Some "1"
  /\ document e !! "int-9" = Some "12".
Proof. repeat split; vm_compute; reflexivity. Qed.

(** *** Round trips through [localStorage] *)

(** The text inputs of [elements] with their storage keys: the six
    connection inputs, then the send latency. *)
Definition connection_fields : list (string * string) :=
  [ ("tcpHostInput", "tcp-host"); ("tcpPortInput", "tcp-port");
    ("tcpClientPortInput", "tcp-client-port");
    ("udpListeningPortInput", "udp-listening-port");
    ("udpTargetHostInput", "udp-target-host");
    ("udpTargetPortInput", "udp-target-port") ].

Definition text_fields : list (string * string) :=
  connection_fields ++ [("sendLatencyInput", "send-latency-ms")].

(** A [setItem] call under another key than the one looked for. *)
Ltac other_key H :=
  first
    [ by (apply list_elem_of_singleton in H; simplify_eq)
    | by (unfold save_input in H; case_match;
          [apply list_elem_of_singleton in H; simplify_eq
          | by apply elem_of_nil in H])
    | by (apply save_toggle_key in H; simplify_eq)
    | by (let j := fresh "j" in
          let Hj := fresh "Hj" in
          let Hid := fresh "Hid" in
          apply list_elem_of_In, in_flat_map in H as (j & _ & Hj);
          apply list_elem_of_In, save_int_elem in Hj as (Hid & _ & _);
          not_int_key j) ].

Ltac each_field Hfield :=
  unfold text_fields, connection_fields in Hfield; cbn [app] in Hfield;
  repeat (apply elem_of_cons in Hfield as [Hfield | Hfield]);
  [.. | by apply elem_of_nil in Hfield]; injection Hfield as -> ->.

Lemma text_field_only_call e prop key v' :
  (prop, key) ∈ text_fields ->
  (key, v') ∈ saveSettings_setItems e -> inputs e !! prop = Some v'.
Proof.
  intros Hfield H. each_field Hfield.
  all: unfold saveSettings_setItems in H; rewrite !elem_of_app in H;
    repeat match type of H with _ \/ _ => destruct H as [H | H] end;
    try other_key H.
  all: unfold save_input in H; case_match;
    [apply list_elem_of_singleton in H; by simplify_eq
    | by apply elem_of_nil in H].
Qed.

Lemma text_field_call e prop key v :
  (prop, key) ∈ text_fields ->
  inputs e !! prop = Some v -> (key, v) ∈ saveSettings_setItems e.
Proof.
  intros Hfield Hv. each_field Hfield.
  all: unfold saveSettings_setItems, save_input; rewrite Hv;
    rewrite !elem_of_app, !list_elem_of_singleton; tauto.
Qed.

Lemma saved_text_field e prop key v :
  (prop, key) ∈ text_fields ->
  inputs e !! prop = Some v ->
  localStorage (saveSettings e) !! key = Some v.
Proof.
  intros Hfield Hv. unfold saveSettings. rewrite emit_storage.
  cbn [localStorage with_localStorage].
  apply setItems_written; [by eapply text_field_call |].
  intros v' H. eapply text_field_only_call in H; [| done]. congruence.
Qed.

(** A widget the page does not have leaves its key as it was. *)
Lemma unsaved_text_field e prop key :
  (prop, key) ∈ text_fields ->
  inputs e !! prop = None ->
  localStorage (saveSettings e) !! key = localStorage e !! key.
Proof.
  intros Hfield Hv. unfold saveSettings. rewrite emit_storage.
  cbn [localStorage with_localStorage].
  apply setItems_untouched. intros Hin.
  apply list_elem_of_fmap in Hin as ([k v'] & -> & Hin). cbn in Hin.
  eapply text_field_only_call in Hin; [| done]. congruence.
Qed.

Lemma saveSettings_inputs e : inputs (saveSettings e) = inputs e.
Proof. reflexivity. Qed.
Lemma saveSettings_document e : document (saveSettings e) = document e.
Proof. reflexivity. Qed.
Lemma saveSettings_this e : this (saveSettings e) = this e.
Proof. reflexivity. Qed.
Lemma saveSettings_stateManager e : stateManager (saveSettings e) = stateManager e.
Proof. reflexivity. Qed.

(** [setCurrentProtocol] and [setSendLatencyMs] *)
Definition setCurrentProtocol (protocol : string) (e : Env) : Env :=
  e |> with_this (fun t => {| currentProtocol := protocol;
                              sendLatencyMs := sendLatencyMs t |})
    |> stateManager_set "currentProtocol" (SStr protocol).

Definition setSendLatencyMs (latencyMs : jsnum) (e : Env) : Env :=
  e |> with_this (fun t => {| currentProtocol := currentProtocol t;
                              sendLatencyMs := latencyMs |})
    |> stateManager_set "sendLatencyMs" (SNum latencyMs).

(** What [if (input) { ...; if (saved) input.value = saved; }] leaves in
    an input holding [old]. *)
Definition restored (old saved : option string) : option string :=
  match old with
  | Some o =>
      Some (match saved with
            | Some v => if String.eqb v "" then o else v
            | None => o
            end)
  | None => None
  end.

Section LoadInputs.

Variable parseInt : string -> jsnum.
Variable updateProtocolUI : option (gmap string bool -> gmap string bool).

Lemma load_protocol_inputs e :
  inputs (load_protocol updateProtocolUI e) = inputs e.
Proof. unfold load_protocol. by repeat case_match. Qed.

Lemma load_input_inputs_ne prop key e q :
  q <> prop -> inputs (load_input prop key e) !! q = inputs e !! q.
Proof.
  intros Hq. unfold load_input. repeat case_match; try done.
  cbn. by apply lookup_insert_ne.
Qed.

Lemma load_input_inputs_eq prop key e :
  inputs (load_input prop key e) !! prop
  = restored (inputs e !! prop) (localStorage e !! key).
Proof.
  unfold load_input, restored.
  destruct (inputs e !! prop) as [old |] eqn:Hold; [| done].
  destruct (localStorage e !! key) as [saved |]; [| done].
  destruct (String.eqb saved ""); [done |].
  cbn. apply lookup_insert_eq.
Qed.

Lemma load_int_inputs i e : inputs (load_int i e) = inputs e.
Proof. unfold load_int. by repeat case_match. Qed.

Lemma load_loop_inputs l e : inputs (load_loop l e) = inputs e.
Proof.
  revert e. induction l as [|i l IH]; intros e; [done |].
  rewrite load_loop_cons, IH. apply load_int_inputs.
Qed.

Lemma load_autoSend_inputs e : inputs (load_autoSend e) = inputs e.
Proof. unfold load_autoSend. by repeat case_match. Qed.

Lemma load_debugMode_inputs e : inputs (load_debugMode e) = inputs e.
Proof. unfold load_debugMode. by repeat case_match. Qed.

Lemma load_sendLatency_inputs_ne e q :
  q <> "sendLatencyInput" ->
  inputs (load_sendLatency parseInt e) !! q = inputs e !! q.
Proof.
  intros Hq. unfold load_sendLatency. repeat case_match; try done.
  cbn. by apply lookup_insert_ne.
Qed.

Lemma load_sendLatency_inputs_eq e :
  inputs (load_sendLatency parseInt e) !! "sendLatencyInput"
  = match inputs e !! "sendLatencyInput", localStorage e !! "send-latency-ms" with
    | Some _, Some saved => Some saved
    | old, _ => old
    end.
Proof.
  unfold load_sendLatency.
  destruct (inputs e !! "sendLatencyInput") as [old |] eqn:Hold; [| done].
  destruct (localStorage e !! "send-latency-ms") as [saved |]; [| done].
  cbn. apply lookup_insert_eq.
Qed.

Lemma emit_inputs ev e : inputs (emit ev e) = inputs e.
Proof. reflexivity. Qed.
Lemma logger_info_inputs msg e : inputs (logger_info msg e) = inputs e.
Proof. reflexivity. Qed.

(** Rewrites a lookup in the inputs or the storage of a later stage
    of [loadSettings] to the stage before. *)
Ltac back :=
  repeat first
    [ rewrite logger_info_inputs | rewrite emit_inputs
    | rewrite load_debugMode_inputs | rewrite load_autoSend_inputs
    | rewrite load_loop_inputs | rewrite load_protocol_inputs
    | rewrite load_sendLatency_inputs_ne by done
    | rewrite load_input_inputs_ne by done
    | rewrite logger_info_storage | rewrite emit_storage
    | rewrite load_sendLatency_storage | rewrite load_debugMode_storage
    | rewrite load_autoSend_storage | rewrite load_loop_storage
    | rewrite load_input_storage | rewrite load_protocol_storage ].

(** Each connection input is assigned by its own statement alone. *)
Lemma loadSettings_connection_field e prop key :
  (prop, key) ∈ connection_fields ->
  inputs (loadSettings parseInt updateProtocolUI e) !! prop
  = restored (inputs e !! prop) (localStorage e !! key).
Proof.
  intros Hfield. unfold loadSettings, load_ints.
  unfold connection_fields in Hfield.
  repeat (apply elem_of_cons in Hfield as [Hfield | Hfield]);
    [.. | by apply elem_of_nil in Hfield]; injection Hfield as -> ->.
  all: back; rewrite load_input_inputs_eq; back; reflexivity.
Qed.

Lemma loadSettings_sendLatencyInput e :
  inputs (loadSettings parseInt updateProtocolUI e) !! "sendLatencyInput"
  = match inputs e !! "sendLatencyInput", localStorage e !! "send-latency-ms" with
    | Some _, Some saved => Some saved
    | old, _ => old
    end.
Proof.
  unfold loadSettings, load_ints.
  back. rewrite load_sendLatency_inputs_eq. back. reflexivity.
Qed.

Lemma loadSettings_other_input e q :
  q ∉ text_fields.*1 ->
  inputs (loadSettings parseInt updateProtocolUI e) !! q = inputs e !! q.
Proof.
  intros Hq. unfold loadSettings, load_ints.
  cbn in Hq. rewrite !not_elem_of_cons in Hq.
  destruct Hq as (? & ? & ? & ? & ? & ? & ? & _).
  by back.
Qed.

End LoadInputs.

(** X14: In a window sharing the storage, [loadSettings] puts a value that
    [saveSettings] stored for one of the six connection inputs back into
    the input when that value is not empty, and keeps what the input
    holds when the stored value is the empty string. *)
Theorem connection_field_round_trip
    (parseInt : string -> jsnum)
    (updateProtocolUI : option (gmap string bool -> gmap string bool))
    (e1 e2 : Env) (prop key v old : string) :
  (prop, key) ∈ connection_fields ->
  inputs e1 !! prop = Some v ->
  localStorage e2 = localStorage (saveSettings e1) ->
  inputs e2 !! prop = Some old ->
  inputs (loadSettings parseInt updateProtocolUI e2) !! prop
  = Some (if String.eqb v "" then old else v).
Proof.
  intros Hfield Hv Hstorage Hold.
  rewrite (loadSettings_connection_field _ _ _ _ key) by done.
  rewrite Hold, Hstorage.
  erewrite saved_text_field; [done | | done].
  unfold text_fields. apply elem_of_app. by left.
Qed.

Lemma connection_field_round_trip_witness :
  inputs (loadSettings (fun _ => NaN) None
            (with_inputs (insert "tcpHostInput" "10.0.0.7")
               (saveSettings demo_env))) !! "tcpHostInput"
  = Some "localhost".
Proof.
  apply (connection_field_round_trip (fun _ => NaN) None demo_env
           (with_inputs (insert "tcpHostInput" "10.0.0.7") (saveSettings demo_env))
           "tcpHostInput" "tcp-host" "localhost" "10.0.0.7").
  - vm_compute. left.
  - reflexivity.
  - reflexivity.
  - reflexivity.
Defined.

(** *** The send latency *)

Section LoadLatency.

Variable parseInt : string -> jsnum.
Variable updateProtocolUI : option (gmap string bool -> gmap string bool).

Lemma emit_this ev e : this (emit ev e) = this e.
Proof. reflexivity. Qed.
Lemma emit_stateManager ev e : stateManager (emit ev e) = stateManager e.
Proof. reflexivity. Qed.
Lemma logger_info_this msg e : this (logger_info msg e) = this e.
Proof. reflexivity. Qed.
Lemma logger_info_stateManager msg e :
  stateManager (logger_info msg e) = stateManager e.
Proof. reflexivity. Qed.

Lemma load_sendLatency_assigns e old saved :
  inputs e !! "sendLatencyInput" = Some old ->
  localStorage e !! "send-latency-ms" = Some saved ->
  sendLatencyMs (this (load_sendLatency parseInt e)) = parseInt saved
  /\ stateManager (load_sendLatency parseInt e) !! "sendLatencyMs"
     = Some (SNum (parseInt saved)).
Proof.
  intros Hold Hsaved. unfold load_sendLatency. rewrite Hold, Hsaved. cbn.
  split; [done | apply lookup_insert_eq].
Qed.

Lemma loadSettings_latency e old saved :
  inputs e !! "sendLatencyInput" = Some old ->
  localStorage e !! "send-latency-ms" = Some saved ->
  inputs (loadSettings parseInt updateProtocolUI e) !! "sendLatencyInput"
  = Some saved
  /\ sendLatencyMs (this (loadSettings parseInt updateProtocolUI e))
     = parseInt saved
  /\ stateManager (loadSettings parseInt updateProtocolUI e) !! "sendLatencyMs"
     = Some (SNum (parseInt saved)).
Proof.
  intros Hold Hsaved. split.
  { by rewrite loadSettings_sendLatencyInput, Hold, Hsaved. }
  unfold loadSettings, load_ints.
  rewrite logger_info_this, emit_this, logger_info_stateManager, emit_stateManager.
  apply (load_sendLatency_assigns _ old).
  - rewrite load_debugMode_inputs, load_autoSend_inputs, load_loop_inputs.
    rewrite !load_input_inputs_ne by done. by rewrite load_protocol_inputs.
  - rewrite load_debugMode_storage, load_autoSend_storage, load_loop_storage.
    by rewrite !load_input_storage, load_protocol_storage.
Qed.

End LoadLatency.

(** X15: A send latency that [saveSettings] stored is taken over by
    [loadSettings] in a window sharing the storage and showing the latency
    input, whatever the text is: the input shows it, and both
    [this.sendLatencyMs] and the state manager's entry become what
    [parseInt] gives for it, with no check and no default. *)
Theorem send_latency_round_trip
    (parseInt : string -> jsnum)
    (updateProtocolUI : option (gmap string bool -> gmap string bool))
    (e1 e2 : Env) (v : string) :
  inputs e1 !! "sendLatencyInput" = Some v ->
  localStorage e2 = localStorage (saveSettings e1) ->
  is_Some (inputs e2 !! "sendLatencyInput") ->
  let e := loadSettings parseInt updateProtocolUI e2 in
  inputs e !! "sendLatencyInput" = Some v
  /\ sendLatencyMs (this e) = parseInt v
  /\ stateManager e !! "sendLatencyMs" = Some (SNum (parseInt v)).
Proof.
  intros Hv Hstorage [old Hold]. cbv zeta.
  apply (loadSettings_latency _ _ _ old); [done |].
  rewrite Hstorage. eapply saved_text_field; [| done].
  unfold text_fields. apply elem_of_app. right. by left.
Qed.

Definition settings_window : Env :=
  {| this := {| currentProtocol := "udp"; sendLatencyMs := Num 20 |};
     stateManager := {[ "currentProtocol" := SStr "udp";
                        "sendLatencyMs" := SNum (Num 20) ]};
     localStorage := {[ "protocol" := "serial"; "tcp-port" := "502" ]};
     inputs := {[ "sendLatencyInput" := ""; "tcpPortInput" := "8080" ]};
     toggles := {[ "protocolTcpRadio" := false; "protocolUdpRadio" := true ]};
     document := {[ "int-0" := "3" ]};
     events := []; log := [] |}.

Lemma send_latency_round_trip_witness :
  let e := loadSettings (fun _ => NaN) None (saveSettings settings_window) in
  inputs e !! "sendLatencyInput" = Some ""
  /\ sendLatencyMs (this e) = NaN
  /\ stateManager e !! "sendLatencyMs" = Some (SNum NaN).
Proof.
  apply (send_latency_round_trip (fun _ => NaN) None settings_window
           (saveSettings settings_window) "").
  - reflexivity.
  - reflexivity.
  - vm_compute. by eexists.
Defined.

(** *** Saving, then loading *)

Section SaveLoad.

Variable parseInt : string -> jsnum.
Variable updateProtocolUI : option (gmap string bool -> gmap string bool).

Lemma load_int_fix i e :
  (forall v, i <> 9 -> document e !! int_id i = Some v ->
             localStorage e !! int_id i = Some v) ->
  document (load_int i e) = document e.
Proof.
  intros Hsaved. unfold load_int.
  destruct (document e !! int_id i) as [v |] eqn:Hv; [| done].
  destruct (decide (i <> 9)) as [Hne | Heq]; [| done].
  rewrite (Hsaved v Hne eq_refl). cbn. by apply insert_id.
Qed.

Lemma load_loop_fix l e :
  (forall i v, i ∈ l -> i <> 9 -> document e !! int_id i = Some v ->
               localStorage e !! int_id i = Some v) ->
  document (load_loop l e) = document e.
Proof.
  revert e. induction l as [|i l IH]; intros e Hsaved; [done |].
  assert (document (load_int i e) = document e) as Hi.
  { apply load_int_fix. intros v. apply Hsaved. by left. }
  rewrite load_loop_cons, IH; [exact Hi |].
  intros j v Hj Hne. rewrite Hi, load_int_storage.
  apply Hsaved; [by right | done].
Qed.

Lemma restored_same o : restored o o = o.
Proof. destruct o as [v |]; [| done]. cbn. by destruct (String.eqb v ""). Qed.

Lemma restored_none saved : restored None saved = None.
Proof. done. Qed.

Lemma save_load_inputs e :
  inputs (loadSettings parseInt updateProtocolUI (saveSettings e)) = inputs e.
Proof.
  apply map_eq. intros q.
  destruct (decide (q ∈ text_fields.*1)) as [Hq | Hq];
    [| by rewrite loadSettings_other_input].
  apply list_elem_of_fmap in Hq as ([prop key] & -> & Hfield). cbn [fst].
  pose proof Hfield as Hsplit. unfold text_fields in Hsplit.
  apply elem_of_app in Hsplit as [Hconn | Hlat].
  - rewrite (loadSettings_connection_field _ _ _ _ key) by done.
    rewrite saveSettings_inputs.
    destruct (inputs e !! prop) as [v |] eqn:Hv; [| done].
    rewrite (saved_text_field e prop key v) by done. apply restored_same.
  - apply list_elem_of_singleton in Hlat. injection Hlat as -> ->.
    rewrite loadSettings_sendLatencyInput, saveSettings_inputs.
    destruct (inputs e !! "sendLatencyInput") as [v |] eqn:Hv; [| done].
    by rewrite (saved_text_field e "sendLatencyInput" "send-latency-ms" v).
Qed.

Lemma save_load_document e :
  document (loadSettings parseInt updateProtocolUI (saveSettings e)) = document e.
Proof.
  destruct (loadSettings_loop parseInt updateProtocolUI (saveSettings e))
    as (before & Hls & Hdoc & ->).
  rewrite load_loop_fix; [by rewrite Hdoc |].
  intros i v Hi%elem_of_seq Hne. rewrite Hdoc, Hls, saveSettings_document.
  intros Hv. unfold saveSettings. rewrite emit_storage.
  cbn [localStorage with_localStorage].
  assert ((int_id i, v) ∈ saveSettings_setItems e) as Hin
    by (apply int_written; [lia | done | done]).
  apply setItems_written; [done |].
  intros v' Hv'. apply int_key_written in Hv' as [_ Hv']. congruence.
Qed.

End SaveLoad.

(** X16: Saving and loading again on the same page changes no field of it:
    after [saveSettings] then [loadSettings] every text input of
    [elements] and every parameter input of the document holds what it
    held before. *)
Theorem save_then_load_keeps_fields
    (parseInt : string -> jsnum)
    (updateProtocolUI : option (gmap string bool -> gmap string bool))
    (e : Env) :
  inputs (loadSettings parseInt updateProtocolUI (saveSettings e)) = inputs e
  /\ document (loadSettings parseInt updateProtocolUI (saveSettings e))
     = document e.
Proof. split; [apply save_load_inputs | apply save_load_document]. Qed.

(** *** The manager's copies and the state manager *)

(** The calls a page makes on the settings manager. *)
Inductive SettingsOp :=
| OpLoad
| OpSave
| OpSetProtocol (protocol : string)
| OpSetLatency (latencyMs : jsnum).

Definition settings_step (parseInt : string -> jsnum)
    (updateProtocolUI : option (gmap string bool -> gmap string bool))
    (op : SettingsOp) (e : Env) : Env :=
  match op with
  | OpLoad => loadSettings parseInt updateProtocolUI e
  | OpSave => saveSettings e
  | OpSetProtocol protocol => setCurrentProtocol protocol e
  | OpSetLatency latencyMs => setSendLatencyMs latencyMs e
  end.

Definition settings_run (parseInt : string -> jsnum)
    (updateProtocolUI : option (gmap string bool -> gmap string bool))
    (ops : list SettingsOp) (e : Env) : Env :=
  foldl (fun e op => settings_step parseInt updateProtocolUI op e) e ops.

(** [this.currentProtocol] and [this.sendLatencyMs] are what the state
    manager holds under 'currentProtocol' and 'sendLatencyMs'. *)
Definition in_sync (e : Env) : Prop :=
  stateManager e !! "currentProtocol" = Some (SStr (currentProtocol (this e)))
  /\ stateManager e !! "sendLatencyMs" = Some (SNum (sendLatencyMs (this e))).

Section Sync.

Variable parseInt : string -> jsnum.
Variable updateProtocolUI : option (gmap string bool -> gmap string bool).

Lemma in_sync_ext e e' :
  this e' = this e -> stateManager e' = stateManager e ->
  in_sync e -> in_sync e'.
Proof. unfold in_sync. by intros -> ->. Qed.

Lemma setCurrentProtocol_sync protocol e :
  in_sync e -> in_sync (setCurrentProtocol protocol e).
Proof.
  intros [_ Hlat]. split; cbn.
  - apply lookup_insert_eq.
  - by rewrite lookup_insert_ne.
Qed.

Lemma setSendLatencyMs_sync latencyMs e :
  in_sync e -> in_sync (setSendLatencyMs latencyMs e).
Proof.
  intros [Hproto _]. split; cbn.
  - by rewrite lookup_insert_ne.
  - apply lookup_insert_eq.
Qed.

Lemma load_protocol_sync e :
  in_sync e -> in_sync (load_protocol updateProtocolUI e).
Proof.
  intros Hsync. unfold load_protocol.
  destruct (localStorage e !! "protocol") as [saved |]; [| done].
  destruct (String.eqb saved "tcp" || String.eqb saved "udp"); [| done].
  apply (in_sync_ext (setCurrentProtocol saved e));
    [| | by apply setCurrentProtocol_sync];
    cbn; by repeat case_match.
Qed.

Lemma load_input_sync prop key e : in_sync e -> in_sync (load_input prop key e).
Proof. apply in_sync_ext; unfold load_input; by repeat case_match. Qed.

Lemma load_int_sync i e : in_sync e -> in_sync (load_int i e).
Proof. apply in_sync_ext; unfold load_int; by repeat case_match. Qed.

Lemma load_loop_sync l e : in_sync e -> in_sync (load_loop l e).
Proof.
  revert e. induction l as [|i l IH]; intros e Hsync; [done |].
  rewrite load_loop_cons. by apply IH, load_int_sync.
Qed.

Lemma load_autoSend_sync e : in_sync e -> in_sync (load_autoSend e).
Proof. apply in_sync_ext; unfold load_autoSend; by repeat case_match. Qed.

Lemma load_debugMode_sync e : in_sync e -> in_sync (load_debugMode e).
Proof.
  intros [Hproto Hlat]. unfold load_debugMode.
  repeat case_match; try done.
  split; cbn; by rewrite lookup_insert_ne.
Qed.

Lemma load_sendLatency_sync e : in_sync e -> in_sync (load_sendLatency parseInt e).
Proof.
  intros Hsync. unfold load_sendLatency.
  destruct (inputs e !! "sendLatencyInput"); [| done].
  destruct (localStorage e !! "send-latency-ms") as [saved |]; [| done].
  apply (in_sync_ext (setSendLatencyMs (parseInt saved) e));
    [done | done | by apply setSendLatencyMs_sync].
Qed.

Lemma emit_sync ev e : in_sync e -> in_sync (emit ev e).
Proof. apply in_sync_ext; reflexivity. Qed.

Lemma logger_info_sync msg e : in_sync e -> in_sync (logger_info msg e).
Proof. apply in_sync_ext; reflexivity. Qed.

Lemma saveSettings_sync e : in_sync e -> in_sync (saveSettings e).
Proof. apply in_sync_ext; reflexivity. Qed.

Lemma loadSettings_sync e :
  in_sync e -> in_sync (loadSettings parseInt updateProtocolUI e).
Proof.
  intros Hsync. unfold loadSettings, load_ints.
  apply logger_info_sync, emit_sync.
  apply load_sendLatency_sync, load_debugMode_sync, load_autoSend_sync,
    load_loop_sync.
  do 6 apply load_input_sync. by apply load_protocol_sync.
Qed.

Lemma settings_step_sync op e :
  in_sync e -> in_sync (settings_step parseInt updateProtocolUI op e).
Proof.
  destruct op; cbn [settings_step].
  - apply loadSettings_sync.
  - apply saveSettings_sync.
  - apply setCurrentProtocol_sync.
  - apply setSendLatencyMs_sync.
Qed.

End Sync.

(** X17: The settings manager keeps its two copies in step with the state
    manager: if [this.currentProtocol] and [this.sendLatencyMs] equal the
    state manager's 'currentProtocol' and 'sendLatencyMs' entries, they
    still do after any sequence of [loadSettings], [saveSettings],
    [setCurrentProtocol] and [setSendLatencyMs]. *)
Theorem manager_stays_in_sync
    (parseInt : string -> jsnum)
    (updateProtocolUI : option (gmap string bool -> gmap string bool))
    (ops : list SettingsOp) (e : Env) :
  in_sync e -> in_sync (settings_run parseInt updateProtocolUI ops e).
Proof.
  revert e. induction ops as [|op ops IH]; intros e Hsync; [done |].
  apply IH. by apply settings_step_sync.
Qed.

Lemma manager_stays_in_sync_witness :
  in_sync (settings_run (fun _ => NaN) None
             [OpSetLatency (Num 50); OpSave; OpSetProtocol "tcp"; OpLoad]
             settings_window).
Proof.
  apply (manager_stays_in_sync (fun _ => NaN) None
           [OpSetLatency (Num 50); OpSave; OpSetProtocol "tcp"; OpLoad]
           settings_window).
  split; reflexivity.
Defined.

(** *** The stored protocol *)

(** What the page shows and holds of the protocol. *)
Definition protocol_view (e : Env)
    : string * option smval * option bool * option bool :=
  (currentProtocol (this e), stateManager e !! "currentProtocol",
   toggles e !! "protocolTcpRadio", toggles e !! "protocolUdpRadio").

Lemma protocol_view_eq e e' :
  protocol_view e' = protocol_view e ->
  currentProtocol (this e') = currentProtocol (this e)
  /\ stateManager e' !! "currentProtocol" = stateManager e !! "currentProtocol"
  /\ toggles e' !! "protocolTcpRadio" = toggles e !! "protocolTcpRadio"
  /\ toggles e' !! "protocolUdpRadio" = toggles e !! "protocolUdpRadio".
Proof. unfold protocol_view. intros Hview. by injection Hview. Qed.

Section LoadProtocol.

Variable parseInt : string -> jsnum.
Variable updateProtocolUI : option (gmap string bool -> gmap string bool).

Lemma load_input_view prop key e :
  protocol_view (load_input prop key e) = protocol_view e.
Proof. unfold load_input. by repeat case_match. Qed.

Lemma load_int_view i e : protocol_view (load_int i e) = protocol_view e.
Proof. unfold load_int. by repeat case_match. Qed.

Lemma load_loop_view l e : protocol_view (load_loop l e) = protocol_view e.
Proof.
  revert e. induction l as [|i l IH]; intros e; [done |].
  rewrite load_loop_cons, IH. apply load_int_view.
Qed.

Lemma load_autoSend_view e : protocol_view (load_autoSend e) = protocol_view e.
Proof.
  unfold load_autoSend. repeat case_match; try done.
  unfold protocol_view. cbn. by rewrite !lookup_insert_ne.
Qed.

Lemma load_debugMode_view e : protocol_view (load_debugMode e) = protocol_view e.
Proof.
  unfold load_debugMode. repeat case_match; try done.
  unfold protocol_view. cbn. by rewrite !lookup_insert_ne.
Qed.

Lemma load_sendLatency_view e :
  protocol_view (load_sendLatency parseInt e) = protocol_view e.
Proof.
  unfold load_sendLatency. repeat case_match; try done.
  unfold protocol_view. cbn. by rewrite !lookup_insert_ne.
Qed.

Lemma emit_view ev e : protocol_view (emit ev e) = protocol_view e.
Proof. reflexivity. Qed.

Lemma logger_info_view msg e : protocol_view (logger_info msg e) = protocol_view e.
Proof. reflexivity. Qed.

Lemma loadSettings_view e :
  protocol_view (loadSettings parseInt updateProtocolUI e)
  = protocol_view (load_protocol updateProtocolUI e).
Proof.
  unfold loadSettings, load_ints.
  rewrite logger_info_view, emit_view, load_sendLatency_view,
    load_debugMode_view, load_autoSend_view, load_loop_view.
  by rewrite !load_input_view.
Qed.

Lemma load_protocol_unknown e :
  localStorage e !! "protocol" <> Some "tcp" ->
  localStorage e !! "protocol" <> Some "udp" ->
  load_protocol updateProtocolUI e = e.
Proof.
  intros Htcp Hudp. unfold load_protocol.
  destruct (localStorage e !! "protocol") as [saved |]; [| done].
  destruct (String.eqb_spec saved "tcp") as [-> | _]; [done |].
  destruct (String.eqb_spec saved "udp") as [-> | _]; done.
Qed.

End LoadProtocol.

(** X18: [loadSettings] takes a stored protocol over only when it is 'tcp'
    or 'udp'.  With anything else under 'protocol', or nothing, the
    manager's protocol, the state manager's 'currentProtocol' entry and
    both protocol radios stay as they were. *)
Theorem unknown_stored_protocol_ignored
    (parseInt : string -> jsnum)
    (updateProtocolUI : option (gmap string bool -> gmap string bool))
    (e : Env) :
  localStorage e !! "protocol" <> Some "tcp" ->
  localStorage e !! "protocol" <> Some "udp" ->
  let e' := loadSettings parseInt updateProtocolUI e in
  currentProtocol (this e') = currentProtocol (this e)
  /\ stateManager e' !! "currentProtocol" = stateManager e !! "currentProtocol"
  /\ toggles e' !! "protocolTcpRadio" = toggles e !! "protocolTcpRadio"
  /\ toggles e' !! "protocolUdpRadio" = toggles e !! "protocolUdpRadio".
Proof.
  intros Htcp Hudp e'. subst e'. apply protocol_view_eq.
  by rewrite loadSettings_view, load_protocol_unknown.
Qed.

Lemma unknown_stored_protocol_ignored_witness :
  let e' := loadSettings (fun _ => NaN) None settings_window in
  currentProtocol (this e') = "udp"
  /\ stateManager e' !! "currentProtocol" = Some (SStr "udp")
  /\ toggles e' !! "protocolTcpRadio" = Some false
  /\ toggles e' !! "protocolUdpRadio" = Some true.
Proof.
  apply (unknown_stored_protocol_ignored (fun _ => NaN) None settings_window);
    vm_compute; discriminate.
Defined.

End Settings.

(* ===================================================================== *)
(** ** Logger *)
(* ===================================================================== *)

Module Logger.

Local Open Scope Z_scope.

(** A [div] appended to the log container. *)
Record LogEntry := {
  className : string;
  textContent : string
}.

(** The logger's fields; [logContainer] holds the container's children,
    oldest first, and is [None] until [init] is given one.
    [maxLogEntries] is taken over the integers. *)
Record Logger := {
  logContainer : option (list LogEntry);
  maxLogEntries : Z;
  consoleEnabled : bool
}.

(** The logger with what it writes to: the [LOG_MESSAGE] events emitted
    on the event bus, with their message and type, and the console
    calls, with the method's name and the line. *)
Record World := {
  logger : Logger;
  events : list (string * string);
  console : list (string * string)
}.

(** How a call ends: it returns, or [removeChild] throws its
    [TypeError] for not being given a node. *)
Inductive Completion := Returns | TypeError.

Definition constructor : Logger :=
  {| logContainer := None; maxLogEntries := 100; consoleEnabled := true |}.

Definition with_logger (f : Logger -> Logger) (w : World) : World :=
  {| logger := f (logger w); events := events w; console := console w |}.

Definition set_children (children : option (list LogEntry)) (l : Logger) : Logger :=
  {| logContainer := children; maxLogEntries := maxLogEntries l;
     consoleEnabled := consoleEnabled l |}.

Definition init (container : list LogEntry) (w : World) : World :=
  with_logger (set_children (Some container)) w.

Definition setMaxEntries (max : Z) (w : World) : World :=
  with_logger (fun l => {| logContainer := logContainer l; maxLogEntries := max;
                           consoleEnabled := consoleEnabled l |}) w.

Definition setConsoleEnabled (enabled : bool) (w : World) : World :=
  with_logger (fun l => {| logContainer := logContainer l;
                           maxLogEntries := maxLogEntries l;
                           consoleEnabled := enabled |}) w.

Definition emit (message type : string) (w : World) : World :=
  {| logger := logger w; events := events w ++ [(message, type)];
     console := console w |}.

Definition console_call (method line : string) (w : World) : World :=
  {| logger := logger w; events := events w;
     console := console w ++ [(method, line)] |}.

Definition consoleMethod (type : string) : string :=
  if String.eqb type "error" then "error"
  else if String.eqb type "warning" then "warn" else "log".

(** The [while] loop of [trimLogEntries] on the children: each turn
    removes [firstChild], which is [null] once no child is left. *)
Fixpoint trim_loop (max : Z) (children : list LogEntry)
    : Completion * list LogEntry :=
  match children with
  | [] => if 0 >? max then (TypeError, []) else (Returns, [])
  | firstChild :: rest =>
      if Z.of_nat (length children) >? max then trim_loop max rest
      else (Returns, children)
  end.

Definition trimLogEntries (w : World) : Completion * World :=
  match logContainer (logger w) with
  | None => (Returns, w)
  | Some children =>
      let '(c, children) := trim_loop (maxLogEntries (logger w)) children in
      (c, with_logger (set_children (Some children)) w)
  end.

(** The text of an entry; [timestamp] is what
    [new Date().toLocaleTimeString()] gives at the call. *)
Definition entry_text (timestamp message : string) : string :=
  "[" +:+ timestamp +:+ "] " +:+ message.

(** [log(message, type)], at a moment the clock reads [timestamp]; the
    container's scroll position is left out. *)
Definition log (timestamp message type : string) (w : World)
    : Completion * World :=
  let w := emit message type w in
  let w :=
    if consoleEnabled (logger w)
    then console_call (consoleMethod type) ("[" +:+ type +:+ "] " +:+ message) w
    else w in
  match logContainer (logger w) with
  | None => (Returns, w)
  | Some children =>
      let logEntry := {| className := "log-entry " +:+ type;
                         textContent := entry_text timestamp message |} in
      trimLogEntries
        (with_logger (set_children (Some (children ++ [logEntry]))) w)
  end.

Definition info (timestamp message : string) := log timestamp message "info".
Definition success (timestamp message : string) := log timestamp message "success".
Definition error (timestamp message : string) := log timestamp message "error".
Definition warning (timestamp message : string) := log timestamp message "warning".

Definition clear (w : World) : World :=
  match logContainer (logger w) with
  | Some _ => with_logger (set_children (Some [])) w
  | None => w
  end.

Definition getLogs (w : World) : list string :=
  match logContainer (logger w) with
  | None => []
  | Some children => textContent <$> children
  end.

(** [Array.prototype.join] *)
Fixpoint join (sep : string) (l : list string) : string :=
  match l with
  | [] => ""
  | [x] => x
  | x :: rest => x +:+ sep +:+ join sep rest
  end.

Definition newline : string := String (ascii_of_nat 10) EmptyString.

Definition exportLogs (w : World) : string := join newline (getLogs w).

(** A run of [log] calls, each with the clock's reading, its message and
    its type; a call that throws ends the run. *)
Fixpoint log_all (calls : list (string * string * string)) (w : World)
    : Completion * World :=
  match calls with
  | [] => (Returns, w)
  | (timestamp, message, type) :: calls =>
      match log timestamp message type w with
      | (Returns, w) => log_all calls w
      | thrown => thrown
      end
  end.

(** The last [n] elements. *)
Definition keep_last {A} (n : nat) (l : list A) : list A :=
  drop (length l - n)%nat l.

Definition call_text (call : string * string * string) : string :=
  entry_text call.1.1 call.1.2.

Definition demo_world : World :=
  {| logger := {| logContainer := Some [ {| className := "log-entry info";
                                            textContent := "[09:00:00] started" |} ];
                  maxLogEntries := 2; consoleEnabled := true |};
     events := []; console := [] |}.

(** *** The loop *)

Lemma trim_loop_keeps max children :
  0 <= max ->
  trim_loop max children = (Returns, keep_last (Z.to_nat max) children).
Proof.
  intros Hmax. unfold keep_last.
  induction children as [|c rest IH]; cbn [trim_loop].
  - by destruct (Z.gtb_spec 0 max); [lia |].
  - destruct (Z.gtb_spec (Z.of_nat (length (c :: rest))) max) as [Hgt | Hle].
    + rewrite IH. f_equal. cbn [length] in *.
      replace (S (length rest) - Z.to_nat max)%nat
        with (S (length rest - Z.to_nat max)) by lia.
      done.
    + replace (length (c :: rest) - Z.to_nat max)%nat with 0%nat by lia.
      done.
Qed.

Lemma trim_loop_throws max children :
  max < 0 -> trim_loop max children = (TypeError, []).
Proof.
  intros Hmax. induction children as [|c rest IH]; cbn [trim_loop].
  - by destruct (Z.gtb_spec 0 max); [| lia].
  - destruct (Z.gtb_spec (Z.of_nat (length (c :: rest))) max); [done | lia].
Qed.

Lemma keep_last_length {A} n (l : list A) : (length (keep_last n l) <= n)%nat.
Proof. unfold keep_last. rewrite length_drop. lia. Qed.

Lemma keep_last_snoc {A} n (l : list A) x :
  keep_last n (keep_last n l ++ [x]) = keep_last n (l ++ [x]).
Proof.
  unfold keep_last.
  destruct (decide (n = 0)%nat) as [-> | Hn].
  { rewrite !drop_ge; [done | lia | lia]. }
  rewrite !length_app, length_drop. cbn [length].
  destruct (decide (length l <= n)%nat) as [Hle | Hgt].
  - replace (length l - n)%nat with 0%nat by lia. rewrite drop_0.
    f_equal. lia.
  - rewrite (drop_app_le l [x]) by lia.
    rewrite drop_app_le by (rewrite length_drop; lia).
    rewrite drop_drop. f_equal. f_equal. lia.
Qed.

(** *** One call *)

Definition announced (message type : string) (w : World) : World :=
  let w := emit message type w in
  if consoleEnabled (logger w)
  then console_call (consoleMethod type) ("[" +:+ type +:+ "] " +:+ message) w
  else w.

Lemma announced_logger message type w : logger (announced message type w) = logger w.
Proof. unfold announced. cbn. by destruct (consoleEnabled (logger w)). Qed.

Lemma announced_events message type w :
  events (announced message type w) = events w ++ [(message, type)].
Proof. unfold announced. cbn. by destruct (consoleEnabled (logger w)). Qed.

Lemma announced_console message type w :
  console (announced message type w)
  = console w ++ (if consoleEnabled (logger w)
                  then [(consoleMethod type, "[" +:+ type +:+ "] " +:+ message)]
                  else []).
Proof.
  unfold announced. cbn. destruct (consoleEnabled (logger w)); cbn; [done |].
  by rewrite app_nil_r.
Qed.

Lemma log_with_container timestamp message type w children :
  logContainer (logger w) = Some children ->
  log timestamp message type w
  = let '(c, kept) :=
      trim_loop (maxLogEntries (logger w))
        (children ++ [ {| className := "log-entry " +:+ type;
                          textContent := entry_text timestamp message |} ]) in
    (c, with_logger (set_children (Some kept)) (announced message type w)).
Proof.
  intros Hc. unfold log. fold (announced message type w).
  rewrite announced_logger, Hc. unfold trimLogEntries. cbn.
  rewrite announced_logger. by destruct (trim_loop _ _).
Qed.

Lemma log_keeps timestamp message type w children :
  0 <= maxLogEntries (logger w) ->
  logContainer (logger w) = Some children ->
  exists w',
    log timestamp message type w = (Returns, w')
    /\ maxLogEntries (logger w') = maxLogEntries (logger w)
    /\ logContainer (logger w')
       = Some (keep_last (Z.to_nat (maxLogEntries (logger w)))
                 (children ++ [ {| className := "log-entry " +:+ type;
                                   textContent := entry_text timestamp message |} ])).
Proof.
  intros Hmax Hc. rewrite (log_with_container _ _ _ _ children) by done.
  rewrite trim_loop_keeps by done. eexists. split; [reflexivity |].
  cbn. by rewrite announced_logger.
Qed.

Lemma keep_last_fmap {A B} (f : A -> B) n l :
  f <$> keep_last n l = keep_last n (f <$> l).
Proof. unfold keep_last. by rewrite fmap_drop, length_fmap. Qed.

Lemma keep_last_app {A} n (l k : list A) :
  keep_last n (keep_last n l ++ k) = keep_last n (l ++ k).
Proof.
  induction k as [|y k IH] using rev_ind.
  - rewrite !app_nil_r. unfold keep_last at 1.
    pose proof (keep_last_length n l).
    replace (length (keep_last n l) - n)%nat with 0%nat by lia. done.
  - rewrite !(assoc_L (++)), <- keep_last_snoc, IH. apply keep_last_snoc.
Qed.

Lemma texts_step n children timestamp message type rest :
  keep_last n
    ((textContent <$>
        keep_last n
          (children ++ [ {| className := "log-entry " +:+ type;
                            textContent := entry_text timestamp message |} ]))
     ++ rest)
  = keep_last n
      ((textContent <$> children) ++ entry_text timestamp message :: rest).
Proof.
  rewrite keep_last_fmap, keep_last_app, fmap_app. cbn [fmap list_fmap textContent].
  by rewrite <- (assoc_L (++)).
Qed.

Lemma log_all_keeps calls : forall w children,
  0 <= maxLogEntries (logger w) ->
  logContainer (logger w) = Some children ->
  (length children <= Z.to_nat (maxLogEntries (logger w)))%nat ->
  exists w',
    log_all calls w = (Returns, w')
    /\ getLogs w'
       = keep_last (Z.to_nat (maxLogEntries (logger w)))
           ((textContent <$> children) ++ (call_text <$> calls)).
Proof.
  induction calls as [|[[timestamp message] type] calls IH];
    intros w children Hmax Hc Hlen.
  - exists w. split; [done |]. unfold getLogs, keep_last. rewrite Hc, app_nil_r.
    rewrite length_fmap.
    replace (length children - _)%nat with 0%nat by lia. done.
  - destruct (log_keeps timestamp message type w children Hmax Hc)
      as (w1 & Hlog & Hmax1 & Hc1).
    destruct (IH w1 _ ltac:(by rewrite Hmax1) Hc1) as (w' & Hrun & Hlogs).
    { rewrite Hmax1. apply keep_last_length. }
    exists w'. cbn [log_all]. rewrite Hlog. split; [done |].
    rewrite Hlogs, Hmax1. apply texts_step.
Qed.

(** X19: With a container and a limit that is not negative, [log] calls
    never throw and the container ends up holding the most recent
    entries, as many as the limit allows, oldest first: [getLogs] returns
    the last [maxLogEntries] of the texts it held followed by the texts
    logged since. *)
Theorem log_keeps_most_recent
    (calls : list (string * string * string)) (w : World)
    (children : list LogEntry) :
  0 <= maxLogEntries (logger w) ->
  logContainer (logger w) = Some children ->
  calls <> [] ->
  exists w',
    log_all calls w = (Returns, w')
    /\ getLogs w'
       = keep_last (Z.to_nat (maxLogEntries (logger w)))
           ((textContent <$> children) ++ (call_text <$> calls))
    /\ (length (getLogs w') <= Z.to_nat (maxLogEntries (logger w)))%nat.
Proof.
  intros Hmax Hc Hcalls.
  destruct calls as [|[[timestamp message] type] calls]; [done |].
  destruct (log_keeps timestamp message type w children Hmax Hc)
    as (w1 & Hlog & Hmax1 & Hc1).
  destruct (log_all_keeps calls w1 _ ltac:(by rewrite Hmax1) Hc1)
    as (w' & Hrun & Hlogs).
  { rewrite Hmax1. apply keep_last_length. }
  exists w'. cbn [log_all]. rewrite Hlog. split; [done |].
  rewrite Hlogs, Hmax1.
  split; [apply texts_step | apply keep_last_length].
Qed.

Lemma log_keeps_most_recent_witness :
  exists w',
    log_all [("09:00:01", "connecting", "info"); ("09:00:02", "refused", "error")]
      demo_world = (Returns, w')
    /\ getLogs w' = ["[09:00:01] connecting"; "[09:00:02] refused"]
    /\ (length (getLogs w') <= 2)%nat.
Proof.
  apply (log_keeps_most_recent
           [("09:00:01", "connecting", "info"); ("09:00:02", "refused", "error")]
           demo_world
           [ {| className := "log-entry info";
                textContent := "[09:00:00] started" |} ]).
  - vm_compute. discriminate.
  - reflexivity.
  - discriminate.
Defined.

(** X20: With a container and a negative limit, [log] throws: it emits
    the event and writes the console line, appends the entry, and the loop
    of [trimLogEntries] then removes every child and asks [removeChild]
    for one more.  The container is left empty. *)
Theorem negative_limit_log_throws
    (timestamp message type : string) (w : World) (children : list LogEntry) :
  maxLogEntries (logger w) < 0 ->
  logContainer (logger w) = Some children ->
  exists w',
    log timestamp message type w = (TypeError, w')
    /\ events w' = events w ++ [(message, type)]
    /\ getLogs w' = [].
Proof.
  intros Hmax Hc. rewrite (log_with_container _ _ _ _ children) by done.
  rewrite trim_loop_throws by done. eexists. split; [reflexivity |].
  split; [apply announced_events | done].
Qed.

Lemma negative_limit_log_throws_witness :
  exists w',
    log "09:00:01" "connecting" "info" (setMaxEntries (-1) demo_world)
    = (TypeError, w')
    /\ events w' = [("connecting", "info")]
    /\ getLogs w' = [].
Proof.
  apply (negative_limit_log_throws "09:00:01" "connecting" "info"
           (setMaxEntries (-1) demo_world)
           [ {| className := "log-entry info";
                textContent := "[09:00:00] started" |} ]).
  - vm_compute. reflexivity.
  - reflexivity.
Defined.

(** X21: Without a container, which is how the logger is until [init],
    [log] still emits its event and writes to the console when that is
    enabled, with [console.error] for 'error', [console.warn] for
    'warning' and [console.log] for every other type; it keeps no entry,
    so [getLogs] is empty and [exportLogs] the empty string. *)
Theorem log_without_container
    (timestamp message type : string) (w : World) :
  logContainer (logger w) = None ->
  exists w',
    log timestamp message type w = (Returns, w')
    /\ logger w' = logger w
    /\ events w' = events w ++ [(message, type)]
    /\ console w'
       = console w ++ (if consoleEnabled (logger w)
                       then [(consoleMethod type, "[" +:+ type +:+ "] " +:+ message)]
                       else [])
    /\ getLogs w' = [] /\ exportLogs w' = "".
Proof.
  intros Hc. exists (announced message type w).
  split.
  { unfold log. fold (announced message type w).
    by rewrite announced_logger, Hc. }
  split; [apply announced_logger |].
  split; [apply announced_events |].
  split; [apply announced_console |].
  unfold exportLogs, getLogs. by rewrite announced_logger, Hc.
Qed.

Lemma log_without_container_witness :
  exists w',
    log "09:00:01" "refused" "error"
      {| logger := constructor; events := []; console := [] |}
    = (Returns, w')
    /\ logger w' = constructor
    /\ events w' = [("refused", "error")]
    /\ console w' = [("error", "[error] refused")]
    /\ getLogs w' = [] /\ exportLogs w' = "".
Proof.
  apply (log_without_container "09:00:01" "refused" "error"
           {| logger := constructor; events := []; console := [] |}).
  reflexivity.
Defined.

End Logger.

(* ===================================================================== *)
(** ** Theme manager *)
(* ===================================================================== *)

Module Theme.

(** How the promise of an IPC call settles. *)
Inductive Settled (A : Type) := Resolved (value : A) | Rejected.
Arguments Resolved {A} value.
Arguments Rejected {A}.

(** What [window.electronAPI] offers of the theme calls, each [None] when
    the page runs without it: how [getTheme()] settles, how
    [setTheme(theme)] settles, and whether [onThemeChanged] exists. *)
Record ElectronAPI := {
  getTheme : option (Settled string);
  setTheme : option (string -> Settled unit);
  onThemeChanged : bool
}.

(** The manager's [currentTheme] and the page: whether the root element
    has the class 'bright-theme', the stored items, the [style.display]
    of the two icons ([None] for an icon the page does not have) and
    whether the toggle button exists; then what the manager sends out: the
    [setTheme] calls, the 'themeChanged' events dispatched on the window
    and the console warnings.  [currentTheme] is [null] in the
    constructor, which no method reads: [init] starts by assigning it. *)
Record World := {
  currentTheme : string;
  bright_theme : bool;
  localStorage : gmap string string;
  moonIcon : option string;
  sunIcon : option string;
  toggleBtn : bool;
  setTheme_calls : list string;
  dispatched : list string;
  warnings : list string
}.

Definition set_currentTheme (theme : string) (w : World) : World :=
  {| currentTheme := theme; bright_theme := bright_theme w;
     localStorage := localStorage w; moonIcon := moonIcon w;
     sunIcon := sunIcon w; toggleBtn := toggleBtn w;
     setTheme_calls := setTheme_calls w; dispatched := dispatched w;
     warnings := warnings w |}.
Definition set_bright_theme (b : bool) (w : World) : World :=
  {| currentTheme := currentTheme w; bright_theme := b;
     localStorage := localStorage w; moonIcon := moonIcon w;
     sunIcon := sunIcon w; toggleBtn := toggleBtn w;
     setTheme_calls := setTheme_calls w; dispatched := dispatched w;
     warnings := warnings w |}.
Definition setItem (key value : string) (w : World) : World :=
  {| currentTheme := currentTheme w; bright_theme := bright_theme w;
     localStorage := <[key := value]> (localStorage w); moonIcon := moonIcon w;
     sunIcon := sunIcon w; toggleBtn := toggleBtn w;
     setTheme_calls := setTheme_calls w; dispatched := dispatched w;
     warnings := warnings w |}.
Definition set_icons (moon sun : string) (w : World) : World :=
  {| currentTheme := currentTheme w; bright_theme := bright_theme w;
     localStorage := localStorage w; moonIcon := Some moon;
     sunIcon := Some sun; toggleBtn := toggleBtn w;
     setTheme_calls := setTheme_calls w; dispatched := dispatched w;
     warnings := warnings w |}.
Definition call_setTheme (theme : string) (w : World) : World :=
  {| currentTheme := currentTheme w; bright_theme := bright_theme w;
     localStorage := localStorage w; moonIcon := moonIcon w;
     sunIcon := sunIcon w; toggleBtn := toggleBtn w;
     setTheme_calls := setTheme_calls w ++ [theme]; dispatched := dispatched w;
     warnings := warnings w |}.
Definition dispatchEvent (theme : string) (w : World) : World :=
  {| currentTheme := currentTheme w; bright_theme := bright_theme w;
     localStorage := localStorage w; moonIcon := moonIcon w;
     sunIcon := sunIcon w; toggleBtn := toggleBtn w;
     setTheme_calls := setTheme_calls w; dispatched := dispatched w ++ [theme];
     warnings := warnings w |}.
Definition warn (msg : string) (w : World) : World :=
  {| currentTheme := currentTheme w; bright_theme := bright_theme w;
     localStorage := localStorage w; moonIcon := moonIcon w;
     sunIcon := sunIcon w; toggleBtn := toggleBtn w;
     setTheme_calls := setTheme_calls w; dispatched := dispatched w;
     warnings := warnings w ++ [msg] |}.

(** [localStorage.getItem('theme') || 'dark'] *)
Definition stored_or_dark (w : World) : string :=
  match localStorage w !! "theme" with
  | Some theme => if String.eqb theme "" then "dark" else theme
  | None => "dark"
  end.

Section ThemeManager.

Variable electronAPI : ElectronAPI.

Definition loadTheme (w : World) : World :=
  match getTheme electronAPI with
  | Some (Resolved theme) => set_currentTheme theme w
  | Some Rejected =>
      let w := warn "Failed to load theme from IPC, using localStorage:" w in
      set_currentTheme (stored_or_dark w) w
  | None => set_currentTheme (stored_or_dark w) w
  end.

Definition saveTheme (theme : string) (w : World) : World :=
  let w := setItem "theme" theme w in
  match setTheme electronAPI with
  | Some call =>
      let w := call_setTheme theme w in
      match call theme with
      | Resolved _ => w
      | Rejected => warn "Failed to sync theme via IPC:" w
      end
  | None => w
  end.

Definition applyTheme (theme : string) (shouldBroadcast : bool) (w : World)
    : World :=
  let w := set_bright_theme (String.eqb theme "bright") w in
  let w := set_currentTheme theme w in
  let w := if shouldBroadcast then saveTheme theme w
           else setItem "theme" theme w in
  dispatchEvent theme w.

Definition updateIcon (w : World) : World :=
  match moonIcon w, sunIcon w with
  | Some _, Some _ =>
      if String.eqb (currentTheme w) "dark" then set_icons "block" "none" w
      else set_icons "none" "block" w
  | _, _ => w
  end.

Definition toggleTheme (w : World) : World :=
  let newTheme := if String.eqb (currentTheme w) "dark" then "bright" else "dark" in
  updateIcon (applyTheme newTheme true w).

(** The callback [setupThemeListener] registers. *)
Definition theme_changed (theme : string) (w : World) : World :=
  if String.eqb theme (currentTheme w) then w
  else updateIcon (applyTheme theme false w).

(** [init]; its two listeners are the [Click] and [Remote] steps below. *)
Definition init (w : World) : World :=
  let w := loadTheme w in
  let w := applyTheme (currentTheme w) false w in
  updateIcon w.

(** What happens to the page once [init] is done: the toggle button is
    clicked, or the main process announces a theme set in another
    window. *)
Inductive Op := Click | Remote (theme : string).

Definition step (op : Op) (w : World) : World :=
  match op with
  | Click => if toggleBtn w then toggleTheme w else w
  | Remote theme =>
      if onThemeChanged electronAPI then theme_changed theme w else w
  end.

Definition run (ops : list Op) (w : World) : World :=
  foldl (fun w op => step op w) w ops.

End ThemeManager.

(** The page shows the manager's theme: the root has 'bright-theme'
    exactly for 'bright', the stored theme is the current one, and the
    icons, when the page has both, show the moon for 'dark' and the sun
    otherwise. *)
Definition shows_theme (w : World) : Prop :=
  bright_theme w = String.eqb (currentTheme w) "bright"
  /\ localStorage w !! "theme" = Some (currentTheme w)
  /\ (is_Some (moonIcon w) -> is_Some (sunIcon w) ->
      (moonIcon w, sunIcon w)
      = if String.eqb (currentTheme w) "dark"
        then (Some "block", Some "none") else (Some "none", Some "block")).

Definition is_click (op : Op) : bool :=
  match op with Click => true | Remote _ => false end.

(** The clicks among the steps. *)
Fixpoint clicks (ops : list Op) : nat :=
  match ops with
  | [] => 0
  | Click :: ops => S (clicks ops)
  | Remote _ :: ops => clicks ops
  end.

Definition demo_api : ElectronAPI :=
  {| getTheme := Some Rejected; setTheme := Some (fun _ => Resolved tt);
     onThemeChanged := true |}.

Definition demo_page : World :=
  {| currentTheme := ""; bright_theme := true; localStorage := ∅;
     moonIcon := Some ""; sunIcon := Some ""; toggleBtn := true;
     setTheme_calls := []; dispatched := []; warnings := [] |}.

Section ThemeFacts.

Variable electronAPI : ElectronAPI.

Lemma saveTheme_page theme w :
  currentTheme (saveTheme electronAPI theme w) = currentTheme w
  /\ bright_theme (saveTheme electronAPI theme w) = bright_theme w
  /\ localStorage (saveTheme electronAPI theme w)
     = <["theme" := theme]> (localStorage w)
  /\ moonIcon (saveTheme electronAPI theme w) = moonIcon w
  /\ sunIcon (saveTheme electronAPI theme w) = sunIcon w
  /\ toggleBtn (saveTheme electronAPI theme w) = toggleBtn w.
Proof.
  unfold saveTheme. destruct (setTheme electronAPI) as [call |]; [| done].
  by destruct (call theme).
Qed.

Lemma applyTheme_page theme shouldBroadcast w :
  currentTheme (applyTheme electronAPI theme shouldBroadcast w) = theme
  /\ bright_theme (applyTheme electronAPI theme shouldBroadcast w)
     = String.eqb theme "bright"
  /\ localStorage (applyTheme electronAPI theme shouldBroadcast w)
     = <["theme" := theme]> (localStorage w)
  /\ moonIcon (applyTheme electronAPI theme shouldBroadcast w) = moonIcon w
  /\ sunIcon (applyTheme electronAPI theme shouldBroadcast w) = sunIcon w
  /\ toggleBtn (applyTheme electronAPI theme shouldBroadcast w) = toggleBtn w.
Proof.
  unfold applyTheme. destruct shouldBroadcast; [| done]. cbn.
  pose proof (saveTheme_page theme
    (set_currentTheme theme (set_bright_theme (String.eqb theme "bright") w)))
    as (-> & -> & -> & -> & -> & ->).
  done.
Qed.

Lemma updateIcon_page w :
  currentTheme (updateIcon w) = currentTheme w
  /\ bright_theme (updateIcon w) = bright_theme w
  /\ localStorage (updateIcon w) = localStorage w
  /\ toggleBtn (updateIcon w) = toggleBtn w
  /\ setTheme_calls (updateIcon w) = setTheme_calls w.
Proof. unfold updateIcon. by repeat case_match. Qed.

Lemma updateIcon_icons w :
  is_Some (moonIcon w) -> is_Some (sunIcon w) ->
  (moonIcon (updateIcon w), sunIcon (updateIcon w))
  = if String.eqb (currentTheme w) "dark"
    then (Some "block", Some "none") else (Some "none", Some "block").
Proof.
  intros [moon Hmoon] [sun Hsun]. unfold updateIcon. rewrite Hmoon, Hsun.
  by destruct (String.eqb (currentTheme w) "dark").
Qed.

Lemma updateIcon_absent w :
  moonIcon w = None \/ sunIcon w = None -> updateIcon w = w.
Proof.
  unfold updateIcon. intros [-> | ->]; [done |]. by destruct (moonIcon w).
Qed.

Lemma updateIcon_present w :
  (is_Some (moonIcon (updateIcon w)) <-> is_Some (moonIcon w))
  /\ (is_Some (sunIcon (updateIcon w)) <-> is_Some (sunIcon w)).
Proof.
  unfold updateIcon.
  destruct (moonIcon w) eqn:Hmoon, (sunIcon w) eqn:Hsun;
    rewrite ?Hmoon, ?Hsun; try done.
  destruct (String.eqb (currentTheme w) "dark"); cbn; split; split; eauto.
Qed.

Lemma applied_shows_theme theme shouldBroadcast w :
  shows_theme (updateIcon (applyTheme electronAPI theme shouldBroadcast w)).
Proof.
  pose proof (applyTheme_page theme shouldBroadcast w)
    as (Htheme & Hbright & Hstorage & Hmoon & Hsun & _).
  pose proof (updateIcon_page (applyTheme electronAPI theme shouldBroadcast w))
    as (Htheme' & Hbright' & Hstorage' & _).
  pose proof (updateIcon_present (applyTheme electronAPI theme shouldBroadcast w))
    as [Hmoon' Hsun'].
  unfold shows_theme. rewrite Htheme', Hbright', Hstorage', Htheme, Hbright, Hstorage.
  split; [done |]. split; [apply lookup_insert_eq |].
  intros Hm Hs. rewrite updateIcon_icons; [by rewrite Htheme | tauto | tauto].
Qed.

Lemma init_shows_theme w : shows_theme (init electronAPI w).
Proof. apply applied_shows_theme. Qed.

Lemma step_shows_theme op w :
  shows_theme w -> shows_theme (step electronAPI op w).
Proof.
  intros Hshows. destruct op as [| theme]; cbn [step].
  - destruct (toggleBtn w); [apply applied_shows_theme | done].
  - destruct (onThemeChanged electronAPI); [| done]. unfold theme_changed.
    destruct (String.eqb theme (currentTheme w)); [done |].
    apply applied_shows_theme.
Qed.

Lemma run_shows_theme ops w :
  shows_theme w -> shows_theme (run electronAPI ops w).
Proof.
  revert w. induction ops as [|op ops IH]; intros w Hshows; [done |].
  apply IH. by apply step_shows_theme.
Qed.

End ThemeFacts.

(** X22: Once [init] has run, the page always shows the manager's theme,
    whatever clicks on the toggle button and theme announcements from
    other windows follow: the root element has the class 'bright-theme'
    exactly when the theme is 'bright', the stored theme is the current
    one, and on a page with both icons the moon is displayed for 'dark'
    and the sun for any other theme. *)
Theorem page_shows_theme (electronAPI : ElectronAPI) (ops : list Op) (w : World) :
  shows_theme (run electronAPI ops (init electronAPI w)).
Proof. apply run_shows_theme, init_shows_theme. Qed.

(** *** What is sent to the other windows *)

Section Broadcast.

Variable electronAPI : ElectronAPI.

(** The [setTheme] calls of a click on a page whose theme is [theme]. *)
Definition click_calls (theme : string) : list string :=
  match setTheme electronAPI with
  | Some _ => [if String.eqb theme "dark" then "bright" else "dark"]
  | None => []
  end.

Lemma quiet_apply theme w :
  setTheme_calls (applyTheme electronAPI theme false w) = setTheme_calls w.
Proof. reflexivity. Qed.

Lemma loud_apply theme w :
  setTheme_calls (applyTheme electronAPI theme true w)
  = setTheme_calls w ++ match setTheme electronAPI with
                        | Some _ => [theme]
                        | None => []
                        end.
Proof.
  unfold applyTheme, saveTheme. destruct (setTheme electronAPI) as [call |].
  - by destruct (call theme).
  - cbn. by rewrite app_nil_r.
Qed.

Lemma loadTheme_calls w :
  setTheme_calls (loadTheme electronAPI w) = setTheme_calls w
  /\ toggleBtn (loadTheme electronAPI w) = toggleBtn w.
Proof. unfold loadTheme. by repeat case_match. Qed.

Lemma init_calls w :
  setTheme_calls (init electronAPI w) = setTheme_calls w
  /\ toggleBtn (init electronAPI w) = toggleBtn w.
Proof.
  unfold init.
  pose proof (updateIcon_page
    (applyTheme electronAPI (currentTheme (loadTheme electronAPI w)) false
       (loadTheme electronAPI w))) as (_ & _ & _ & -> & ->).
  pose proof (applyTheme_page electronAPI
    (currentTheme (loadTheme electronAPI w)) false (loadTheme electronAPI w))
    as (_ & _ & _ & _ & _ & ->).
  rewrite quiet_apply. apply loadTheme_calls.
Qed.

Lemma step_calls op w :
  toggleBtn (step electronAPI op w) = toggleBtn w
  /\ setTheme_calls (step electronAPI op w)
     = setTheme_calls w
       ++ (if is_click op && toggleBtn w then click_calls (currentTheme w) else []).
Proof.
  destruct op as [| theme]; cbn [step is_click andb].
  - destruct (toggleBtn w) eqn:Hbtn; [| by rewrite app_nil_r].
    unfold toggleTheme.
    set (newTheme := if String.eqb (currentTheme w) "dark" then "bright" else "dark").
    pose proof (updateIcon_page (applyTheme electronAPI newTheme true w))
      as (_ & _ & _ & -> & ->).
    pose proof (applyTheme_page electronAPI newTheme true w)
      as (_ & _ & _ & _ & _ & ->).
    by rewrite loud_apply.
  - rewrite app_nil_r.
    destruct (onThemeChanged electronAPI); [| done]. unfold theme_changed.
    destruct (String.eqb theme (currentTheme w)); [done |].
    pose proof (updateIcon_page (applyTheme electronAPI theme false w))
      as (_ & _ & _ & -> & ->).
    pose proof (applyTheme_page electronAPI theme false w)
      as (_ & _ & _ & _ & _ & ->).
    by rewrite quiet_apply.
Qed.

Lemma run_calls ops : forall w,
  length (setTheme_calls (run electronAPI ops w))
  = (length (setTheme_calls w)
     + match setTheme electronAPI with
       | Some _ => if toggleBtn w then clicks ops else 0
       | None => 0
       end)%nat.
Proof.
  induction ops as [|op ops IH]; intros w.
  - cbn. destruct (setTheme electronAPI), (toggleBtn w); lia.
  - change (run electronAPI (op :: ops) w)
      with (run electronAPI ops (step electronAPI op w)).
    destruct (step_calls op w) as [Hbtn Hcalls].
    rewrite IH, Hbtn, Hcalls, length_app. unfold click_calls.
    destruct op as [| theme]; cbn [is_click andb clicks];
      destruct (toggleBtn w), (setTheme electronAPI) as [call |];
      cbn [length]; lia.
Qed.

End Broadcast.

(** X23: The manager tells the other windows of a theme exactly when the
    toggle button is clicked: from the start of [init] on, [setTheme] has
    been called once for each click, given that the page has the button
    and the API the call, and not at all otherwise.  Neither [init] nor a
    theme announced by another window is sent back. *)
Theorem only_clicks_are_broadcast
    (electronAPI : ElectronAPI) (ops : list Op) (w : World) :
  length (setTheme_calls (run electronAPI ops (init electronAPI w)))
  = (length (setTheme_calls w)
     + match setTheme electronAPI with
       | Some _ => if toggleBtn w then clicks ops else 0
       | None => 0
       end)%nat.
Proof.
  rewrite run_calls.
  destruct (init_calls electronAPI w) as [-> ->]. done.
Qed.

(** *** Toggling *)

Lemma toggle_page electronAPI w :
  let theme := if String.eqb (currentTheme w) "dark" then "bright" else "dark" in
  let w' := toggleTheme electronAPI w in
  currentTheme w' = theme
  /\ bright_theme w' = String.eqb theme "bright"
  /\ localStorage w' = <["theme" := theme]> (localStorage w)
  /\ (is_Some (moonIcon w') <-> is_Some (moonIcon w))
  /\ (is_Some (sunIcon w') <-> is_Some (sunIcon w))
  /\ (moonIcon w = None \/ sunIcon w = None ->
      moonIcon w' = moonIcon w /\ sunIcon w' = sunIcon w).
Proof.
  intros theme w'. subst w'. unfold toggleTheme. fold theme.
  pose proof (applyTheme_page electronAPI theme true w)
    as (Htheme & Hbright & Hstorage & Hmoon & Hsun & _).
  pose proof (updateIcon_page (applyTheme electronAPI theme true w))
    as (-> & -> & -> & _).
  pose proof (updateIcon_present (applyTheme electronAPI theme true w))
    as [Hmoon' Hsun'].
  rewrite Hmoon in Hmoon'. rewrite Hsun in Hsun'.
  repeat split; try tauto; try done.
  - rewrite updateIcon_absent; [done | by rewrite Hmoon, Hsun].
  - rewrite updateIcon_absent; [done | by rewrite Hmoon, Hsun].
Qed.

(** X24: On a page that shows its theme, 'dark' or 'bright', toggling
    twice gives the page back: the theme, the root's class, the stored
    items and the icons are what they were. *)
Theorem toggle_twice_restores (electronAPI : ElectronAPI) (w : World) :
  shows_theme w ->
  currentTheme w = "dark" \/ currentTheme w = "bright" ->
  let w' := toggleTheme electronAPI (toggleTheme electronAPI w) in
  currentTheme w' = currentTheme w
  /\ bright_theme w' = bright_theme w
  /\ localStorage w' = localStorage w
  /\ moonIcon w' = moonIcon w
  /\ sunIcon w' = sunIcon w.
Proof.
  intros (Hbright & Hstored & Hicons) Htheme w'. subst w'.
  pose proof (toggle_page electronAPI w) as (T1 & B1 & S1 & M1 & N1 & A1).
  pose proof (toggle_page electronAPI (toggleTheme electronAPI w))
    as (T2 & B2 & S2 & M2 & N2 & A2).
  pose proof (applied_shows_theme electronAPI
    (if String.eqb (currentTheme (toggleTheme electronAPI w)) "dark"
     then "bright" else "dark") true (toggleTheme electronAPI w))
    as (_ & _ & Hicons2).
  fold (toggleTheme electronAPI (toggleTheme electronAPI w)) in Hicons2.
  set (w1 := toggleTheme electronAPI w) in *.
  set (w2 := toggleTheme electronAPI w1) in *.
  assert (currentTheme w2 = currentTheme w) as Hback.
  { rewrite T2, T1. by destruct Htheme as [-> | ->]. }
  split; [done |].
  split. { rewrite B2, Hbright, <- Hback, T2. done. }
  split.
  { rewrite S2, S1, insert_insert_eq, <- T2, Hback. by apply insert_id. }
  destruct (moonIcon w) as [moon |] eqn:Hmoon, (sunIcon w) as [sun |] eqn:Hsun.
  - assert ((moonIcon w2, sunIcon w2) = (Some moon, Some sun)) as Heq.
    { rewrite Hicons2; [| apply M2, M1; eauto | apply N2, N1; eauto].
      rewrite Hback. symmetry. apply Hicons; eauto. }
    by injection Heq.
  - destruct A1 as [A1m A1s]; [by right |].
    destruct A2 as [A2m A2s]; [by right |]. split; congruence.
  - destruct A1 as [A1m A1s]; [by left |].
    destruct A2 as [A2m A2s]; [by left |]. split; congruence.
  - destruct A1 as [A1m A1s]; [by left |].
    destruct A2 as [A2m A2s]; [by left |]. split; congruence.
Qed.

Lemma toggle_twice_restores_witness :
  let w := init demo_api demo_page in
  let w' := toggleTheme demo_api (toggleTheme demo_api w) in
  currentTheme w' = "dark"
  /\ bright_theme w' = false
  /\ localStorage w' = localStorage w
  /\ moonIcon w' = Some "block"
  /\ sunIcon w' = Some "none".
Proof.
  apply (toggle_twice_restores demo_api (init demo_api demo_page)).
  - split; [reflexivity | split; [reflexivity | intros _ _; reflexivity]].
  - left. reflexivity.
Defined.

(** *** Starting without the main process *)

(** X25: When the page cannot get the theme from the main process, because
    the call is missing or is rejected, [init] takes the stored theme, or
    'dark' when none or an empty one is stored, and stores it: the theme
    is then not empty, and no [setTheme] call is made. *)
Theorem init_falls_back_to_storage (electronAPI : ElectronAPI) (w : World) :
  (forall theme, getTheme electronAPI <> Some (Resolved theme)) ->
  let w' := init electronAPI w in
  currentTheme w' = stored_or_dark w
  /\ currentTheme w' <> ""
  /\ localStorage w' !! "theme" = Some (stored_or_dark w)
  /\ setTheme_calls w' = setTheme_calls w.
Proof.
  intros Hipc w'. subst w'.
  assert (currentTheme (loadTheme electronAPI w) = stored_or_dark w) as Hload.
  { unfold loadTheme. destruct (getTheme electronAPI) as [[theme |] |]; try done.
    by destruct (Hipc theme). }
  assert (stored_or_dark w <> "") as Hne.
  { unfold stored_or_dark. destruct (localStorage w !! "theme") as [theme |]; [| done].
    by destruct (String.eqb_spec theme ""). }
  destruct (init_shows_theme electronAPI w) as (_ & Hstored & _).
  assert (currentTheme (init electronAPI w) = stored_or_dark w) as Htheme.
  { unfold init.
    pose proof (updateIcon_page
      (applyTheme electronAPI (currentTheme (loadTheme electronAPI w)) false
         (loadTheme electronAPI w))) as (-> & _).
    pose proof (applyTheme_page electronAPI
      (currentTheme (loadTheme electronAPI w)) false (loadTheme electronAPI w))
      as (-> & _).
    done. }
  rewrite Hstored, Htheme.
  repeat split; try done. apply init_calls.
Qed.

Lemma init_falls_back_to_storage_witness :
  let w' := init demo_api demo_page in
  currentTheme w' = "dark"
  /\ currentTheme w' <> ""
  /\ localStorage w' !! "theme" = Some "dark"
  /\ setTheme_calls w' = [].
Proof.
  apply (init_falls_back_to_storage demo_api demo_page).
  intros theme. vm_compute. discriminate.
Defined.

End Theme.
